(** * The coding agent of flowgram.ai: retrieval, tool registry and agent loop

    A shallow embedding of [apps/coding-agent/src/agent.ts]: the cosine
    similarity over JavaScript numbers, [Agent.retrieveContext], the three
    file tools and the tool-calling loop of [Agent.runStream] (with the
    earlier console variant [Agent.run]).

    JavaScript numbers are IEEE 754 binary64 values and are modelled by
    Rocq's primitive floats, which have the same arithmetic.  Strings are
    [string]s (a JavaScript string is identified with its UTF-8 text, so
    unpaired surrogates are outside the model).  Node's [fs] and [path]
    modules are modelled by a small POSIX file tree without symbolic links,
    permissions or quotas. *)

From Stdlib Require Import ZArith Floats SpecFloat Ascii String List Permutation Sorted Lia Bool.
From stdpp Require Import base option list strings gmap pretty sorting.
Import ListNotations.

Local Open Scope Z_scope.
Local Open Scope stdpp_scope.

(** ** JavaScript values *)

(** The values a tool call's arguments are made of: [undefined] and the JSON
    fragment.  Numbers are integral here; objects are association lists in
    which the first binding of a key is the one a property read sees. *)
#[local] Unset Elimination Schemes.
Inductive JsVal : Type :=
  | VUndefined
  | VNull
  | VBool (b : bool)
  | VNum (n : Z)
  | VStr (s : string)
  | VObj (fields : list (string * JsVal)).
#[local] Set Elimination Schemes.

(** The fields of an object; [Record<string, any>] is the declared type of
    [ToolCall.args], which the model's output need not have. *)
Definition JsObject : Type := list (string * JsVal).

(** Property read [obj.key]; an absent key reads as [undefined]. *)
Fixpoint get (obj : JsObject) (key : string) : JsVal :=
  match obj with
  | [] => VUndefined
  | (k, v) :: rest => if String.eqb k key then v else get rest key
  end.

(** [ToString], as a template literal applies it. *)
Definition to_string (v : JsVal) : string :=
  match v with
  | VUndefined => "undefined"
  | VNull => "null"
  | VBool true => "true"
  | VBool false => "false"
  | VNum n => pretty n
  | VStr s => s
  | VObj _ => "[object Object]"
  end.

(** The [Received ...] suffix of Node's [ERR_INVALID_ARG_TYPE] messages. *)
Definition received (v : JsVal) : string :=
  match v with
  | VUndefined => "undefined"
  | VNull => "null"
  | VBool b => "type boolean (" +:+ to_string v +:+ ")"
  | VNum n => "type number (" +:+ to_string v +:+ ")"
  | VStr s => "type string ('" +:+ s +:+ "')"
  | VObj _ => "an instance of Object"
  end.

(** What [z.string()] accepts. *)
Definition is_string (v : JsVal) : bool :=
  match v with VStr _ => true | _ => false end.

(** [undefined] and [null], the values that have no properties. *)
Definition nullish (v : JsVal) : bool :=
  match v with VUndefined | VNull => true | _ => false end.

(** What [z.object({...})] looks at: the fields of an object, nothing else. *)
Definition fields_of (v : JsVal) : option JsObject :=
  match v with VObj fields => Some fields | _ => None end.

(** ** Computations that may throw, over a mutable store *)

Inductive Result (A : Type) : Type :=
  | Ok (a : A)
  | Throw (message : string).
Arguments Ok {A} a.
Arguments Throw {A} message.

(** A computation over a store [S]: it ends with a value or with a thrown
    error whose [message] is kept, and in both cases leaves a store. *)
Definition M (S A : Type) : Type := S -> Result A * S.

Definition ret {S A} (a : A) : M S A := fun s => (Ok a, s).

Definition throw {S A} (message : string) : M S A := fun s => (Throw message, s).

Definition bind {S A B} (m : M S A) (k : A -> M S B) : M S B :=
  fun s =>
    match m s with
    | (Ok a, s') => k a s'
    | (Throw e, s') => (Throw e, s')
    end.

(** [try { m } catch (e) { handler e.message }] *)
Definition try_catch {S A} (m : M S A) (handler : string -> M S A) : M S A :=
  fun s =>
    match m s with
    | (Ok a, s') => (Ok a, s')
    | (Throw e, s') => handler e s'
    end.

Definition gets {S A} (f : S -> A) : M S A := fun s => (Ok (f s), s).

Definition modify {S} (f : S -> S) : M S unit := fun s => (Ok tt, f s).

(** The [message] of the [TypeError] of a destructuring pattern [{ key }]
    met with [undefined] or [null]. *)
Definition cannot_destructure (key : string) (v : JsVal) : string :=
  match v with
  | VNull =>
      "Cannot destructure property '" +:+ key +:+ "' of 'object null' as it is null."
  | _ =>
      "Cannot destructure property '" +:+ key +:+ "' of 'undefined' as it is undefined."
  end.

(** The binding of [key] by a destructuring parameter [({ key }) => ...]:
    [undefined] and [null] cannot be destructured; a boolean, a number and a
    string have no property of the names the tools use. *)
Definition destructure {S} (v : JsVal) (key : string) : M S JsVal :=
  match v with
  | VUndefined | VNull => throw (cannot_destructure key v)
  | VObj fields => ret (get fields key)
  | _ => ret VUndefined
  end.

Declare Scope js_scope.
Delimit Scope js_scope with js.
Notation "x <- m ;; k" := (bind m (fun x => k))
  (at level 100, m at next level, right associativity) : js_scope.
Notation "m ;;; k" := (bind m (fun _ => k))
  (at level 100, right associativity) : js_scope.

(** ** The file system behind Node's [fs] *)

Inductive Errno : Type := ENOENT | ENOTDIR | EISDIR | EEXIST.

Inductive Node : Type :=
  | File (data : string)
  | Dir.

(** A location is the list of names from the root down. *)
Abbreviation Location := (list string).

Record FileSystem : Type := mkFS {
  cwd : Location;
  nodes : gmap Location Node
}.

(** The root directory is always there. *)
Definition node_at (fs : FileSystem) (q : Location) : option Node :=
  match q with
  | [] => Some Dir
  | _ => nodes fs !! q
  end.

Definition put_node (q : Location) (n : Node) (fs : FileSystem) : FileSystem :=
  mkFS (cwd fs) (<[q := n]> (nodes fs)).

Definition slash : ascii := "/"%char.

Definition is_slash (c : ascii) : bool := Ascii.eqb c slash.

(** The components of a path string, cut at every ["/"]. *)
Fixpoint segments (s : string) : list string :=
  match s with
  | EmptyString => [EmptyString]
  | String c rest =>
      if is_slash c then EmptyString :: segments rest
      else match segments rest with
           | seg :: segs => String c seg :: segs
           | [] => [String c EmptyString]
           end
  end.

(** One step of path resolution from the directory [cur]. *)
Definition step (cur : Location) (c : string) : Location :=
  if String.eqb c "" then cur
  else if String.eqb c "." then cur
  else if String.eqb c ".." then removelast cur
  else cur ++ [c].

(** Path resolution: every component is looked up in an existing directory;
    the place the last component names need not exist. *)
Fixpoint walk (fs : FileSystem) (cur : Location) (comps : list string)
  : Errno + Location :=
  match comps with
  | [] => inr cur
  | c :: rest =>
      match node_at fs cur with
      | Some Dir => walk fs (step cur c) rest
      | Some (File _) => inl ENOTDIR
      | None => inl ENOENT
      end
  end.

Definition starts_at_root (s : string) : bool :=
  match s with
  | String c _ => is_slash c
  | EmptyString => false
  end.

Definition resolve (fs : FileSystem) (s : string) : Errno + Location :=
  if String.eqb s "" then inl ENOENT
  else walk fs (if starts_at_root s then [] else cwd fs) (segments s).

Definition errno_text (e : Errno) : string :=
  match e with
  | ENOENT => "ENOENT: no such file or directory"
  | ENOTDIR => "ENOTDIR: not a directory"
  | EISDIR => "EISDIR: illegal operation on a directory"
  | EEXIST => "EEXIST: file already exists"
  end.

(** The [message] of the error a failed system call throws. *)
Definition fs_error (e : Errno) (syscall path : string) : string :=
  errno_text e +:+ ", " +:+ syscall +:+ " '" +:+ path +:+ "'".

(** The double quote character, as a string. *)
Definition dquote : string := String (ascii_of_nat 34) EmptyString.

(** The [message] of the [TypeError] for an argument that is not of one of
    the types [expected]. *)
Definition invalid_arg (name expected : string) (v : JsVal) : string :=
  "The " +:+ dquote +:+ name +:+ dquote +:+
  " argument must be " +:+ expected +:+ ". Received " +:+ received v.

(** What [path.dirname] expects, what [fs] expects of a path, and what
    [fs.writeFileSync] expects of the data. *)
Definition a_string : string := "of type string".

Definition a_path : string := "of type string or an instance of Buffer or URL".

Definition some_data : string :=
  "of type string or an instance of Buffer, TypedArray, or DataView".

(** [fs.existsSync(path)]: never throws; [false] for anything that is not
    the path of an existing file or directory. *)
Definition existsSync (path : JsVal) : M FileSystem bool :=
  gets (fun fs =>
    match path with
    | VStr s =>
        match resolve fs s with
        | inr q => bool_decide (is_Some (node_at fs q))
        | inl _ => false
        end
    | _ => false
    end).

(** [fs.readFileSync(path, 'utf-8')]: a directory can be opened, it is the
    read that fails. *)
Definition readFileSync (path : JsVal) : M FileSystem string :=
  fun fs =>
    match path with
    | VStr s =>
        match resolve fs s with
        | inr q =>
            match node_at fs q with
            | Some (File data) => (Ok data, fs)
            | Some Dir => (Throw (errno_text EISDIR +:+ ", read"), fs)
            | None => (Throw (fs_error ENOENT "open" s), fs)
            end
        | inl e => (Throw (fs_error e "open" s), fs)
        end
    | _ => (Throw (invalid_arg "path" a_path path), fs)
    end.

(** What is left of a list after its first elements that satisfy [p]. *)
Fixpoint drop_while {A} (p : A -> bool) (l : list A) : list A :=
  match l with
  | [] => []
  | x :: rest => if p x then drop_while p rest else l
  end.

(** The path ends with a slash, and what is left of it without its last
    slashes is a name that is free in an existing directory: to open it for
    writing would be to create a directory. *)
Definition names_new_directory (fs : FileSystem) (s : string) : bool :=
  let chars := rev (list_ascii_of_string s) in
  match chars with
  | c :: _ =>
      is_slash c &&
      match resolve fs (string_of_list_ascii (rev (drop_while is_slash chars))) with
      | inr q => bool_decide (node_at fs q = None)
      | inl _ => false
      end
  | [] => false
  end.

(** [fs.writeFileSync(path, data)]: the data is checked first, then the file
    is opened for writing, created or truncated, and filled. *)
Definition writeFileSync (path data : JsVal) : M FileSystem unit :=
  fun fs =>
    match data with
    | VStr d =>
        match path with
        | VStr s =>
            match resolve fs s with
            | inr q =>
                match node_at fs q with
                | Some Dir => (Throw (fs_error EISDIR "open" s), fs)
                | _ => (Ok tt, put_node q (File d) fs)
                end
            | inl e =>
                (Throw (fs_error (if names_new_directory fs s then EISDIR else e) "open" s),
                 fs)
            end
        | _ => (Throw (invalid_arg "path" a_path path), fs)
        end
    | _ => (Throw (invalid_arg "data" some_data data), fs)
    end.

(** The walk of [mkdir -p]: directories that are missing on the way are
    created, one after the other; what was created stays when a later
    component fails. *)
Fixpoint mkdirp (cur : Location) (comps : list string) (fs : FileSystem)
  : option Errno * FileSystem :=
  match comps with
  | [] => (None, fs)
  | c :: rest =>
      match node_at fs cur with
      | Some Dir =>
          let nxt := step cur c in
          match node_at fs nxt with
          | None => mkdirp nxt rest (put_node nxt Dir fs)
          | Some Dir => mkdirp nxt rest fs
          | Some (File _) =>
              (Some (match rest with [] => EEXIST | _ => ENOTDIR end), fs)
          end
      | Some (File _) => (Some ENOTDIR, fs)
      | None => (Some ENOENT, fs)
      end
  end.

(** [fs.mkdirSync(path, { recursive: true })] *)
Definition mkdirSync_recursive (path : JsVal) : M FileSystem unit :=
  fun fs =>
    match path with
    | VStr s =>
        if String.eqb s "" then (Throw (fs_error ENOENT "mkdir" s), fs)
        else
          match mkdirp (if starts_at_root s then [] else cwd fs) (segments s) fs with
          | (None, fs') => (Ok tt, fs')
          | (Some e, fs') => (Throw (fs_error e "mkdir" s), fs')
          end
    | _ => (Throw (invalid_arg "path" a_path path), fs)
    end.

(** The order of [strcmp] on names. *)
Definition name_le (a b : string) : Prop := String.leb a b = true.

#[global] Instance name_le_dec (a b : string) : Decision (name_le a b).
Proof. unfold name_le. apply _. Defined.

(** The names directly below the directory [q], sorted as [scandir] hands
    them out. *)
Definition children (fs : FileSystem) (q : Location) : list string :=
  merge_sort name_le
    (omap (fun '(loc, _) =>
             match last loc with
             | Some name => if bool_decide (removelast loc = q) then Some name else None
             | None => None
             end)
          (map_to_list (nodes fs))).

(** [fs.readdirSync(path)] *)
Definition readdirSync (path : JsVal) : M FileSystem (list string) :=
  fun fs =>
    match path with
    | VStr s =>
        match resolve fs s with
        | inr q =>
            match node_at fs q with
            | Some Dir => (Ok (children fs q), fs)
            | Some (File _) => (Throw (fs_error ENOTDIR "scandir" s), fs)
            | None => (Throw (fs_error ENOENT "scandir" s), fs)
            end
        | inl e => (Throw (fs_error e "scandir" s), fs)
        end
    | _ => (Throw (invalid_arg "path" a_path path), fs)
    end.

(** ** Node's [path.dirname] (POSIX) *)

(** The loop of [dirname] runs from the last character down to the second:
    it passes the trailing slashes, then the last component, and stops at
    the slash before it; everything left of that slash is the result. *)
Definition dirname_of (path : string) : string :=
  match list_ascii_of_string path with
  | [] => "."
  | c0 :: body =>
      let hasRoot := is_slash c0 in
      match drop_while (fun c => negb (is_slash c)) (drop_while is_slash (rev body)) with
      | [] => if hasRoot then "/" else "."
      | _ :: r =>
          match r with
          | [] => if hasRoot then "//" else String c0 EmptyString
          | _ => string_of_list_ascii (c0 :: rev r)
          end
      end
  end.

(** [path.dirname(p)]; it throws a [TypeError] unless [p] is a string. *)
Definition dirname {S} (p : JsVal) : M S JsVal :=
  match p with
  | VStr s => ret (VStr (dirname_of s))
  | _ => throw (invalid_arg "path" a_string p)
  end.

(** ** The tool registry *)

(** [interface ToolDef]: the [schema] is the Zod object's [safeParse(...).success]
    and [func] the handler, whose promise may reject.  The handlers take their
    argument by a destructuring parameter, which is bound before the body and
    its [try] are entered. *)
Record ToolDef : Type := mkTool {
  name : string;
  description : string;
  schema : JsVal -> bool;
  func : JsVal -> M FileSystem string
}.

Definition read_file : ToolDef := {|
  name := "read_file";
  description := "Read the content of a file";
  schema := fun args =>
    match fields_of args with
    | Some fields => is_string (get fields "path")
    | None => false
    end;
  func := fun args =>
    (path <- destructure args "path" ;;
     try_catch
       (found <- existsSync path ;;
        if negb found then ret ("File not found: " +:+ to_string path)
        else readFileSync path)
       (fun message => ret ("Error reading file: " +:+ message)))%js
|}.

Definition write_file : ToolDef := {|
  name := "write_file";
  description := "Write content to a file. Overwrites existing file.";
  schema := fun args =>
    match fields_of args with
    | Some fields => is_string (get fields "path") && is_string (get fields "content")
    | None => false
    end;
  func := fun args =>
    (filePath <- destructure args "path" ;;
     content <- destructure args "content" ;;
     try_catch
       (dir <- dirname filePath ;;
        found <- existsSync dir ;;
        (if negb found then mkdirSync_recursive dir else ret tt) ;;;
        writeFileSync filePath content ;;;
        ret ("Successfully wrote to " +:+ to_string filePath))
       (fun message => ret ("Error writing file: " +:+ message)))%js
|}.

Definition newline : string := String (ascii_of_nat 10) EmptyString.

(** [files.join(sep)] *)
Definition join (sep : string) (l : list string) : string := String.concat sep l.

Definition list_files : ToolDef := {|
  name := "list_files";
  description := "List files in a directory";
  schema := fun args =>
    match fields_of args with
    | Some fields => is_string (get fields "path")
    | None => false
    end;
  func := fun args =>
    (dirPath <- destructure args "path" ;;
     try_catch
       (found <- existsSync dirPath ;;
        if negb found then ret ("Directory not found: " +:+ to_string dirPath)
        else (files <- readdirSync dirPath ;; ret (join newline files)))
       (fun message => ret ("Error listing files: " +:+ message)))%js
|}.

(** [const tools: ToolDef[]] *)
Definition tools : list ToolDef := [read_file; write_file; list_files].

(** [tools.find(t => t.name === toolName)] *)
Definition find_tool (toolName : string) : option ToolDef :=
  List.find (fun t => String.eqb (name t) toolName) tools.

(** The dispatch the specification describes, to compare the loop with:
    the arguments are validated against the schema first, and a failure of
    the validation is the string result, the handler not being run. *)
Definition validated_dispatch (failure : JsVal -> string) (t : ToolDef)
    (args : JsVal) : M FileSystem string :=
  if schema t args then func t args else ret (failure args).

(** ** Cosine similarity *)

(** The loop of [cosineSimilarity] runs over the indices of [vecA]; where
    [vecB] is shorter, [vecB[i]] is [undefined], which the arithmetic turns
    into [NaN].  The accumulator is [(dotProduct, normA, normB)]. *)
Fixpoint accumulate (vecA vecB : list float) (acc : float * float * float)
  : float * float * float :=
  match vecA with
  | [] => acc
  | a :: restA =>
      let b := hd nan vecB in
      let '(dotProduct, normA, normB) := acc in
      accumulate restA (tl vecB)
        (dotProduct + a * b, normA + a * a, normB + b * b)%float
  end.

Definition cosineSimilarity (vecA vecB : list float) : float :=
  let '(dotProduct, normA, normB) := accumulate vecA vecB (0, 0, 0)%float in
  if (normA =? 0)%float || (normB =? 0)%float then 0%float
  else (dotProduct / (sqrt normA * sqrt normB))%float.

(** ** The index and its retrieval *)

(** [interface DocumentChunk]; [embedding] is optional. *)
Record DocumentChunk : Type := mkChunk {
  path : string;
  content : string;
  embedding : option (list float)
}.

(** What [modelWithTools.invoke] may give back.  The arguments of a call
    are what the model's output parses to: an object as a rule, but nothing
    ensures it. *)
Record ToolCall : Type := mkCall {
  tc_id : option string;
  tc_name : string;
  tc_args : JsVal
}.

Record AIMessage : Type := mkAI {
  ai_content : string;
  tool_calls : option (list ToolCall)
}.

Inductive Message : Type :=
  | SystemMessage (text : string)
  | HumanMessage (text : string)
  | AssistantMessage (response : AIMessage)
  | ToolMessage (tool_call_id : string) (text : string).

(** The fields of [class Agent].  [embedQuery] and [invoke] are the two
    remote capabilities; either may fail, which is a [Throw]. *)
Record Agent : Type := mkAgent {
  index : list DocumentChunk;
  embeddings : option (string -> Result (list float));
  llm : list Message -> Result AIMessage
}.

Record Scored : Type := mkScored {
  chunk : DocumentChunk;
  score : float
}.

(** The callback of [this.index.map]. *)
Definition score_chunk (queryEmbedding : list float) (c : DocumentChunk) : Scored :=
  {| chunk := c;
     score := match embedding c with
              | Some e => cosineSimilarity queryEmbedding e
              | None => (-1)%float
              end |}.

(** The comparator [(a, b) => b.score - a.score]. *)
Definition by_score_desc (a b : Scored) : float := (score b - score a)%float.

(** *** [Array.prototype.sort] *)

(** Where the comparator orders the elements consistently the language fixes
    the result of the sort: the elements in ascending order of the comparator,
    those it holds equal in the order they had.  The engine only ever asks
    whether the comparator's result is negative, a [NaN] counting as [0]. *)
Definition precedes {A} (comparefn : A -> A -> float) (a b : A) : bool :=
  (comparefn a b <? 0)%float.

(** The comparator is consistent on the elements of [l]: [precedes] is a
    strict order there, and so is its complement but for the elements it
    holds equal. *)
Definition consistent {A} (comparefn : A -> A -> float) (l : list A) : bool :=
  forallb (fun a =>
    negb (precedes comparefn a a) &&
    forallb (fun b =>
      forallb (fun c =>
        implb (precedes comparefn a b && precedes comparefn b c) (precedes comparefn a c) &&
        implb (negb (precedes comparefn a b) && negb (precedes comparefn b c))
              (negb (precedes comparefn a c))) l) l) l.

(** The sort for a consistent comparator, by insertion: each element in
    turn is the pivot; it goes in front of the first element of the sorted
    part that it precedes. *)
Fixpoint insert_pivot {A} (comparefn : A -> A -> float) (pivot : A) (sorted : list A)
  : list A :=
  match sorted with
  | [] => [pivot]
  | e :: rest =>
      if (comparefn pivot e <? 0)%float then pivot :: sorted
      else e :: insert_pivot comparefn pivot rest
  end.

Definition stable_sort {A} (comparefn : A -> A -> float) (l : list A) : list A :=
  fold_left (fun sorted pivot => insert_pivot comparefn pivot sorted) l [].

(** *** The sort of the engine *)

(** For a comparator that is not consistent the language leaves the order
    to the engine.  Node's engine sorts with TimSort ([array-sort.tq]), which
    is followed here step by step: arrays are lists, indices are integers,
    and every loop runs on a count of rounds that it cannot use up. *)
Module TimSort.
Section TimSort.

Context {A : Type}.
Variable comparefn : A -> A -> float.
(** What a read outside an array gives; no read is. *)
Variable filler : A.

(** [sortState.Compare]: a comparator's [NaN] is taken for [0]. *)
Definition Compare (x y : A) : float :=
  let v := comparefn x y in if is_nan v then 0%float else v.

Definition load (array : list A) (i : Z) : A := default filler (array !! Z.to_nat i).

Definition store (array : list A) (i : Z) (x : A) : list A := <[Z.to_nat i := x]> array.

(** [Copy(source, srcPos, target, dstPos, length)], the ranges may overlap. *)
Definition Copy (source : list A) (srcPos : Z) (target : list A) (dstPos length : Z) : list A :=
  take (Z.to_nat dstPos) target ++
  take (Z.to_nat length) (drop (Z.to_nat srcPos) source) ++
  drop (Z.to_nat (dstPos + length)) target.

Definition ReverseRange (array : list A) (from to : Z) : list A :=
  take (Z.to_nat from) array ++
  rev (take (Z.to_nat (to - from)) (drop (Z.to_nat from) array)) ++
  drop (Z.to_nat to) array.

Definition kMinGallopWins : Z := 7.

Record SortState : Type := mkState {
  workArray : list A;
  pendingRuns : list (Z * Z);
  minGallop : Z
}.

(** The [for] loop of [CountAndMakeRun]. *)
Fixpoint count_run (workArray : list A) (isDescending : bool) (high : Z)
    (rounds : nat) (idx : Z) (previousElement : A) (runLength : Z) : Z :=
  match rounds with
  | O => runLength
  | S rounds' =>
      if idx <? high then
        let currentElement := load workArray idx in
        let order := Compare currentElement previousElement in
        if (if isDescending then (0 <=? order)%float else (order <? 0)%float)
        then runLength
        else count_run workArray isDescending high rounds' (idx + 1) currentElement
               (runLength + 1)
      else runLength
  end.

Definition CountAndMakeRun (workArray : list A) (lowArg high : Z) : Z * list A :=
  let low := lowArg + 1 in
  if low =? high then (1, workArray)
  else
    let elementLow := load workArray low in
    let elementHigh := load workArray (low - 1) in
    let order := Compare elementLow elementHigh in
    let isDescending := (order <? 0)%float in
    let runLength :=
      count_run workArray isDescending high (length workArray) (low + 1) elementLow 2 in
    (runLength,
     if isDescending then ReverseRange workArray lowArg (lowArg + runLength) else workArray).

(** The search for the place of the pivot in [BinaryInsertionSort]. *)
Fixpoint insertion_point (workArray : list A) (pivot : A) (rounds : nat)
    (left right : Z) : Z :=
  match rounds with
  | O => left
  | S rounds' =>
      if left <? right then
        let mid := left + Z.shiftr (right - left) 1 in
        let order := Compare pivot (load workArray mid) in
        if (order <? 0)%float then insertion_point workArray pivot rounds' left mid
        else insertion_point workArray pivot rounds' (mid + 1) right
      else left
  end.

Fixpoint insertion_rounds (workArray : list A) (low high : Z) (rounds : nat) (start : Z)
  : list A :=
  match rounds with
  | O => workArray
  | S rounds' =>
      if start <? high then
        let pivot := load workArray start in
        let left := insertion_point workArray pivot (length workArray) low start in
        let moved := Copy workArray left workArray (left + 1) (start - left) in
        insertion_rounds (store moved left pivot) low high rounds' (start + 1)
      else workArray
  end.

Definition BinaryInsertionSort (workArray : list A) (low startArg high : Z) : list A :=
  insertion_rounds workArray low high (length workArray)
    (if low =? startArg then startArg + 1 else startArg).

(** The galloping loop of [GallopLeft] and [GallopRight]: the offset is
    doubled until it reaches [maxOfs] or [found] holds at it. *)
Fixpoint gallop (found : Z -> bool) (maxOfs : Z) (rounds : nat) (lastOfs offset : Z)
  : Z * Z :=
  match rounds with
  | O => (lastOfs, offset)
  | S rounds' =>
      if offset <? maxOfs then
        if found offset then (lastOfs, offset)
        else gallop found maxOfs rounds' offset (Z.shiftl offset 1 + 1)
      else (lastOfs, offset)
  end.

(** The binary search that ends both: [goes_left m] moves [offset] to [m]. *)
Fixpoint narrow (goes_left : Z -> bool) (rounds : nat) (lastOfs offset : Z) : Z :=
  match rounds with
  | O => offset
  | S rounds' =>
      if lastOfs <? offset then
        let m := lastOfs + Z.shiftr (offset - lastOfs) 1 in
        if goes_left m then narrow goes_left rounds' lastOfs m
        else narrow goes_left rounds' (m + 1) offset
      else offset
  end.

Definition GallopLeft (array : list A) (key : A) (base length hint : Z) : Z :=
  let rounds := S (List.length array) in
  let baseHintElement := load array (base + hint) in
  let order := Compare baseHintElement key in
  let '(lastOfs, offset) :=
    if (order <? 0)%float then
      let maxOfs := length - hint in
      let '(lastOfs, offset) :=
        gallop (fun offset => (0 <=? Compare (load array (base + hint + offset)) key)%float)
          maxOfs rounds 0 1 in
      let offset := if maxOfs <? offset then maxOfs else offset in
      (lastOfs + hint, offset + hint)
    else
      let maxOfs := hint + 1 in
      let '(lastOfs, offset) :=
        gallop (fun offset => (Compare (load array (base + hint - offset)) key <? 0)%float)
          maxOfs rounds 0 1 in
      let offset := if maxOfs <? offset then maxOfs else offset in
      (hint - offset, hint - lastOfs) in
  narrow (fun m => negb (Compare (load array (base + m)) key <? 0)%float)
    rounds (lastOfs + 1) offset.

Definition GallopRight (array : list A) (key : A) (base length hint : Z) : Z :=
  let rounds := S (List.length array) in
  let baseHintElement := load array (base + hint) in
  let order := Compare key baseHintElement in
  let '(lastOfs, offset) :=
    if (order <? 0)%float then
      let maxOfs := hint + 1 in
      let '(lastOfs, offset) :=
        gallop (fun offset => (0 <=? Compare key (load array (base + hint - offset)))%float)
          maxOfs rounds 0 1 in
      let offset := if maxOfs <? offset then maxOfs else offset in
      (hint - offset, hint - lastOfs)
    else
      let maxOfs := length - hint in
      let '(lastOfs, offset) :=
        gallop (fun offset => (Compare key (load array (base + hint + offset)) <? 0)%float)
          maxOfs rounds 0 1 in
      let offset := if maxOfs <? offset then maxOfs else offset in
      (lastOfs + hint, offset + hint) in
  narrow (fun m => (Compare key (load array (base + m)) <? 0)%float)
    rounds (lastOfs + 1) offset.

(** The variables of a merge.  [cursor] runs over the run that stays in the
    work array, [cursorTemp] over the copy of the other one. *)
Record Merge : Type := mkMerge {
  array : list A;
  tempArray : list A;
  dest : Z;
  cursorTemp : Z;
  cursor : Z;
  lengthA : Z;
  lengthB : Z;
  localGallop : Z;
  storedGallop : Z;
  nofWinsA : Z;
  nofWinsB : Z
}.

(** Where a merge stands: in the loop that takes one element at a time, in
    the galloping loop, or at one of its two exits. *)
Inductive Phase : Type :=
  | OneByOne
  | Galloping (firstIteration : bool)
  | AtSucceed
  | AtCopy.

(** One round of the loops of [MergeLow]. *)
Definition merge_low_round (phase : Phase) (m : Merge) : Phase * Merge :=
  match phase with
  | OneByOne =>
      let order := Compare (load (array m) (cursor m)) (load (tempArray m) (cursorTemp m)) in
      if (order <? 0)%float then
        let m := mkMerge (store (array m) (dest m) (load (array m) (cursor m))) (tempArray m)
                   (dest m + 1) (cursorTemp m) (cursor m + 1) (lengthA m) (lengthB m - 1)
                   (localGallop m) (storedGallop m) 0 (nofWinsB m + 1) in
        if lengthB m =? 0 then (AtSucceed, m)
        else if localGallop m <=? nofWinsB m then
          (Galloping true,
           mkMerge (array m) (tempArray m) (dest m) (cursorTemp m) (cursor m) (lengthA m)
             (lengthB m) (localGallop m + 1) (storedGallop m) (nofWinsA m) (nofWinsB m))
        else (OneByOne, m)
      else
        let m := mkMerge (store (array m) (dest m) (load (tempArray m) (cursorTemp m)))
                   (tempArray m) (dest m + 1) (cursorTemp m + 1) (cursor m) (lengthA m - 1)
                   (lengthB m) (localGallop m) (storedGallop m) (nofWinsA m + 1) 0 in
        if lengthA m =? 1 then (AtCopy, m)
        else if localGallop m <=? nofWinsA m then
          (Galloping true,
           mkMerge (array m) (tempArray m) (dest m) (cursorTemp m) (cursor m) (lengthA m)
             (lengthB m) (localGallop m + 1) (storedGallop m) (nofWinsA m) (nofWinsB m))
        else (OneByOne, m)
  | Galloping firstIteration =>
      if (kMinGallopWins <=? nofWinsA m) || (kMinGallopWins <=? nofWinsB m) || firstIteration
      then
        let minGallop := Z.max 1 (localGallop m - 1) in
        let nofWinsA :=
          GallopRight (tempArray m) (load (array m) (cursor m)) (cursorTemp m) (lengthA m) 0 in
        let taken := 0 <? nofWinsA in
        let array1 :=
          if taken then Copy (tempArray m) (cursorTemp m) (array m) (dest m) nofWinsA
          else array m in
        let dest1 := if taken then dest m + nofWinsA else dest m in
        let cursorTemp1 := if taken then cursorTemp m + nofWinsA else cursorTemp m in
        let lengthA1 := if taken then lengthA m - nofWinsA else lengthA m in
        let m1 := mkMerge array1 (tempArray m) dest1 cursorTemp1 (cursor m) lengthA1
                    (lengthB m) minGallop minGallop nofWinsA (nofWinsB m) in
        if taken && (lengthA1 =? 1) then (AtCopy, m1)
        else if taken && (lengthA1 =? 0) then (AtSucceed, m1)
        else
          let array2 := store array1 dest1 (load array1 (cursor m)) in
          let dest2 := dest1 + 1 in
          let cursor2 := cursor m + 1 in
          let lengthB2 := lengthB m - 1 in
          let m2 := mkMerge array2 (tempArray m) dest2 cursorTemp1 cursor2 lengthA1 lengthB2
                      minGallop minGallop nofWinsA (nofWinsB m) in
          if lengthB2 =? 0 then (AtSucceed, m2)
          else
            let nofWinsB :=
              GallopLeft array2 (load (tempArray m) cursorTemp1) cursor2 lengthB2 0 in
            let taken := 0 <? nofWinsB in
            let array3 := if taken then Copy array2 cursor2 array2 dest2 nofWinsB else array2 in
            let dest3 := if taken then dest2 + nofWinsB else dest2 in
            let cursor3 := if taken then cursor2 + nofWinsB else cursor2 in
            let lengthB3 := if taken then lengthB2 - nofWinsB else lengthB2 in
            let m3 := mkMerge array3 (tempArray m) dest3 cursorTemp1 cursor3 lengthA1 lengthB3
                        minGallop minGallop nofWinsA nofWinsB in
            if taken && (lengthB3 =? 0) then (AtSucceed, m3)
            else
              let m4 := mkMerge (store array3 dest3 (load (tempArray m) cursorTemp1))
                          (tempArray m) (dest3 + 1) (cursorTemp1 + 1) cursor3 (lengthA1 - 1)
                          lengthB3 minGallop minGallop nofWinsA nofWinsB in
              if lengthA1 - 1 =? 1 then (AtCopy, m4) else (Galloping false, m4)
      else
        (OneByOne,
         mkMerge (array m) (tempArray m) (dest m) (cursorTemp m) (cursor m) (lengthA m)
           (lengthB m) (localGallop m + 1) (localGallop m + 1) 0 0)
  | _ => (phase, m)
  end.

(** One round of the loops of [MergeHigh], which merges from the far end. *)
Definition merge_high_round (phase : Phase) (m : Merge) (baseA : Z) : Phase * Merge :=
  match phase with
  | OneByOne =>
      let order := Compare (load (tempArray m) (cursorTemp m)) (load (array m) (cursor m)) in
      if (order <? 0)%float then
        let m := mkMerge (store (array m) (dest m) (load (array m) (cursor m))) (tempArray m)
                   (dest m - 1) (cursorTemp m) (cursor m - 1) (lengthA m - 1) (lengthB m)
                   (localGallop m) (storedGallop m) (nofWinsA m + 1) 0 in
        if lengthA m =? 0 then (AtSucceed, m)
        else if localGallop m <=? nofWinsA m then
          (Galloping true,
           mkMerge (array m) (tempArray m) (dest m) (cursorTemp m) (cursor m) (lengthA m)
             (lengthB m) (localGallop m + 1) (storedGallop m) (nofWinsA m) (nofWinsB m))
        else (OneByOne, m)
      else
        let m := mkMerge (store (array m) (dest m) (load (tempArray m) (cursorTemp m)))
                   (tempArray m) (dest m - 1) (cursorTemp m - 1) (cursor m) (lengthA m)
                   (lengthB m - 1) (localGallop m) (storedGallop m) 0 (nofWinsB m + 1) in
        if lengthB m =? 1 then (AtCopy, m)
        else if localGallop m <=? nofWinsB m then
          (Galloping true,
           mkMerge (array m) (tempArray m) (dest m) (cursorTemp m) (cursor m) (lengthA m)
             (lengthB m) (localGallop m + 1) (storedGallop m) (nofWinsA m) (nofWinsB m))
        else (OneByOne, m)
  | Galloping firstIteration =>
      if (kMinGallopWins <=? nofWinsA m) || (kMinGallopWins <=? nofWinsB m) || firstIteration
      then
        let minGallop := Z.max 1 (localGallop m - 1) in
        let k :=
          GallopRight (array m) (load (tempArray m) (cursorTemp m)) baseA (lengthA m)
            (lengthA m - 1) in
        let nofWinsA := lengthA m - k in
        let taken := 0 <? nofWinsA in
        let dest1 := if taken then dest m - nofWinsA else dest m in
        let cursor1 := if taken then cursor m - nofWinsA else cursor m in
        let array1 :=
          if taken then Copy (array m) (cursor1 + 1) (array m) (dest1 + 1) nofWinsA
          else array m in
        let lengthA1 := if taken then lengthA m - nofWinsA else lengthA m in
        let m1 := mkMerge array1 (tempArray m) dest1 (cursorTemp m) cursor1 lengthA1
                    (lengthB m) minGallop minGallop nofWinsA (nofWinsB m) in
        if taken && (lengthA1 =? 0) then (AtSucceed, m1)
        else
          let array2 := store array1 dest1 (load (tempArray m) (cursorTemp m)) in
          let dest2 := dest1 - 1 in
          let cursorTemp2 := cursorTemp m - 1 in
          let lengthB2 := lengthB m - 1 in
          let m2 := mkMerge array2 (tempArray m) dest2 cursorTemp2 cursor1 lengthA1 lengthB2
                      minGallop minGallop nofWinsA (nofWinsB m) in
          if lengthB2 =? 1 then (AtCopy, m2)
          else
            let k := GallopLeft (tempArray m) (load array2 cursor1) 0 lengthB2 (lengthB2 - 1) in
            let nofWinsB := lengthB2 - k in
            let taken := 0 <? nofWinsB in
            let dest3 := if taken then dest2 - nofWinsB else dest2 in
            let cursorTemp3 := if taken then cursorTemp2 - nofWinsB else cursorTemp2 in
            let array3 :=
              if taken then Copy (tempArray m) (cursorTemp3 + 1) array2 (dest3 + 1) nofWinsB
              else array2 in
            let lengthB3 := if taken then lengthB2 - nofWinsB else lengthB2 in
            let m3 := mkMerge array3 (tempArray m) dest3 cursorTemp3 cursor1 lengthA1 lengthB3
                        minGallop minGallop nofWinsA nofWinsB in
            if taken && (lengthB3 =? 1) then (AtCopy, m3)
            else if taken && (lengthB3 =? 0) then (AtSucceed, m3)
            else
              let m4 := mkMerge (store array3 dest3 (load array3 cursor1)) (tempArray m)
                          (dest3 - 1) cursorTemp3 (cursor1 - 1) (lengthA1 - 1) lengthB3
                          minGallop minGallop nofWinsA nofWinsB in
              if lengthA1 - 1 =? 0 then (AtSucceed, m4) else (Galloping false, m4)
      else
        (OneByOne,
         mkMerge (array m) (tempArray m) (dest m) (cursorTemp m) (cursor m) (lengthA m)
           (lengthB m) (localGallop m + 1) (localGallop m + 1) 0 0)
  | _ => (phase, m)
  end.

Fixpoint merge_rounds (round : Phase -> Merge -> Phase * Merge) (rounds : nat)
    (phase : Phase) (m : Merge) : Phase * Merge :=
  match rounds with
  | O => (phase, m)
  | S rounds' =>
      match phase with
      | AtSucceed | AtCopy => (phase, m)
      | _ => let '(phase', m') := round phase m in merge_rounds round rounds' phase' m'
      end
  end.

Definition MergeLow (s : SortState) (baseA lengthAArg baseB lengthBArg : Z) : SortState :=
  let temp := take (Z.to_nat lengthAArg) (drop (Z.to_nat baseA) (workArray s)) in
  let work := store (workArray s) baseA (load (workArray s) baseB) in
  let start := mkMerge work temp (baseA + 1) 0 (baseB + 1) lengthAArg (lengthBArg - 1)
                 (minGallop s) (minGallop s) 0 0 in
  let '(phase, m) :=
    if lengthBArg - 1 =? 0 then (AtSucceed, start)
    else if lengthAArg =? 1 then (AtCopy, start)
    else merge_rounds merge_low_round (2 * List.length work + 4) OneByOne start in
  let merged :=
    match phase with
    | AtCopy =>
        store (Copy (array m) (cursor m) (array m) (dest m) (lengthB m))
          (dest m + lengthB m) (load (tempArray m) (cursorTemp m))
    | _ =>
        if 0 <? lengthA m
        then Copy (tempArray m) (cursorTemp m) (array m) (dest m) (lengthA m)
        else array m
    end in
  mkState merged (pendingRuns s) (storedGallop m).

Definition MergeHigh (s : SortState) (baseA lengthAArg baseB lengthBArg : Z) : SortState :=
  let temp := take (Z.to_nat lengthBArg) (drop (Z.to_nat baseB) (workArray s)) in
  let last := baseB + lengthBArg - 1 in
  let cursorA := baseA + lengthAArg - 1 in
  let work := store (workArray s) last (load (workArray s) cursorA) in
  let start := mkMerge work temp (last - 1) (lengthBArg - 1) (cursorA - 1)
                 (lengthAArg - 1) lengthBArg (minGallop s) (minGallop s) 0 0 in
  let '(phase, m) :=
    if lengthAArg - 1 =? 0 then (AtSucceed, start)
    else if lengthBArg =? 1 then (AtCopy, start)
    else merge_rounds (fun phase m => merge_high_round phase m baseA)
           (2 * List.length work + 4) OneByOne start in
  let merged :=
    match phase with
    | AtCopy =>
        let front := dest m - lengthA m in
        let cursorA := cursor m - lengthA m in
        store (Copy (array m) (cursorA + 1) (array m) (front + 1) (lengthA m))
          front (load (tempArray m) (cursorTemp m))
    | _ =>
        if 0 <? lengthB m
        then Copy (tempArray m) 0 (array m) (dest m - (lengthB m - 1)) (lengthB m)
        else array m
    end in
  mkState merged (pendingRuns s) (storedGallop m).

Definition run_at (pendingRuns : list (Z * Z)) (i : Z) : Z * Z :=
  default (0, 0) (pendingRuns !! Z.to_nat i).

Definition GetPendingRunLength (pendingRuns : list (Z * Z)) (i : Z) : Z :=
  (run_at pendingRuns i).2.

Definition MergeAt (s : SortState) (i : Z) : SortState :=
  let pendingRuns := pendingRuns s in
  let stackSize := Z.of_nat (List.length pendingRuns) in
  let '(baseA, lengthA) := run_at pendingRuns i in
  let '(baseB, lengthB) := run_at pendingRuns (i + 1) in
  let pendingRuns := <[Z.to_nat i := (baseA, lengthA + lengthB)]> pendingRuns in
  let pendingRuns :=
    if i =? stackSize - 3
    then <[Z.to_nat (i + 1) := run_at pendingRuns (i + 2)]> pendingRuns
    else pendingRuns in
  let pendingRuns := take (Z.to_nat (stackSize - 1)) pendingRuns in
  let s := mkState (workArray s) pendingRuns (minGallop s) in
  let keyRight := load (workArray s) baseB in
  let k := GallopRight (workArray s) keyRight baseA lengthA 0 in
  let baseA := baseA + k in
  let lengthA := lengthA - k in
  if lengthA =? 0 then s
  else
    let keyLeft := load (workArray s) (baseA + lengthA - 1) in
    let lengthB := GallopLeft (workArray s) keyLeft baseB lengthB (lengthB - 1) in
    if lengthB =? 0 then s
    else if lengthA <=? lengthB then MergeLow s baseA lengthA baseB lengthB
    else MergeHigh s baseA lengthA baseB lengthB.

Definition RunInvariantEstablished (pendingRuns : list (Z * Z)) (n : Z) : bool :=
  if n <? 2 then true
  else
    GetPendingRunLength pendingRuns (n - 1) + GetPendingRunLength pendingRuns n
    <? GetPendingRunLength pendingRuns (n - 2).

Fixpoint MergeCollapse (rounds : nat) (s : SortState) : SortState :=
  match rounds with
  | O => s
  | S rounds' =>
      let pendingRuns := pendingRuns s in
      if 1 <? Z.of_nat (List.length pendingRuns) then
        let n := Z.of_nat (List.length pendingRuns) - 2 in
        if negb (RunInvariantEstablished pendingRuns (n + 1)) ||
           negb (RunInvariantEstablished pendingRuns n)
        then
          let n :=
            if GetPendingRunLength pendingRuns (n - 1) <? GetPendingRunLength pendingRuns (n + 1)
            then n - 1 else n in
          MergeCollapse rounds' (MergeAt s n)
        else if GetPendingRunLength pendingRuns n <=? GetPendingRunLength pendingRuns (n + 1)
        then MergeCollapse rounds' (MergeAt s n)
        else s
      else s
  end.

Fixpoint MergeForceCollapse (rounds : nat) (s : SortState) : SortState :=
  match rounds with
  | O => s
  | S rounds' =>
      let pendingRuns := pendingRuns s in
      if 1 <? Z.of_nat (List.length pendingRuns) then
        let n := Z.of_nat (List.length pendingRuns) - 2 in
        let n :=
          if (0 <? n) &&
             (GetPendingRunLength pendingRuns (n - 1) <? GetPendingRunLength pendingRuns (n + 1))
          then n - 1 else n in
        MergeForceCollapse rounds' (MergeAt s n)
      else s
  end.

Fixpoint min_run (rounds : nat) (n r : Z) : Z :=
  match rounds with
  | O => n + r
  | S rounds' =>
      if 64 <=? n then min_run rounds' (Z.shiftr n 1) (Z.lor r (Z.land n 1)) else n + r
  end.

Definition ComputeMinRunLength (nArg : Z) : Z := min_run (Z.to_nat nArg) nArg 0.

(** The loop [while (remaining != 0)] of [ArrayTimSortImpl]. *)
Fixpoint runs (minRunLength : Z) (rounds : nat) (s : SortState) (low remaining : Z)
  : SortState :=
  match rounds with
  | O => s
  | S rounds' =>
      if remaining =? 0 then s
      else
        let '(currentRunLength, workArray) :=
          CountAndMakeRun (workArray s) low (low + remaining) in
        let '(currentRunLength, workArray) :=
          if currentRunLength <? minRunLength then
            let forcedRunLength := Z.min minRunLength remaining in
            (forcedRunLength,
             BinaryInsertionSort workArray low (low + currentRunLength)
               (low + forcedRunLength))
          else (currentRunLength, workArray) in
        let s := mkState workArray (pendingRuns s ++ [(low, currentRunLength)]) (minGallop s) in
        let s := MergeCollapse (List.length workArray) s in
        runs minRunLength rounds' s (low + currentRunLength) (remaining - currentRunLength)
  end.

Definition ArrayTimSortImpl (elements : list A) : list A :=
  let length := Z.of_nat (List.length elements) in
  if length <? 2 then elements
  else
    let s := runs (ComputeMinRunLength length) (List.length elements)
               (mkState elements [] kMinGallopWins) 0 length in
    workArray (MergeForceCollapse (List.length elements) s).

End TimSort.
End TimSort.

(** [array.sort(comparefn)] *)
Definition js_sort {A} (comparefn : A -> A -> float) (l : list A) : list A :=
  if consistent comparefn l then stable_sort comparefn l
  else
    match l with
    | [] => []
    | filler :: _ => TimSort.ArrayTimSortImpl comparefn filler l
    end.

(** [arr.slice(0, k)] for an integer [k]; a negative [k] counts from the end. *)
Definition slice_to {A} (l : list A) (k : Z) : list A :=
  if k <? 0 then take (Z.to_nat (Z.max (Z.of_nat (length l) + k) 0)) l
  else take (Z.to_nat k) l.

(** The template of one retrieved chunk. *)
Definition format_chunk (s : Scored) : string :=
  "File: " +:+ path (chunk s) +:+ newline +:+
  "Content:" +:+ newline +:+ content (chunk s) +:+ newline.

Definition delimiter : string := newline +:+ "---" +:+ newline.

(** [Agent.retrieveContext(query, k)] *)
Definition retrieveContext (this : Agent) (query : string) (k : Z) : string :=
  match index this, embeddings this with
  | [], _ => ""
  | _ :: _, None => ""
  | first :: _, Some embedQuery =>
      match embedding first with
      | None => ""
      | Some _ =>
          match embedQuery query with
          | Throw _ => ""
          | Ok queryEmbedding =>
              let scored := map (score_chunk queryEmbedding) (index this) in
              let sorted := js_sort by_score_desc scored in
              join delimiter (map format_chunk (slice_to sorted k))
          end
      end
  end.

(** ** The agent loop *)

(** The records [runStream] yields, before [JSON.stringify]: the constructor
    is the [type] field. *)
Inductive Event : Type :=
  | tool_start (tools : list string)
  | tool_result (tool result : string)
  | message (content : string)
  | error (content : string).

(** [final-message] and [error] are the terminal events. *)
Definition terminal (e : Event) : bool :=
  match e with
  | message _ | error _ => true
  | _ => false
  end.

(** What a run works on: the files the tools touch, the transcript
    [currentMessages], and what was yielded so far.  [invocations] counts the
    calls of [modelWithTools.invoke]; the code keeps no such counter. *)
Record World : Type := mkWorld {
  files : FileSystem;
  currentMessages : list Message;
  yielded : list Event;
  invocations : nat
}.

Definition system_prompt (context : string) : string :=
  "You are a skilled software engineer agent.
            You have access to tools to read, write, and list files.
            You also have context from the codebase provided below.

            When asked to create or modify code, first understand the codebase context, then plan your changes, and finally use the tools to apply them.

            Codebase Context:
            " +:+ context +:+ "
            ".

(** [currentMessages.push(m)] *)
Definition push (m : Message) : M World unit :=
  modify (fun w => mkWorld (files w) (currentMessages w ++ [m]) (yielded w) (invocations w)).

(** [yield JSON.stringify(e) + newline] *)
Definition yield (e : Event) : M World unit :=
  modify (fun w => mkWorld (files w) (currentMessages w) (yielded w ++ [e]) (invocations w)).

(** [await tool.func(args)] *)
Definition await_tool (tool : ToolDef) (args : JsVal) : M World string :=
  fun w =>
    let '(r, fs') := func tool args (files w) in
    (r, mkWorld fs' (currentMessages w) (yielded w) (invocations w)).

(** [await modelWithTools.invoke(currentMessages)] *)
Definition invoke (this : Agent) : M World AIMessage :=
  fun w =>
    (llm this (currentMessages w),
     mkWorld (files w) (currentMessages w) (yielded w) (S (invocations w))).

(** [toolCall.id || "unknown"]: an absent id and the empty string are falsy. *)
Definition id_or_unknown (id : option string) : string :=
  match id with
  | Some s => if String.eqb s "" then "unknown" else s
  | None => "unknown"
  end.

Definition not_found : string := "Error: Tool not found".

(** The body of [for (const toolCall of response.tool_calls)]. *)
Definition tool_call_step (toolCall : ToolCall) : M World unit :=
  match find_tool (tc_name toolCall) with
  | Some tool =>
      (result <- await_tool tool (tc_args toolCall) ;;
       yield (tool_result (name tool) result) ;;;
       push (ToolMessage (id_or_unknown (tc_id toolCall)) result))%js
  | None =>
      push (ToolMessage (id_or_unknown (tc_id toolCall)) not_found)
  end.

Fixpoint for_tool_calls (calls : list ToolCall) : M World unit :=
  match calls with
  | [] => ret tt
  | toolCall :: rest => (tool_call_step toolCall ;;; for_tool_calls rest)%js
  end.

Inductive Flow : Type := Continue | Break.

(** One turn step: the [try] block and its [catch]. *)
Definition turn (this : Agent) : M World Flow :=
  try_catch
    (response <- invoke this ;;
     push (AssistantMessage response) ;;;
     match tool_calls response with
     | Some ((_ :: _) as calls) =>
         (yield (tool_start (map tc_name calls)) ;;;
          for_tool_calls calls ;;;
          ret Continue)
     | _ =>
         (yield (message (ai_content response)) ;;;
          ret Break)
     end)%js
    (fun e => (yield (error e) ;;; ret Break)%js).

Definition maxTurns : nat := 15.

(** [while (turns < maxTurns) { ...; turns++ }], by recursion on the turns
    that remain, [maxTurns - turns]. *)
Fixpoint while_turns (this : Agent) (remaining : nat) : M World unit :=
  match remaining with
  | O => ret tt
  | S remaining' =>
      (flow <- turn this ;;
       match flow with
       | Break => ret tt
       | Continue => while_turns this remaining'
       end)%js
  end.

(** The transcript [runStream] starts from. *)
Definition initial_messages (context : string) (messageHistory : list Message)
    (query : string) : list Message :=
  SystemMessage (system_prompt context) :: messageHistory ++ [HumanMessage query].

(** [Agent.runStream(query, messageHistory)], run to its end on the files
    [fs]: the world it leaves, whose [yielded] is the whole stream. *)
Definition runStream (this : Agent) (query : string) (messageHistory : list Message)
    (fs : FileSystem) : World :=
  let context := retrieveContext this query 5 in
  (while_turns this maxTurns
     (mkWorld fs (initial_messages context messageHistory query) [] 0)).2.

(** *** The console loop [Agent.run] before streaming was added *)

Module Console.

(** No event is yielded; the transcript is [messages]. *)
Definition tool_call_step (toolCall : ToolCall) : M World unit :=
  match find_tool (tc_name toolCall) with
  | Some tool =>
      (result <- await_tool tool (tc_args toolCall) ;;
       push (ToolMessage (id_or_unknown (tc_id toolCall)) result))%js
  | None =>
      push (ToolMessage (id_or_unknown (tc_id toolCall)) not_found)
  end.

Fixpoint for_tool_calls (calls : list ToolCall) : M World unit :=
  match calls with
  | [] => ret tt
  | toolCall :: rest => (tool_call_step toolCall ;;; for_tool_calls rest)%js
  end.

Definition turn (this : Agent) : M World Flow :=
  try_catch
    (response <- invoke this ;;
     push (AssistantMessage response) ;;;
     match tool_calls response with
     | Some ((_ :: _) as calls) => (for_tool_calls calls ;;; ret Continue)
     | _ => ret Break
     end)%js
    (fun _ => ret Break).

Fixpoint while_turns (this : Agent) (remaining : nat) : M World unit :=
  match remaining with
  | O => ret tt
  | S remaining' =>
      (flow <- turn this ;;
       match flow with
       | Break => ret tt
       | Continue => while_turns this remaining'
       end)%js
  end.

Definition run (this : Agent) (query : string) (fs : FileSystem) : World :=
  let context := retrieveContext this query 5 in
  (while_turns this maxTurns (mkWorld fs (initial_messages context [] query) [] 0)).2.

End Console.

(** ** What the properties speak of *)

(** *** Binary64 numbers, in the specification of the primitive floats *)

(** The least exponent of a binary64 number. *)
Abbreviation emin64 := (SpecFloat.emin prec emax).

(** [+0] *)
Definition SFzero : spec_float := S754_zero false.

(** [r] is a non-zero number or an infinity of sign [s]. *)
Definition strictly_signed (s : bool) (r : spec_float) : Prop :=
  match r with
  | S754_finite s' _ _ | S754_infinity s' => s' = s
  | _ => False
  end.

(** [r] has the sign [s] unless it is [NaN]. *)
Definition weakly_signed (s : bool) (r : spec_float) : Prop :=
  match r with
  | S754_finite s' _ _ | S754_infinity s' | S754_zero s' => s' = s
  | S754_nan => True
  end.

(** *** Scores, streams, transcripts and files *)

(** [a] ranks at least as high as [b]. *)
Definition at_least (a b : Scored) : Prop := (score b <=? score a)%float = true.

(** The score is a number. *)
Definition numeric (s : Scored) : Prop := is_nan (score s) = false.

(** The squared norm as the loop sums it: left to right, from [0]. *)
Definition squared_norm (v : list float) : float :=
  fold_left (fun n a => (n + a * a)%float) v 0%float.

(** A component that compares equal to [0]: it is [0] or [-0]. *)
Definition is_zero_component (a : float) : Prop := (a =? 0)%float = true.

(** The stream the specification asks for: its last event is terminal and
    no event before it is. *)
Definition ends_with_one_terminal (events : list Event) : Prop :=
  exists pre t, events = pre ++ [t] /\ terminal t = true /\
                Forall (fun e => terminal e = false) pre.

(** The tool-result message that answers [toolCall]: it carries the call's
    correlation id, and the not-found text when the tool is not registered. *)
Definition answers (toolCall : ToolCall) (m : Message) : Prop :=
  exists text,
    m = ToolMessage (id_or_unknown (tc_id toolCall)) text /\
    (find_tool (tc_name toolCall) = None -> text = not_found).

(** The path [p] names a regular file whose content is [data]. *)
Definition holds (fs : FileSystem) (p data : string) : Prop :=
  exists q, resolve fs p = inr q /\ node_at fs q = Some (File data).

(** [fs'] has everything [fs] has, at the same places. *)
Definition extends (fs fs' : FileSystem) : Prop :=
  cwd fs' = cwd fs /\
  forall q n, node_at fs q = Some n -> node_at fs' q = Some n.

(** No character of [s] is a slash. *)
Definition slash_free (s : string) : Prop :=
  Forall (fun c => is_slash c = false) (list_ascii_of_string s).

(** A name of a directory entry. *)
Definition plain_name (s : string) : Prop :=
  slash_free s /\ s <> EmptyString /\ s <> "." /\ s <> "..".

(** The path [d/base]. *)
Definition child_path (d base : string) : string := d +:+ "/" +:+ base.

(** [p] names the entry [base] of its directory: it is [base] alone,
    [/base], or [d/base] for a [d] that does not end with a slash. *)
Inductive entry_of (base : string) : string -> Prop :=
  | entry_relative : entry_of base base
  | entry_at_root : entry_of base ("/" +:+ base)
  | entry_in (d : string) :
      d <> EmptyString -> last (list_ascii_of_string d) <> Some slash ->
      entry_of base (child_path d base).

(** ** Sample inputs *)

(** A file system with nothing but its root, which is the working directory. *)
Definition empty_fs : FileSystem := mkFS [] ∅.

(** A model that asks for the unregistered tool [search] on every
    invocation, and an agent around it with no index and no embedder. *)
Definition search_call : ToolCall := mkCall (Some "call_1") "search" (VObj []).

Definition stubborn : Agent :=
  mkAgent [] None (fun _ => Ok (mkAI "" (Some [search_call]))).

(** A small project: the directory [/src] with the file [/src/utils.ts]. *)
Definition project_fs : FileSystem :=
  mkFS [] (<[ ["src"; "utils.ts"] := File "export const id = 1" ]> (<[ ["src"] := Dir ]> ∅)).

(** A model that calls two registered tools without arguments. *)
Definition bare_calls : list ToolCall :=
  [mkCall (Some "c1") "read_file" VUndefined; mkCall (Some "c2") "list_files" VUndefined].

Definition careless : Agent :=
  mkAgent [] None (fun _ => Ok (mkAI "" (Some bare_calls))).

(** A model that calls a registered tool without arguments and then the
    unregistered [search]. *)
Definition hasty_calls : list ToolCall :=
  [mkCall (Some "c1") "read_file" VUndefined; mkCall (Some "c2") "search" (VObj [])].

Definition hasty : Agent :=
  mkAgent [] None (fun _ => Ok (mkAI "" (Some hasty_calls))).

(** A model that answers at once. *)
Definition answerer : Agent :=
  mkAgent [] None (fun _ => Ok (mkAI "The function is in utils.ts" None)).

(** A model that first asks for [read_file] on [x.py] and answers once the
    transcript holds a tool result. *)
Definition reader : Agent :=
  mkAgent [] None
    (fun transcript =>
       match last transcript with
       | Some (ToolMessage _ _) => Ok (mkAI "Found it" (Some []))
       | _ => Ok (mkAI "" (Some [mkCall (Some "call_1") "read_file" (VObj [("path", VStr "x.py")])]))
       end).

(** A model whose service is down. *)
Definition unreachable : Agent :=
  mkAgent [] None (fun _ => Throw "fetch failed").

(** An index of three chunks, the second without a vector, and an embedder
    that maps every query to the first axis. *)
Definition mixed_index : list DocumentChunk :=
  [ mkChunk "a.ts" "alpha" (Some [0; 1]%float);
    mkChunk "b.ts" "beta" None;
    mkChunk "c.ts" "gamma" (Some [3; 4]%float) ].

Definition full_index : list DocumentChunk :=
  [ mkChunk "a.ts" "alpha" (Some [0; 1]%float);
    mkChunk "c.ts" "gamma" (Some [3; 4]%float) ].

Definition first_axis : string -> Result (list float) := fun _ => Ok [1; 0]%float.

Definition librarian (chunks : list DocumentChunk) : Agent :=
  mkAgent chunks (Some first_axis) (fun _ => Ok (mkAI "done" None)).

(** ** The text splitter of the indexer *)

(** [SimpleTextSplitter] works on the code units of a string: on their
    number, on slices, and on comparisons with the newline and the space.
    The text is here the list of its code units, whatever their type. *)
Section Splitter.

Context {char : Type} `{EqDecision char}.

(** The code units of the line feed and of the space. *)
Variables (line_feed space : char).

(** [s.length] *)
Definition js_length (s : list char) : Z := Z.of_nat (length s).

(** How [slice] reads an index: a negative one counts from the end, and
    all are brought into [0 .. len]. *)
Definition clamp_index (len i : Z) : Z :=
  if i <? 0 then Z.max (len + i) 0 else Z.min i len.

(** [s.slice(from, to)] *)
Definition js_slice (s : list char) (from to : Z) : list char :=
  let len := js_length s in
  let a := clamp_index len from in
  let b := clamp_index len to in
  take (Z.to_nat (b - a)) (drop (Z.to_nat a) s).

(** [s.slice(from)] *)
Definition js_slice_from (s : list char) (from : Z) : list char :=
  js_slice s from (js_length s).

(** [sep] is found at the head of [s]. *)
Fixpoint starts_with (sep s : list char) : bool :=
  match sep, s with
  | [], _ => true
  | _ :: _, [] => false
  | a :: sep', b :: s' => bool_decide (a = b) && starts_with sep' s'
  end.

(** The scan behind [lastIndexOf]: [i] is the index of the head of [s],
    [found] the last index so far at which [sep] was found. *)
Fixpoint lastIndexOf_from (sep s : list char) (i found : Z) : Z :=
  match s with
  | [] => if starts_with sep [] then i else found
  | _ :: rest =>
      lastIndexOf_from sep rest (i + 1) (if starts_with sep s then i else found)
  end.

(** [s.lastIndexOf(sep)]: the last index at which [sep] occurs, or [-1]. *)
Definition lastIndexOf (s sep : list char) : Z := lastIndexOf_from sep s 0 (-1).

(** [['\n\n', '\n', ' ']], in the order of preference. *)
Definition separators : list (list char) :=
  [[line_feed; line_feed]; [line_feed]; [space]].

(** The [for (const sep of separators)] loop: the index right after the
    last occurrence of the first separator that lies beyond half the
    overlap, or [-1]. *)
Fixpoint find_split (chunkOverlap : Z) (slice : list char) (seps : list (list char)) : Z :=
  match seps with
  | [] => -1
  | sep :: rest =>
      let lastSepIndex := lastIndexOf slice sep in
      if negb (lastSepIndex =? -1) && (chunkOverlap <? 2 * lastSepIndex)
      then lastSepIndex + js_length sep
      else find_split chunkOverlap slice rest
  end.

(** The [while (startIndex < text.length)] loop.  [startIndex] grows by one
    at least in every round, so [fuel] rounds are enough as soon as [fuel] is
    the number of code units from [startIndex] on. *)
Fixpoint split_loop (chunkSize chunkOverlap : Z) (text : list char)
    (fuel : nat) (startIndex : Z) : list (list char) :=
  match fuel with
  | O => []
  | S fuel' =>
      if startIndex <? js_length text then
        let endIndex := startIndex + chunkSize in
        if js_length text <=? endIndex then [js_slice_from text startIndex]
        else
          let slice := js_slice text startIndex endIndex in
          let splitIndex := find_split chunkOverlap slice separators in
          let endIndex := if splitIndex =? -1 then endIndex else startIndex + splitIndex in
          let nextStartIndex := endIndex - chunkOverlap in
          let startIndex' := Z.max (startIndex + 1) nextStartIndex in
          js_slice text startIndex endIndex ::
          split_loop chunkSize chunkOverlap text fuel'
            (if startIndex' <? 0 then 0 else startIndex')
      else []
  end.

(** [new SimpleTextSplitter(chunkSize, chunkOverlap).splitText(text)] *)
Definition splitText (chunkSize chunkOverlap : Z) (text : list char) : list (list char) :=
  match text with
  | [] => []
  | _ => split_loop chunkSize chunkOverlap text (length text) 0
  end.

End Splitter.

(** Spans [(start, end)] that tile a text of [len] code units from [from]
    on: each is at most [size] wide, the last one ends with the text, and
    each starts within the one before or right at its end, at most
    [overlap] code units before it. *)
Inductive tiles (size overlap len : Z) : Z -> list (Z * Z) -> Prop :=
  | tiles_last (s : Z) :
      0 <= s < len -> len - s <= size -> tiles size overlap len s [(s, len)]
  | tiles_cons (s e s' : Z) (rest : list (Z * Z)) :
      0 <= s < e -> e - s <= size -> e < len ->
      s < s' -> e - overlap <= s' <= e ->
      tiles size overlap len s' rest ->
      tiles size overlap len s ((s, e) :: rest).

(** The text of a string. *)
Definition code_units (s : string) : list ascii := list_ascii_of_string s.
(** A chunk that was cut at a separator, or is as long as a chunk may be. *)
Definition cut_well {char : Type} (line_feed space : char) (chunkSize : Z)
    (c : list char) : Prop :=
  js_length c = chunkSize \/
  exists sep front, In sep (separators line_feed space) /\ c = front ++ sep.

(** The line feed, as a character. *)
Definition lf : ascii := ascii_of_nat 10.

Definition sample_text : list ascii :=
  code_units "hello world, this is a test of the splitter".

(** An index whose vectors have two components, behind an embedder that
    gives three. *)
Definition three_axes : string -> Result (list float) := fun _ => Ok [1; 0; 0]%float.

Definition outdated : Agent :=
  mkAgent full_index (Some three_axes) (fun _ => Ok (mkAI "done" None)).

(** An index of which only the second chunk was embedded by the present
    embedder. *)
Definition ragged_index : list DocumentChunk :=
  [ mkChunk "a.ts" "alpha" (Some [0; 1]%float);
    mkChunk "c.ts" "gamma" (Some [1; 0; 0]%float) ].

Definition ragged : Agent :=
  mkAgent ragged_index (Some three_axes) (fun _ => Ok (mkAI "done" None)).

(** An index of four chunks behind [first_axis]: the second has no vector,
    the vector of the third is too short. *)
Definition gapped_index : list DocumentChunk :=
  [ mkChunk "a.ts" "alpha" (Some [1; 0]%float);
    mkChunk "b.ts" "beta" None;
    mkChunk "n.ts" "nu" (Some [1]%float);
    mkChunk "c.ts" "gamma" (Some [2; 0]%float) ].

(** The block of a chunk in the context, and the line between two blocks,
    character by character. *)
Definition block (filePath text : string) : string :=
  "File: " +:+ filePath +:+ String "010" ("Content:" +:+ String "010" (text +:+ String "010" "")).

Definition dashes : string := String "010" ("---" +:+ String "010" "").

(** ** The embedding loop of the indexer *)

Definition batchSize : nat := 50.

(** [batch.forEach((chunk, idx) => { chunk.embedding = vectors[idx] })]: the
    chunks of the batch are the objects of [chunks], and [vectors[idx]] is
    [undefined] past the end of [vectors]. *)
Definition assign_vectors (vectors : list (list float)) (batch : list DocumentChunk)
  : list DocumentChunk :=
  imap (fun idx chunk => mkChunk (path chunk) (content chunk) (vectors !! idx)) batch.

(** The loop [for (let i = 0; i < chunks.length; i += batchSize)] of
    [indexCodebase], from the index [i] on.  The embedder is a remote service:
    a computation over a store [S] of its own, which may throw.  The round
    for one batch is a [try] block whose [catch] only logs. *)
Fixpoint embed_loop {S} (embedDocuments : list string -> M S (list (list float)))
    (fuel i : nat) (chunks : list DocumentChunk) : M S (list DocumentChunk) :=
  match fuel with
  | O => ret chunks
  | Datatypes.S fuel' =>
      if (i <? length chunks)%nat then
        let batch := take batchSize (drop i chunks) in
        (chunks' <- try_catch
           (vectors <- embedDocuments (map content batch) ;;
            ret (take i chunks ++ assign_vectors vectors batch ++
                 drop (i + batchSize) chunks))
           (fun _ => ret chunks) ;;
         embed_loop embedDocuments fuel' (i + batchSize) chunks')%js
      else ret chunks
  end.

(** The whole loop; it takes at most one round per chunk. *)
Definition embed_chunks {S} (embedDocuments : list string -> M S (list (list float)))
    (chunks : list DocumentChunk) : M S (list DocumentChunk) :=
  embed_loop embedDocuments (length chunks) 0 chunks.

(** The chunk carries a vector. *)
Definition has_vector (c : DocumentChunk) : Prop := is_Some (embedding c).

(** An embedder that gives every text the same vector, and one that is down
    for its first call: the store is the number of calls so far. *)
Definition steady : list string -> M nat (list (list float)) :=
  fun texts n => (Ok (map (fun _ => [1; 0]%float) texts), S n).

Definition cold_start : list string -> M nat (list (list float)) :=
  fun texts n =>
    match n with
    | O => (Throw "429 Too Many Requests", 1%nat)
    | _ => steady texts n
    end.

(** Sixty chunks of one file, fresh from the splitter. *)
Definition sixty_chunks : list DocumentChunk :=
  map (fun n => mkChunk "a.ts" (pretty n) None) (seq 0 60).

(** *** What a run may do to the files *)

(** Whatever [m] does, the store it leaves is related by [R] to the one it
    started from. *)
Definition respects {S A} (R : S -> S -> Prop) (m : M S A) : Prop :=
  forall s, R s (m s).2.

Definition same_kind (n n' : Node) : Prop :=
  match n, n' with
  | Dir, Dir | File _, File _ => True
  | _, _ => False
  end.

(** Nothing of [fs] is gone in [fs']: what was a directory is one still,
    what was a file is a file still, with this content or another. *)
Definition keeps (fs fs' : FileSystem) : Prop :=
  cwd fs' = cwd fs /\
  forall q n, node_at fs q = Some n -> exists n', node_at fs' q = Some n' /\ same_kind n n'.

(** The world without its stream. *)
Definition silent (w : World) : World :=
  mkWorld (files w) (currentMessages w) [] (invocations w).

(** A model that lists the directory [src] before it answers. *)
Definition browser : Agent :=
  mkAgent [] None
    (fun transcript =>
       match last transcript with
       | Some (ToolMessage _ _) => Ok (mkAI "There is one file" None)
       | _ => Ok (mkAI "" (Some [mkCall (Some "call_1") "list_files" (VObj [("path", VStr "/src")])]))
       end).

(** ** The command-line wrapper [Agent.run] *)

(** What [run] logs for one chunk of the stream: nothing for an [error]. *)
Definition run_line (e : Event) : option string :=
  match e with
  | message content => Some content
  | tool_start tools => Some ("Using tools: " +:+ join ", " tools)
  | tool_result tool _ => Some ("Tool " +:+ tool +:+ " finished.")
  | error _ => None
  end.

(** [Agent.run(query)], on the files [fs]: the lines it logs, in order. *)
Definition run (this : Agent) (query : string) (fs : FileSystem) : list string :=
  omap run_line (yielded (runStream this query [] fs)).

(** The line that reports an event which is not an error. *)
Inductive logs : Event -> string -> Prop :=
  | logs_message (content : string) : logs (message content) content
  | logs_tool_start (tools : list string) :
      logs (tool_start tools) ("Using tools: " +:+ join ", " tools)
  | logs_tool_result (tool result : string) :
      logs (tool_result tool result) ("Tool " +:+ tool +:+ " finished.").

Definition is_error (e : Event) : bool :=
  match e with
  | error _ => true
  | _ => false
  end.

(** A line that reports on the tools. *)
Definition progress_line (l : string) : Prop :=
  (exists tools, l = "Using tools: " +:+ join ", " tools) \/
  (exists tool, l = "Tool " +:+ tool +:+ " finished.").

(** A message of the assistant or of a tool. *)
Definition appended (m : Message) : Prop :=
  match m with
  | AssistantMessage _ | ToolMessage _ _ => True
  | _ => False
  end.

(** *** The shape of a stream *)

(** The tool is one of [tools]. *)
Definition registered (toolName : string) : bool :=
  match find_tool toolName with
  | Some _ => true
  | None => false
  end.

(** The handler of the call rejects: the tool is registered and the
    arguments cannot be destructured. *)
Definition rejects (toolCall : ToolCall) : bool :=
  registered (tc_name toolCall) && nullish (tc_args toolCall).

Definition result_event (r : string * string) : Event := tool_result r.1 r.2.

(** The events of one turn in which the model calls tools: the names of
    all the tools it calls, then a result for each call of a registered tool,
    in the order of the calls. *)
Definition tool_turn (evs : list Event) : Prop :=
  exists names results,
    names <> [] /\
    evs = tool_start names :: map result_event results /\
    map fst results = List.filter registered names.

(** The events of a turn that a rejecting handler cuts short: the names of
    all the tools called, a result for each call of a registered tool before
    the rejected one, and the error the [catch] yields. *)
Definition rejected_turn (evs : list Event) : Prop :=
  exists before c after results e,
    rejects c = true /\ Forall (fun c => rejects c = false) before /\
    evs = tool_start (map tc_name (before ++ c :: after))
            :: map result_event results ++ [error e] /\
    map fst results = List.filter registered (map tc_name before).

(** * Properties *)

(** ** Binary64 arithmetic: the order, and the sign of a difference *)

(** The comparisons of [SFcompare], case by case. *)
Ltac cmp_cases :=
  repeat match goal with
  | |- context [Z.compare ?a ?b] => destruct (Z.compare_spec a b)
  | |- context [Pos.compare_cont Eq ?a ?b] =>
      change (Pos.compare_cont Eq a b) with (Pos.compare a b);
      destruct (Pos.compare_spec a b)
  | H : context [Z.compare ?a ?b] |- _ => destruct (Z.compare_spec a b)
  | H : context [Pos.compare_cont Eq ?a ?b] |- _ =>
      change (Pos.compare_cont Eq a b) with (Pos.compare a b) in H;
      destruct (Pos.compare_spec a b)
  end.

(** A fact about the order of a few numbers: every shape and sign of
    each, then the exponents and the mantissas. *)
Ltac by_float_cases :=
  repeat match goal with x : spec_float |- _ => destruct x as [?|?| |? ? ?] end;
  simpl; try congruence;
  repeat match goal with s : bool |- _ => destruct s end;
  simpl; try discriminate; try reflexivity;
  cmp_cases; simpl; try discriminate; try reflexivity;
  intros; subst; try lia.

(** [<=] is transitive, and total on numbers. *)
Lemma SFleb_trans (x y z : spec_float) :
  SFleb x y = true -> SFleb y z = true -> SFleb x z = true.
Proof. unfold SFleb. by_float_cases. Qed.

Lemma SFltb_false_leb (x y : spec_float) :
  x <> S754_nan -> y <> S754_nan -> SFltb x y = false -> SFleb y x = true.
Proof. unfold SFltb, SFleb. by_float_cases. Qed.

(** The number of binary digits of a mantissa. *)
Lemma digits2_size p : digits2_pos p = Pos.size p.
Proof. induction p; simpl; congruence. Qed.

Lemma digits2_bounds p : 2 ^ (Zpos (digits2_pos p) - 1) <= Zpos p < 2 ^ Zpos (digits2_pos p).
Proof.
  rewrite digits2_size. split.
  - pose proof (Pos.size_le p) as H.
    apply Pos2Z.pos_le_pos in H. rewrite Pos2Z.inj_pow in H.
    replace (Zpos (Pos.size p)) with (Z.succ (Zpos (Pos.size p) - 1)) in H by lia.
    rewrite Z.pow_succ_r in H by lia. change (Zpos p~0) with (2 * Zpos p) in H. lia.
  - pose proof (Pos.size_gt p) as H.
    apply Pos2Z.pos_lt_pos in H. rewrite Pos2Z.inj_pow in H. exact H.
Qed.

(** Aligning two mantissas on the smaller exponent is exact. *)
Lemma iter_xO_pow m d : Zpos (Pos.iter xO m d) = Zpos m * 2 ^ Zpos d.
Proof.
  revert m. induction d using Pos.peano_ind; intro m.
  - simpl. lia.
  - rewrite Pos.iter_succ.
    change (Zpos (Pos.iter xO m d)~0) with (2 * Zpos (Pos.iter xO m d)). rewrite IHd.
    rewrite Pos2Z.inj_succ, Z.pow_succ_r by lia. lia.
Qed.

Lemma shl_align_value m e e' : e' <= e ->
  Zpos (fst (shl_align m e e')) = Zpos m * 2 ^ (e - e').
Proof.
  intro H. unfold shl_align.
  destruct (e' - e) eqn:E.
  - replace (e - e') with 0 by lia. rewrite Z.pow_0_r. cbn [fst]. lia.
  - lia.
  - cbn [fst]. rewrite iter_xO_pow. f_equal. f_equal. lia.
Qed.

Lemma shl_align_exp m e e' : e' <= e -> snd (shl_align m e e') = e'.
Proof.
  intro H. unfold shl_align. destruct (e' - e) eqn:E; simpl; lia.
Qed.

Lemma shl_align_exp_ge m e e' : e <= e' -> shl_align m e e' = (m, e).
Proof.
  intro H. unfold shl_align. destruct (e' - e) eqn:E; simpl; try reflexivity; lia.
Qed.

(** Shifting a mantissa to the right. *)
Lemma shr_1_m mrs : 0 <= shr_m mrs -> shr_m (shr_1 mrs) = Z.div2 (shr_m mrs).
Proof.
  destruct mrs as [m r s]. simpl.
  destruct m as [|p|p]; try (destruct p); simpl; intros; try reflexivity; lia.
Qed.

Lemma iter_shr_1_m p : forall mrs, 0 <= shr_m mrs ->
  shr_m (SpecFloat.iter_pos shr_1 p mrs) = Z.shiftr (shr_m mrs) (Zpos p).
Proof.
  induction p; intros mrs H; cbn [SpecFloat.iter_pos].
  - assert (H1 : 0 <= shr_m (shr_1 mrs))
      by (rewrite shr_1_m by assumption; rewrite Z.div2_nonneg; assumption).
    rewrite IHp, IHp, shr_1_m
      by (try rewrite IHp by assumption; try apply Z.shiftr_nonneg; assumption).
    rewrite Z.div2_spec, !Z.shiftr_shiftr by lia. f_equal. lia.
  - rewrite IHp, IHp by (try rewrite IHp by assumption; try apply Z.shiftr_nonneg; assumption).
    rewrite !Z.shiftr_shiftr by lia. f_equal. lia.
  - rewrite shr_1_m by assumption. apply Z.div2_spec.
Qed.

(** Rounding a positive mantissa whose exponent is not below the least one
    never gives zero: at most [digits - prec] bits are shifted out. *)
Lemma shr_fexp_pos m e l :
  0 < m -> emin64 <= e ->
  0 < shr_m (fst (shr_fexp prec emax m e l)) /\ emin64 <= snd (shr_fexp prec emax m e l).
Proof.
  intros Hm He. unfold shr_fexp, shr.
  assert (Hrec : shr_m (shr_record_of_loc m l) = m) by (destruct l as [|[]]; reflexivity).
  destruct m as [|p|p]; try lia.
  pose proof (digits2_bounds p) as [Hlo _].
  cbn [Zdigits2]. unfold fexp, SpecFloat.emin, prec, emax in *.
  destruct (Z.max (Zpos (digits2_pos p) + e - 53) (3 - 1024 - 53) - e) as [|n|n] eqn:En;
    cbn [fst snd].
  - rewrite Hrec. lia.
  - rewrite iter_shr_1_m by (rewrite Hrec; lia). rewrite Hrec.
    rewrite Z.shiftr_div_pow2 by lia. split; [|lia].
    apply Z.div_str_pos. split; [apply Z.pow_pos_nonneg; lia|].
    etransitivity; [|exact Hlo]. apply Z.pow_le_mono_r; lia.
  - rewrite Hrec. lia.
Qed.

Lemma round_nearest_even_ge m l : m <= round_nearest_even m l.
Proof. destruct l as [|[]]; simpl; try lia. destruct (Z.even m); lia. Qed.

Lemma binary_round_aux_signed s m e l :
  0 < m -> emin64 <= e -> strictly_signed s (binary_round_aux prec emax s m e l).
Proof.
  intros Hm He. unfold binary_round_aux.
  pose proof (shr_fexp_pos m e l Hm He) as [H1 H2].
  destruct (shr_fexp prec emax m e l) as [mrs' e']. cbn [fst snd] in H1, H2.
  pose proof (round_nearest_even_ge (shr_m mrs') (loc_of_shr_record mrs')) as Hr.
  assert (Hpos : 0 < round_nearest_even (shr_m mrs') (loc_of_shr_record mrs')) by lia.
  pose proof (shr_fexp_pos _ e' loc_Exact Hpos H2) as [H3 H4].
  destruct (shr_fexp prec emax _ e' loc_Exact) as [mrs'' e'']. cbn [fst snd] in H3, H4.
  destruct (shr_m mrs'') as [|q|q]; try lia.
  destruct (e'' <=? emax - prec); reflexivity.
Qed.

Lemma binary_round_signed s m e :
  emin64 <= e -> strictly_signed s (binary_round prec emax s m e).
Proof.
  intro He. unfold binary_round.
  destruct (Z_le_gt_dec e (fexp prec emax (Zpos (digits2_pos m) + e))) as [Hle|Hgt].
  - rewrite shl_align_exp_ge by assumption. apply binary_round_aux_signed; [lia|assumption].
  - pose proof (shl_align_exp m e (fexp prec emax (Zpos (digits2_pos m) + e)) ltac:(lia)) as Hs.
    destruct (shl_align m e _) as [mz ez]. cbn [snd] in Hs. subst ez.
    apply binary_round_aux_signed; [lia|]. unfold fexp. lia.
Qed.

(** Rounding keeps the sign it is given. *)
Lemma binary_round_aux_weak s m e l : weakly_signed s (binary_round_aux prec emax s m e l).
Proof.
  unfold binary_round_aux.
  destruct (shr_fexp prec emax m e l) as [mrs' e'].
  destruct (shr_fexp prec emax _ e' loc_Exact) as [mrs'' e''].
  destruct (shr_m mrs'') as [|q|q]; [reflexivity| |exact I].
  destruct (e'' <=? emax - prec); reflexivity.
Qed.

Lemma binary_round_weak s m e : weakly_signed s (binary_round prec emax s m e).
Proof.
  unfold binary_round. destruct (shl_align m e _) as [mz ez]. apply binary_round_aux_weak.
Qed.

(** The mantissa of a valid number has [prec] digits unless its exponent is
    the least one; so, of two positive numbers, the one of larger exponent is
    the larger. *)
Lemma bounded_inv m e : bounded prec emax m e = true ->
  emin64 <= e /\ Zpos (digits2_pos m) <= prec /\ (emin64 < e -> Zpos (digits2_pos m) = prec).
Proof.
  unfold bounded, canonical_mantissa, fexp, SpecFloat.emin, prec, emax.
  intro H. apply andb_prop in H as [H _]. apply Z.eqb_eq in H. lia.
Qed.

Lemma canonical_lt mx ex my ey :
  bounded prec emax mx ex = true -> bounded prec emax my ey = true ->
  ex < ey -> Zpos mx < Zpos my * 2 ^ (ey - ex).
Proof.
  intros Hx Hy Hlt.
  apply bounded_inv in Hx as (Hx1 & Hx2 & _). apply bounded_inv in Hy as (Hy1 & _ & Hy3).
  pose proof (digits2_bounds mx) as [_ Hmx]. pose proof (digits2_bounds my) as [Hmy _].
  rewrite Hy3 in Hmy by lia.
  assert (Hmx' : Zpos mx < 2 ^ prec).
  { eapply Z.lt_le_trans; [exact Hmx|]. apply Z.pow_le_mono_r; lia. }
  assert (Hp : 2 ^ 1 <= 2 ^ (ey - ex)) by (apply Z.pow_le_mono_r; lia).
  unfold prec in *. change (2 ^ 53) with 9007199254740992 in Hmx'.
  change (2 ^ (53 - 1)) with 4503599627370496 in Hmy. change (2 ^ 1) with 2 in Hp.
  nia.
Qed.

(** The difference of two aligned mantissas, rounded, is negative exactly
    when the integer difference is. *)
Lemma normalize_neg M e : M < 0 -> emin64 <= e ->
  SFltb (binary_normalize prec emax M e false) SFzero = true.
Proof.
  intros HM He. destruct M as [|p|p]; try lia. cbn [binary_normalize].
  pose proof (binary_round_signed true p e He) as H.
  destruct (binary_round prec emax true p e); simpl in H; try contradiction; subst; reflexivity.
Qed.

Lemma normalize_nonneg M e : 0 <= M ->
  SFltb (binary_normalize prec emax M e false) SFzero = false.
Proof.
  intros HM. destruct M as [|p|p]; try lia; cbn [binary_normalize]; [reflexivity|].
  pose proof (binary_round_weak false p e) as H.
  destruct (binary_round prec emax false p e); simpl in H; subst; reflexivity.
Qed.

(** [x - y < 0] exactly when [x < y], for all valid numbers, infinities and
    [NaN] included. *)
Lemma SFsub_ltb_zero x y :
  SpecFloat.valid_binary prec emax x = true -> SpecFloat.valid_binary prec emax y = true ->
  SFltb (SF64sub x y) SFzero = SFltb x y.
Proof.
  intros Vx Vy.
  destruct x as [sx|sx| |sx mx ex], y as [sy|sy| |sy my ey];
    try (repeat match goal with s : bool |- _ => destruct s end; reflexivity).
  cbn [SpecFloat.valid_binary] in Vx, Vy.
  unfold SF64sub, SFsub.
  pose proof (bounded_inv _ _ Vx) as (Hex & _). pose proof (bounded_inv _ _ Vy) as (Hey & _).
  rewrite !shl_align_value by lia.
  set (ez := Z.min ex ey).
  assert (Hez : emin64 <= ez) by (unfold ez; lia).
  assert (Ha : 0 < Zpos mx * 2 ^ (ex - ez))
    by (apply Z.mul_pos_pos; [lia|apply Z.pow_pos_nonneg; unfold ez; lia]).
  assert (Hb : 0 < Zpos my * 2 ^ (ey - ez))
    by (apply Z.mul_pos_pos; [lia|apply Z.pow_pos_nonneg; unfold ez; lia]).
  assert (Hcmp : (ex < ey -> Zpos mx * 2 ^ (ex - ez) < Zpos my * 2 ^ (ey - ez)) /\
                 (ey < ex -> Zpos my * 2 ^ (ey - ez) < Zpos mx * 2 ^ (ex - ez)) /\
                 (ex = ey -> Zpos mx * 2 ^ (ex - ez) = Zpos mx /\
                             Zpos my * 2 ^ (ey - ez) = Zpos my)).
  { unfold ez. split; [|split]; intro H.
    - rewrite Z.min_l by lia. replace (ex - ex) with 0 by lia. rewrite Z.pow_0_r, Z.mul_1_r.
      apply canonical_lt; assumption.
    - rewrite Z.min_r by lia. replace (ey - ey) with 0 by lia. rewrite Z.pow_0_r, Z.mul_1_r.
      apply canonical_lt; assumption.
    - subst. rewrite Z.min_id, Z.sub_diag, Z.pow_0_r. lia. }
  destruct Hcmp as (H1 & H2 & H3).
  unfold SFltb at 2. cbn [SFcompare].
  destruct sx, sy; cbn [cond_Zopp];
    try (rewrite normalize_neg by lia; reflexivity);
    try (rewrite normalize_nonneg by lia; reflexivity);
    change (Pos.compare_cont Eq mx my) with (Pos.compare mx my);
    destruct (Z.compare_spec ex ey) as [E|E|E];
    try destruct (Pos.compare_spec mx my) as [E'|E'|E']; cbn [CompOpp];
    try specialize (H1 E); try specialize (H2 E); try specialize (H3 E);
    try (rewrite normalize_neg by lia; reflexivity);
    try (rewrite normalize_nonneg by lia; reflexivity).
Qed.

Lemma Prim2SF_zero : Prim2SF 0 = SFzero.
Proof. reflexivity. Qed.

(** The sign test of the comparator is the order of the scores. *)
Lemma float_sub_ltb_zero (x y : float) : (x - y <? 0)%float = (x <? y)%float.
Proof.
  rewrite !FloatAxioms.ltb_spec, FloatAxioms.sub_spec, Prim2SF_zero.
  apply SFsub_ltb_zero; apply Prim2SF_valid.
Qed.

Lemma is_nan_spec (x : float) : is_nan x = false <-> Prim2SF x <> S754_nan.
Proof.
  unfold is_nan. rewrite FloatAxioms.eqb_spec. unfold SFeqb.
  destruct (Prim2SF x) as [s|s| |s m e]; simpl.
  - split; [discriminate|reflexivity].
  - destruct s; split; try discriminate; reflexivity.
  - split; [discriminate|congruence].
  - rewrite Z.compare_refl. change (Pos.compare_cont Eq m m) with (Pos.compare m m).
    rewrite Pos.compare_refl. destruct s; split; try discriminate; reflexivity.
Qed.

Lemma float_leb_trans (x y z : float) :
  (x <=? y)%float = true -> (y <=? z)%float = true -> (x <=? z)%float = true.
Proof. rewrite !FloatAxioms.leb_spec. apply SFleb_trans. Qed.

Lemma float_ltb_false_leb (x y : float) :
  is_nan x = false -> is_nan y = false -> (x <? y)%float = false -> (y <=? x)%float = true.
Proof.
  rewrite !is_nan_spec, FloatAxioms.ltb_spec, FloatAxioms.leb_spec.
  apply SFltb_false_leb.
Qed.

Lemma float_ltb_leb (x y : float) : (x <? y)%float = true -> (x <=? y)%float = true.
Proof.
  rewrite FloatAxioms.ltb_spec, FloatAxioms.leb_spec. unfold SFltb, SFleb.
  destruct (SFcompare (Prim2SF x) (Prim2SF y)) as [[]|]; congruence.
Qed.

Lemma SFltb_trans (x y z : spec_float) :
  SFltb x y = true -> SFltb y z = true -> SFltb x z = true.
Proof. unfold SFltb. by_float_cases. Qed.

Lemma SFleb_not_ltb (x y : spec_float) : SFleb x y = true -> SFltb y x = false.
Proof. unfold SFleb, SFltb. by_float_cases. Qed.

Lemma float_ltb_trans (x y z : float) :
  (x <? y)%float = true -> (y <? z)%float = true -> (x <? z)%float = true.
Proof. rewrite !FloatAxioms.ltb_spec. apply SFltb_trans. Qed.

Lemma float_leb_not_ltb (x y : float) : (x <=? y)%float = true -> (y <? x)%float = false.
Proof. rewrite FloatAxioms.ltb_spec, FloatAxioms.leb_spec. apply SFleb_not_ltb. Qed.

Lemma float_ltb_irrefl (x : float) : (x <? x)%float = false.
Proof.
  rewrite FloatAxioms.ltb_spec. unfold SFltb.
  destruct (Prim2SF x) as [s|s| |s m e]; simpl; try (destruct s; reflexivity); try reflexivity.
  rewrite Z.compare_refl. change (Pos.compare_cont Eq m m) with (Pos.compare m m).
  rewrite Pos.compare_refl. destruct s; reflexivity.
Qed.

Lemma is_nan_true (x : float) : is_nan x = true -> x = nan.
Proof.
  intro H. destruct (Prim2SF x) as [s|s| |s m e] eqn:E.
  - assert (Hn : is_nan x = false) by (apply is_nan_spec; congruence). congruence.
  - assert (Hn : is_nan x = false) by (apply is_nan_spec; congruence). congruence.
  - rewrite <- (SF2Prim_Prim2SF x), E. reflexivity.
  - assert (Hn : is_nan x = false) by (apply is_nan_spec; congruence). congruence.
Qed.

(** Multiplication commutes. *)
Lemma SFmul_comm x y : SF64mul x y = SF64mul y x.
Proof.
  unfold SF64mul, SFmul.
  destruct x as [sx|sx| |sx mx ex], y as [sy|sy| |sy my ey]; try reflexivity;
    rewrite ?(xorb_comm sx sy); try reflexivity.
  rewrite (Pos.mul_comm mx my), (Z.add_comm ex ey). reflexivity.
Qed.

Lemma float_mul_comm (x y : float) : (x * y = y * x)%float.
Proof. apply Prim2SF_inj. rewrite !FloatAxioms.mul_spec. apply SFmul_comm. Qed.

(** A number that compares equal to [0] is [0] or [-0]. *)
Lemma float_eqb_zero_inv (x : float) : (x =? 0)%float = true -> x = 0%float \/ x = (-0)%float.
Proof.
  rewrite FloatAxioms.eqb_spec, Prim2SF_zero. unfold SFeqb. intro H.
  rewrite <- (SF2Prim_Prim2SF x).
  destruct (Prim2SF x) as [s|s| |s m e]; simpl in H.
  - destruct s; [right|left]; reflexivity.
  - destruct s; discriminate.
  - discriminate.
  - destruct s; discriminate.
Qed.

(** ** Sorting by descending score *)

Lemma by_score_desc_neg (pivot e : Scored) :
  (by_score_desc pivot e <? 0)%float = (score e <? score pivot)%float.
Proof. apply float_sub_ltb_zero. Qed.

Lemma precedes_by_score (a b : Scored) :
  precedes by_score_desc a b = (score b <? score a)%float.
Proof. apply by_score_desc_neg. Qed.

Lemma insert_pivot_perm {A} (comparefn : A -> A -> float) (pivot : A) (l : list A) :
  Permutation (insert_pivot comparefn pivot l) (pivot :: l).
Proof.
  induction l as [|e rest IH]; cbn [insert_pivot]; [reflexivity|].
  destruct (comparefn pivot e <? 0)%float; [reflexivity|].
  rewrite IH. apply perm_swap.
Qed.

Lemma fold_insert_perm {A} (comparefn : A -> A -> float) (l sorted : list A) :
  Permutation (fold_left (fun s pivot => insert_pivot comparefn pivot s) l sorted) (sorted ++ l).
Proof.
  revert sorted. induction l as [|x l IH]; intro sorted; cbn [fold_left].
  - rewrite app_nil_r. reflexivity.
  - rewrite IH, insert_pivot_perm. apply Permutation_middle.
Qed.

Lemma stable_sort_perm {A} (comparefn : A -> A -> float) (l : list A) :
  Permutation (stable_sort comparefn l) l.
Proof. unfold stable_sort. rewrite fold_insert_perm. reflexivity. Qed.

(** Where the comparator is consistent the sort is the stable one. *)
Lemma js_sort_consistent {A} (comparefn : A -> A -> float) (l : list A) :
  consistent comparefn l = true -> js_sort comparefn l = stable_sort comparefn l.
Proof. intro H. unfold js_sort. rewrite H. reflexivity. Qed.

(** A comparator is consistent on a list as soon as [precedes] is the strict
    part of a total preorder on a set that holds its elements. *)
Lemma consistent_intro {A} (comparefn : A -> A -> float) (P : A -> Prop) (l : list A) :
  (forall a, P a -> precedes comparefn a a = false) ->
  (forall a b c, P a -> P b -> P c ->
     precedes comparefn a b = true -> precedes comparefn b c = true ->
     precedes comparefn a c = true) ->
  (forall a b c, P a -> P b -> P c ->
     precedes comparefn a b = false -> precedes comparefn b c = false ->
     precedes comparefn a c = false) ->
  Forall P l -> consistent comparefn l = true.
Proof.
  intros Hirr Htrans Hneg Hl. rewrite Forall_forall in Hl.
  assert (HP : forall x, In x l -> P x) by (intros x Hx; apply Hl, list_elem_of_In, Hx).
  unfold consistent. apply forallb_forall. intros a Ha.
  rewrite (Hirr a (HP a Ha)). cbn [negb andb].
  apply forallb_forall. intros b Hb. apply forallb_forall. intros c Hc.
  pose proof (Htrans a b c (HP a Ha) (HP b Hb) (HP c Hc)) as Ht.
  pose proof (Hneg a b c (HP a Ha) (HP b Hb) (HP c Hc)) as Hn.
  destruct (precedes comparefn a b), (precedes comparefn b c), (precedes comparefn a c);
    cbn; try reflexivity.
  - discriminate (Ht eq_refl eq_refl).
  - discriminate (Hn eq_refl eq_refl).
Qed.

(** The comparator of the agent is consistent on scores that are numbers. *)
Lemma numeric_consistent (l : list Scored) :
  Forall numeric l -> consistent by_score_desc l = true.
Proof.
  apply consistent_intro.
  - intros a _. rewrite precedes_by_score. apply float_ltb_irrefl.
  - intros a b c _ _ _. rewrite !precedes_by_score. intros H1 H2.
    eapply float_ltb_trans; eassumption.
  - intros a b c Ha Hb Hc. rewrite !precedes_by_score. intros H1 H2.
    apply float_leb_not_ltb.
    apply (float_leb_trans _ (score b)).
    + apply float_ltb_false_leb; [exact Hb|exact Ha|exact H1].
    + apply float_ltb_false_leb; [exact Hc|exact Hb|exact H2].
Qed.

(** It is consistent as well when no score is a number: it then holds all
    elements equal. *)
Lemma nan_consistent (l : list Scored) :
  Forall (fun s => is_nan (score s) = true) l -> consistent by_score_desc l = true.
Proof.
  assert (Hnan : forall a b : Scored, is_nan (score a) = true -> precedes by_score_desc a b = false).
  { intros a b Ha. rewrite precedes_by_score. apply is_nan_true in Ha. rewrite Ha.
    rewrite FloatAxioms.ltb_spec. change (Prim2SF nan) with S754_nan.
    unfold SFltb. destruct (Prim2SF (score b)); reflexivity. }
  apply consistent_intro.
  - intros a Ha. apply Hnan, Ha.
  - intros a b c Ha _ _ H. rewrite (Hnan a b Ha) in H. discriminate H.
  - intros a b c Ha _ _ _ _. apply Hnan, Ha.
Qed.

Lemma js_sort_perm (l : list Scored) :
  Forall numeric l -> Permutation (js_sort by_score_desc l) l.
Proof.
  intro H. rewrite (js_sort_consistent _ _ (numeric_consistent l H)).
  apply stable_sort_perm.
Qed.

Lemma insert_pivot_sorted (pivot : Scored) (l : list Scored) :
  numeric pivot -> Forall numeric l -> StronglySorted at_least l ->
  StronglySorted at_least (insert_pivot by_score_desc pivot l).
Proof.
  intros Hp Hl Hs. induction Hs as [|e rest Hs IH Hall]; cbn [insert_pivot].
  - repeat constructor.
  - apply Forall_cons in Hl as [He Hrest].
    rewrite by_score_desc_neg.
    destruct (score e <? score pivot)%float eqn:E.
    + constructor; [constructor; assumption|].
      constructor; [apply float_ltb_leb; exact E|].
      eapply Forall_impl; [exact Hall|]. intros r Hr. unfold at_least in *.
      eapply float_leb_trans; [exact Hr|]. apply float_ltb_leb; exact E.
    + constructor; [apply IH; exact Hrest|].
      rewrite insert_pivot_perm. constructor; [|exact Hall].
      apply float_ltb_false_leb; assumption.
Qed.

Lemma fold_insert_sorted (l sorted : list Scored) :
  Forall numeric l -> Forall numeric sorted -> StronglySorted at_least sorted ->
  StronglySorted at_least
    (fold_left (fun s pivot => insert_pivot by_score_desc pivot s) l sorted).
Proof.
  revert sorted. induction l as [|x l IH]; intros sorted Hl Hn Hs; cbn [fold_left]; [exact Hs|].
  apply Forall_cons in Hl as [Hx Hl].
  apply IH; [exact Hl| |apply insert_pivot_sorted; assumption].
  rewrite insert_pivot_perm. constructor; assumption.
Qed.

Lemma js_sort_sorted (l : list Scored) :
  Forall numeric l -> StronglySorted at_least (js_sort by_score_desc l).
Proof.
  intro H. rewrite (js_sort_consistent _ _ (numeric_consistent l H)).
  apply fold_insert_sorted; [exact H|constructor|constructor].
Qed.

Lemma sorted_app_inv (l1 l2 : list Scored) :
  StronglySorted at_least (l1 ++ l2) ->
  StronglySorted at_least l1 /\
  (forall t o, In t l1 -> In o l2 -> at_least t o).
Proof.
  induction l1 as [|x l1 IH]; cbn [app]; intro H.
  - split; [constructor|]. intros t o [].
  - inversion H as [|? ? Hs Hall]; subst. destruct (IH Hs) as [IH1 IH2].
    rewrite Forall_app in Hall. destruct Hall as [Ha1 Ha2]. split.
    + constructor; assumption.
    + intros t o [<-|Ht] Ho.
      * rewrite Forall_forall in Ha2. apply Ha2. apply list_elem_of_In. exact Ho.
      * apply IH2; assumption.
Qed.

(** ** Retrieval *)

Lemma slice_to_take {A} (l : list A) (k : Z) : 0 <= k -> slice_to l k = take (Z.to_nat k) l.
Proof. intro H. unfold slice_to. destruct (Z.ltb_spec k 0); [lia|reflexivity]. Qed.

Lemma sorted_lookup (l : list Scored) :
  StronglySorted at_least l ->
  forall i j a b, l !! i = Some a -> l !! j = Some b -> (i < j)%nat -> at_least a b.
Proof.
  induction 1 as [|x l Hs IH Hall]; intros i j a b Hi Hj Hlt.
  - rewrite lookup_nil in Hi. discriminate.
  - destruct j as [|j]; [lia|]. cbn in Hj. destruct i as [|i]; cbn in Hi.
    + injection Hi as <-. rewrite Forall_forall in Hall. apply Hall.
      eapply list_elem_of_lookup_2. exact Hj.
    + eapply IH; [exact Hi|exact Hj|lia].
Qed.

(** What [retrieveContext] computes once the guards are passed and the query
    is embedded. *)
Lemma retrieveContext_scored (this : Agent) (query : string) (k : Z)
    embedQuery (q : list float) first rest v :
  embeddings this = Some embedQuery -> embedQuery query = Ok q ->
  index this = first :: rest -> embedding first = Some v ->
  retrieveContext this query k =
  join delimiter (map format_chunk
    (slice_to (js_sort by_score_desc (map (score_chunk q) (index this))) k)).
Proof.
  intros He Hq Hi Hv. unfold retrieveContext. rewrite Hi, He, Hv, Hq. reflexivity.
Qed.

(** C5: [retrieveContext] returns the empty string, and throws nothing,
    whenever the index is empty, no embedder is configured, the chunks of the
    index carry no vectors, or embedding the query fails; [runStream] then
    goes on into its loop with an empty context. *)
Theorem retrieveContext_degrades_to_empty (this : Agent) (query : string) (k : Z) :
  index this = [] \/
  embeddings this = None \/
  Forall (fun c => embedding c = None) (index this) \/
  (exists embedQuery e, embeddings this = Some embedQuery /\ embedQuery query = Throw e) ->
  retrieveContext this query k = EmptyString /\
  (retrieveContext this query 5 = EmptyString /\
   forall messageHistory fs,
     runStream this query messageHistory fs =
     (while_turns this maxTurns
        (mkWorld fs (initial_messages EmptyString messageHistory query) [] 0)).2).
Proof.
  intro H.
  assert (E : forall k', retrieveContext this query k' = EmptyString).
  { intro k'. unfold retrieveContext.
    destruct (index this) as [|first rest]; [reflexivity|].
    destruct (embeddings this) as [embedQuery|]; [|reflexivity].
    destruct H as [H|[H|[H|(eq' & e & H1 & H2)]]]; try discriminate.
    - apply Forall_cons in H as [-> _]. reflexivity.
    - injection H1 as ->. destruct (embedding first); [|reflexivity].
      rewrite H2. reflexivity. }
  split; [apply E|]. split; [apply E|].
  intros messageHistory fs. unfold runStream. rewrite E. reflexivity.
Qed.

(** The blob is pinned character by character. *)
Lemma format_chunk_block (s : Scored) :
  format_chunk s = block (path (chunk s)) (content (chunk s)).
Proof. reflexivity. Qed.

Lemma join_cons (sep x y : string) (l : list string) :
  join sep (x :: y :: l) = x +:+ sep +:+ join sep (y :: l).
Proof. reflexivity. Qed.

(** C6: over a non-empty index whose chunks all carry vectors, with the
    query embedded, every similarity a number and [k] not negative,
    [retrieveContext] returns the [min k (size of the index)] chunks of
    highest cosine similarity: they are in descending order of similarity and
    no chunk left out scores higher than one returned.  The result is one
    blob: for each of these chunks the lines [File: <path>], [Content:] and
    the content, a line feed after each, and a line of three dashes between
    two chunks.  So five results asked of an index of two chunks are at most
    two. *)
Theorem retrieveContext_top_k (this : Agent) (query : string) (k : Z)
    (embedQuery : string -> Result (list float)) (q : list float) :
  index this <> [] ->
  embeddings this = Some embedQuery ->
  embedQuery query = Ok q ->
  Forall (fun c => is_Some (embedding c)) (index this) ->
  Forall (fun c => is_nan (score (score_chunk q c)) = false) (index this) ->
  0 <= k ->
  exists top rest : list Scored,
    Permutation (top ++ rest) (map (score_chunk q) (index this)) /\
    length top = Nat.min (Z.to_nat k) (length (index this)) /\
    Forall (fun s => exists e,
              embedding (chunk s) = Some e /\ score s = cosineSimilarity q e) top /\
    StronglySorted at_least top /\
    (forall t o, In t top -> In o rest -> at_least t o) /\
    retrieveContext this query k = join delimiter (map format_chunk top) /\
    (k = 5 -> length (index this) = 2%nat -> (length top <= 2)%nat) /\
    (forall s, format_chunk s = block (path (chunk s)) (content (chunk s))) /\
    delimiter = dashes /\
    (forall sep, join sep [] = EmptyString) /\
    (forall sep x, join sep [x] = x) /\
    (forall sep x y l, join sep (x :: y :: l) = x +:+ sep +:+ join sep (y :: l)).
Proof.
  intros Hne He Hq Hvec Hnum Hk.
  destruct (index this) as [|first others] eqn:Hi; [congruence|]. rewrite <- Hi in *.
  assert (Hv : exists v, embedding first = Some v).
  { rewrite Hi in Hvec. apply Forall_cons in Hvec as [[v Hv] _]. exists v. exact Hv. }
  destruct Hv as [v Hv].
  set (scored := map (score_chunk q) (index this)).
  set (sorted := js_sort by_score_desc scored).
  assert (Hn : Forall numeric scored).
  { unfold scored. rewrite Forall_forall in Hnum. apply Forall_forall. intros s Hs.
    apply list_elem_of_In, in_map_iff in Hs as (c & <- & Hc).
    apply Hnum, list_elem_of_In, Hc. }
  pose proof (js_sort_sorted scored Hn) as Hsorted. fold sorted in Hsorted.
  pose proof (js_sort_perm scored Hn) as Hperm. fold sorted in Hperm.
  rewrite <- (take_drop (Z.to_nat k) sorted) in Hsorted.
  apply sorted_app_inv in Hsorted as [Htop Hrest].
  exists (take (Z.to_nat k) sorted), (drop (Z.to_nat k) sorted).
  assert (Hlen : length (take (Z.to_nat k) sorted) = Nat.min (Z.to_nat k) (length (index this))).
  { rewrite length_take. f_equal.
    rewrite (Permutation_length Hperm). unfold scored. apply length_map. }
  split; [rewrite take_drop; exact Hperm|].
  split; [exact Hlen|].
  split.
  { apply Forall_forall. intros s Hs. apply list_elem_of_In in Hs.
    assert (Hin : In s scored).
    { apply (Permutation_in _ Hperm).
      rewrite <- (take_drop (Z.to_nat k) sorted). apply in_or_app. left. exact Hs. }
    apply in_map_iff in Hin as (c & <- & Hc). unfold score_chunk. cbn [chunk score].
    rewrite Forall_forall in Hvec. destruct (Hvec c) as [e Hec]; [apply list_elem_of_In, Hc|].
    exists e. rewrite Hec. split; reflexivity. }
  split; [exact Htop|].
  split; [exact Hrest|].
  split.
  { rewrite (retrieveContext_scored this query k embedQuery q first others v) by assumption.
    rewrite slice_to_take by assumption. reflexivity. }
  split; [intros _ H2; rewrite Hlen, H2; lia|].
  split; [exact format_chunk_block|].
  split; [reflexivity|].
  split; [reflexivity|].
  split; [reflexivity|].
  exact join_cons.
Qed.

(** C6, where a similarity is not a number: the first chunk of [ragged]
    has a vector shorter than the embedding of the query, so its similarity
    is [NaN], and the second has similarity [1]; asked for one chunk,
    [retrieveContext] returns the first. *)
Lemma nan_similarity_is_not_ranked :
  index ragged <> [] /\
  Forall (fun c => is_Some (embedding c)) (index ragged) /\
  embeddings ragged = Some three_axes /\
  three_axes "where is gamma" = Ok [1; 0; 0]%float /\
  map (fun c => score (score_chunk [1; 0; 0]%float c)) (index ragged) = [nan; 1]%float /\
  retrieveContext ragged "where is gamma" 1 = block "a.ts" "alpha".
Proof.
  split; [discriminate|].
  split; [repeat constructor; eexists; reflexivity|].
  split; [reflexivity|]. split; [reflexivity|].
  split; vm_compute; reflexivity.
Qed.

Lemma zero_leb_minus_one : (0 <=? -1)%float = false.
Proof. reflexivity. Qed.

(** C9: only the first chunk is inspected for vectors.  When it has none
    the context is empty, whatever the later chunks carry.  A chunk without
    a vector is scored [-1], a chunk with a vector by its cosine similarity
    to the query.  When the first chunk has a vector and every score is a
    number, the context is made of the first [k] chunks of an arrangement of
    the index in which every chunk without a vector comes after every chunk
    whose similarity is not negative. *)
Theorem first_chunk_gates_retrieval (this : Agent) (query : string) (k : Z) :
  (forall first rest,
     index this = first :: rest -> embedding first = None ->
     retrieveContext this query k = EmptyString) /\
  (forall q c, chunk (score_chunk q c) = c) /\
  (forall q c, embedding c = None -> score (score_chunk q c) = (-1)%float) /\
  (forall q c e,
     embedding c = Some e -> score (score_chunk q c) = cosineSimilarity q e) /\
  (forall embedQuery q first rest v,
     embeddings this = Some embedQuery -> embedQuery query = Ok q ->
     index this = first :: rest -> embedding first = Some v ->
     Forall numeric (map (score_chunk q) (index this)) ->
     exists sorted,
       Permutation sorted (map (score_chunk q) (index this)) /\
       retrieveContext this query k =
         join delimiter (map format_chunk (slice_to sorted k)) /\
       (forall i j a b,
          sorted !! i = Some a -> sorted !! j = Some b ->
          (0 <=? score a)%float = true -> embedding (chunk b) = None ->
          (i < j)%nat)).
Proof.
  split; [|split; [|split; [|split]]].
  - intros first rest Hi Hn. unfold retrieveContext. rewrite Hi, Hn.
    destruct (embeddings this); reflexivity.
  - reflexivity.
  - intros q c Hc. unfold score_chunk. cbn [score]. rewrite Hc. reflexivity.
  - intros q c e Hc. unfold score_chunk. cbn [score]. rewrite Hc. reflexivity.
  - intros embedQuery q first rest v He Hq Hi Hv Hnum.
    exists (js_sort by_score_desc (map (score_chunk q) (index this))).
    set (sorted := js_sort by_score_desc (map (score_chunk q) (index this))).
    pose proof (js_sort_perm _ Hnum) as Hperm. fold sorted in Hperm.
    split; [exact Hperm|]. split.
    + apply (retrieveContext_scored this query k embedQuery q first rest v); assumption.
    + intros i j a b Ha Hb Hpos Hnone.
      assert (Hsb : score b = (-1)%float).
      { assert (Hin : In b (map (score_chunk q) (index this))).
        { apply (Permutation_in _ Hperm).
          apply list_elem_of_In. eapply list_elem_of_lookup_2. exact Hb. }
        apply in_map_iff in Hin as (c & <- & _). cbn [chunk score_chunk] in Hnone.
        unfold score_chunk. cbn [score]. rewrite Hnone. reflexivity. }
      assert (Hsorted : StronglySorted at_least sorted).
      { apply js_sort_sorted. exact Hnum. }
      destruct (Nat.lt_trichotomy i j) as [Hlt|[Heq|Hgt]]; [exact Hlt| |].
      * subst j. rewrite Ha in Hb. injection Hb as ->.
        rewrite Hsb in Hpos. rewrite zero_leb_minus_one in Hpos. discriminate.
      * pose proof (sorted_lookup sorted Hsorted j i b a Hb Ha Hgt) as Hba.
        unfold at_least in Hba. rewrite Hsb in Hba.
        pose proof (float_leb_trans _ _ _ Hpos Hba) as H0.
        rewrite zero_leb_minus_one in H0. discriminate.
Qed.

(** C9, where a similarity is not a number: the scores of [gapped_index]
    are [1], [-1], [NaN] and [1]; the sort leaves the chunks where they are,
    so that, asked for two chunks, [retrieveContext] returns the chunk
    without a vector and leaves out the last, of similarity [1]. *)
Lemma bare_chunk_outranks_a_similar_one :
  embedding <$> head gapped_index = Some (Some [1; 0]%float) /\
  map (fun c => score (score_chunk [1; 0]%float c)) gapped_index
    = [1; -1; nan; 1]%float /\
  map (fun s => path (chunk s))
      (js_sort by_score_desc (map (score_chunk [1; 0]%float) gapped_index))
    = ["a.ts"; "b.ts"; "n.ts"; "c.ts"] /\
  retrieveContext (librarian gapped_index) "where is id" 2
    = block "a.ts" "alpha" +:+ dashes +:+ block "b.ts" "beta".
Proof.
  split; [reflexivity|]. repeat split; vm_compute; reflexivity.
Qed.

(** ** Cosine similarity *)

Lemma accumulate_swap (vecA : list float) :
  forall vecB d na nb, length vecA = length vecB ->
  accumulate vecB vecA (d, nb, na) =
  (let '(d', na', nb') := accumulate vecA vecB (d, na, nb) in (d', nb', na')).
Proof.
  induction vecA as [|a restA IH]; intros [|b restB] d na nb Hlen;
    try discriminate Hlen; [reflexivity|].
  cbn [accumulate hd tl]. rewrite (float_mul_comm b a).
  apply IH. injection Hlen as Hlen. exact Hlen.
Qed.

Lemma cosineSimilarity_sym (vecA vecB : list float) :
  length vecA = length vecB ->
  cosineSimilarity vecA vecB = cosineSimilarity vecB vecA.
Proof.
  intro Hlen. unfold cosineSimilarity.
  rewrite (accumulate_swap vecA vecB 0 0 0 Hlen).
  destruct (accumulate vecA vecB (0, 0, 0)%float) as [[d na] nb].
  rewrite (orb_comm (nb =? 0)%float), (float_mul_comm (sqrt nb)). reflexivity.
Qed.

Lemma square_of_zero (a : float) : is_zero_component a -> (0 + a * a = 0)%float.
Proof. intro H. destruct (float_eqb_zero_inv a H) as [-> | ->]; reflexivity. Qed.

Lemma accumulate_zero_normA (vecA : list float) :
  Forall is_zero_component vecA ->
  forall vecB d nb, exists d' nb', accumulate vecA vecB (d, 0%float, nb) = (d', 0%float, nb').
Proof.
  induction 1 as [|a restA Ha _ IH]; intros vecB d nb; cbn [accumulate].
  - exists d, nb. reflexivity.
  - rewrite (square_of_zero a Ha). apply IH.
Qed.

Lemma cosineSimilarity_zero_l (vecA vecB : list float) :
  Forall is_zero_component vecA -> cosineSimilarity vecA vecB = 0%float.
Proof.
  intro H. unfold cosineSimilarity.
  destruct (accumulate_zero_normA vecA H vecB 0%float 0%float) as (d & nb & ->).
  reflexivity.
Qed.

Lemma accumulate_self (v : list float) :
  forall x, accumulate v v (x, x, x) =
            (fold_left (fun n a => (n + a * a)%float) v x,
             fold_left (fun n a => (n + a * a)%float) v x,
             fold_left (fun n a => (n + a * a)%float) v x).
Proof.
  induction v as [|a v IH]; intro x; [reflexivity|].
  cbn [accumulate hd tl fold_left]. apply IH.
Qed.

(** C7, as the code has it: for two vectors of equal length the similarity
    is the same number in both orders, and it is [0] as soon as one of them
    is a zero vector; of a vector with itself it is [n / (sqrt n * sqrt n)]
    for the squared norm [n] the loop has summed ([0] when that is [0]),
    which rounding lets differ from [1]. *)
Theorem cosineSimilarity_laws (vecA vecB : list float) :
  length vecA = length vecB ->
  cosineSimilarity vecA vecB = cosineSimilarity vecB vecA /\
  (Forall is_zero_component vecA \/ Forall is_zero_component vecB ->
   cosineSimilarity vecA vecB = 0%float) /\
  cosineSimilarity vecA vecA =
    (let n := squared_norm vecA in
     if (n =? 0)%float then 0 else n / (sqrt n * sqrt n))%float.
Proof.
  intro Hlen. split; [apply cosineSimilarity_sym; exact Hlen|]. split.
  - intros [H|H].
    + apply cosineSimilarity_zero_l; exact H.
    + rewrite cosineSimilarity_sym by exact Hlen. apply cosineSimilarity_zero_l; exact H.
  - unfold cosineSimilarity, squared_norm. rewrite accumulate_self.
    cbv zeta. rewrite orb_diag. reflexivity.
Qed.

Lemma cosineSimilarity_laws_witness :
  length [1; 2]%float = length [3; 4]%float /\
  cosineSimilarity [1; 2]%float [3; 4]%float = cosineSimilarity [3; 4]%float [1; 2]%float /\
  cosineSimilarity [3; 4]%float [3; 4]%float = 1%float.
Proof.
  destruct (cosineSimilarity_laws [1; 2]%float [3; 4]%float eq_refl) as (Hsym & _ & _).
  split; [reflexivity|]. split; [exact Hsym|reflexivity].
Defined.

(** C7 fails as stated: the similarity of [[1, 1]] with itself is
    [0.9999999999999998], and that of the non-zero vector [[1e-200]] with
    itself is [0], its squared norm being too small for a binary64 number. *)
Lemma cosineSimilarity_self_is_not_one :
  cosineSimilarity [1; 1]%float [1; 1]%float = 0x1.ffffffffffffep-1%float /\
  (cosineSimilarity [1; 1]%float [1; 1]%float =? 1)%float = false /\
  (0x1.87e92154ef7acp-665 =? 0)%float = false /\
  cosineSimilarity [0x1.87e92154ef7acp-665]%float [0x1.87e92154ef7acp-665]%float = 0%float.
Proof. repeat split; reflexivity. Qed.

(** ** The tool handlers *)

Lemma try_catch_returns {S A} (m : M S A) (f : string -> A) (s : S) :
  exists a s', try_catch m (fun e => ret (f e)) s = (Ok a, s').
Proof.
  unfold try_catch, ret. destruct (m s) as [[a|e] s']; eauto.
Qed.

Lemma destructure_returns {S} (v : JsVal) (key : string) (s : S) :
  nullish v = false -> exists x, destructure v key s = (Ok x, s).
Proof. destruct v; try discriminate; intros _; eexists; reflexivity. Qed.

Lemma destructure_rejects {S} (v : JsVal) (key : string) (s : S) :
  nullish v = true -> destructure v key s = (Throw (cannot_destructure key v), s).
Proof. destruct v; try discriminate; intros _; reflexivity. Qed.

(** A handler ends with a string on every argument that can be
    destructured: its [try] covers all of its body. *)
Lemma func_returns (tool : ToolDef) (args : JsVal) (fs : FileSystem) :
  In tool tools -> nullish args = false ->
  exists result fs', func tool args fs = (Ok result, fs').
Proof.
  intros [<-|[<-|[<-|[]]]] Hargs; cbn [func read_file write_file list_files]; unfold bind;
    destruct (destructure_returns args "path" fs Hargs) as [x ->];
    try (destruct (destructure_returns args "content" fs Hargs) as [y ->]);
    apply try_catch_returns.
Qed.

(** On [undefined] and [null] it rejects, before anything is done. *)
Lemma func_rejects (tool : ToolDef) (args : JsVal) (fs : FileSystem) :
  In tool tools -> nullish args = true ->
  func tool args fs = (Throw (cannot_destructure "path" args), fs).
Proof.
  intros [<-|[<-|[<-|[]]]] Hargs; cbn [func read_file write_file list_files]; unfold bind;
    rewrite (destructure_rejects args "path" fs Hargs); reflexivity.
Qed.

Lemma find_tool_in (toolName : string) (tool : ToolDef) :
  find_tool toolName = Some tool -> In tool tools /\ name tool = toolName.
Proof.
  unfold find_tool. intro H. apply find_some in H as [Hin Heq].
  apply String.eqb_eq in Heq. split; assumption.
Qed.

Lemma find_tool_none (toolName : string) :
  ~ In toolName (map name tools) -> find_tool toolName = None.
Proof.
  intro H. unfold find_tool.
  destruct (find _ tools) as [tool|] eqn:E; [|reflexivity].
  apply find_some in E as [Hin Heq]. apply String.eqb_eq in Heq.
  exfalso. apply H. rewrite <- Heq. apply in_map. exact Hin.
Qed.

Lemma rejects_false (toolCall : ToolCall) :
  rejects toolCall = false <->
  find_tool (tc_name toolCall) = None \/ nullish (tc_args toolCall) = false.
Proof.
  unfold rejects, registered.
  destruct (find_tool (tc_name toolCall)), (nullish (tc_args toolCall)); cbn;
    split; try tauto; try (intros [H|H]; discriminate H); intros; discriminate.
Qed.

Lemma rejects_true (toolCall : ToolCall) :
  rejects toolCall = true <->
  (exists tool, find_tool (tc_name toolCall) = Some tool) /\ nullish (tc_args toolCall) = true.
Proof.
  unfold rejects, registered.
  destruct (find_tool (tc_name toolCall)) as [tool|], (nullish (tc_args toolCall)); cbn;
    split; try (intro H; discriminate H); try (intros [[t H] H']; discriminate); eauto.
Qed.

Lemma unregistered_never_rejects (toolCall : ToolCall) :
  find_tool (tc_name toolCall) = None -> rejects toolCall = false.
Proof. intro H. apply rejects_false. left. exact H. Qed.

(** The calls of a batch up to the first one that is rejected. *)
Lemma first_rejected (calls : list ToolCall) :
  Forall (fun c => rejects c = false) calls \/
  exists before c after,
    calls = before ++ c :: after /\
    Forall (fun c => rejects c = false) before /\ rejects c = true.
Proof.
  induction calls as [|c calls IH]; [left; constructor|].
  destruct (rejects c) eqn:Hc.
  - right. exists [], c, calls. repeat split; [constructor|exact Hc].
  - destruct IH as [IH|(before & c' & after & -> & Hb & Hc')].
    + left. constructor; assumption.
    + right. exists (c :: before), c', after. repeat split; [constructor; assumption|exact Hc'].
Qed.

(** ** One tool call *)

Lemma tool_call_step_registered (toolCall : ToolCall) (tool : ToolDef) (w : World) :
  find_tool (tc_name toolCall) = Some tool -> nullish (tc_args toolCall) = false ->
  exists result fs',
    func tool (tc_args toolCall) (files w) = (Ok result, fs') /\
    tool_call_step toolCall w =
    (Ok tt, mkWorld fs'
              (currentMessages w ++ [ToolMessage (id_or_unknown (tc_id toolCall)) result])
              (yielded w ++ [tool_result (name tool) result])
              (invocations w)).
Proof.
  intros Hfind Hargs. destruct (find_tool_in _ _ Hfind) as [Hin _].
  destruct (func_returns tool (tc_args toolCall) (files w) Hin Hargs) as (result & fs' & Hf).
  exists result, fs'. split; [exact Hf|].
  unfold tool_call_step. rewrite Hfind.
  unfold bind, await_tool. rewrite Hf. reflexivity.
Qed.

Lemma tool_call_step_rejected (toolCall : ToolCall) (tool : ToolDef) (w : World) :
  find_tool (tc_name toolCall) = Some tool -> nullish (tc_args toolCall) = true ->
  func tool (tc_args toolCall) (files w)
  = (Throw (cannot_destructure "path" (tc_args toolCall)), files w) /\
  tool_call_step toolCall w = (Throw (cannot_destructure "path" (tc_args toolCall)), w).
Proof.
  intros Hfind Hargs. destruct (find_tool_in _ _ Hfind) as [Hin _].
  pose proof (func_rejects tool (tc_args toolCall) (files w) Hin Hargs) as Hf.
  split; [exact Hf|].
  unfold tool_call_step. rewrite Hfind.
  unfold bind, await_tool. rewrite Hf. destruct w; reflexivity.
Qed.

Lemma tool_call_step_unregistered (toolCall : ToolCall) (w : World) :
  find_tool (tc_name toolCall) = None ->
  tool_call_step toolCall w =
  (Ok tt, mkWorld (files w)
            (currentMessages w ++ [ToolMessage (id_or_unknown (tc_id toolCall)) not_found])
            (yielded w) (invocations w)).
Proof. intro Hfind. unfold tool_call_step. rewrite Hfind. reflexivity. Qed.

(** What one tool call leaves behind, registered or not, when its handler
    does not reject. *)
Lemma tool_call_step_spec (toolCall : ToolCall) (w : World) :
  rejects toolCall = false ->
  exists w' m evs,
    tool_call_step toolCall w = (Ok tt, w') /\
    currentMessages w' = currentMessages w ++ [m] /\ answers toolCall m /\
    yielded w' = yielded w ++ evs /\ Forall (fun e => terminal e = false) evs /\
    invocations w' = invocations w.
Proof.
  intro Hok. destruct (find_tool (tc_name toolCall)) as [tool|] eqn:Hfind.
  - assert (Hargs : nullish (tc_args toolCall) = false).
    { apply rejects_false in Hok as [Hnone|Hargs]; [congruence|exact Hargs]. }
    destruct (tool_call_step_registered toolCall tool w Hfind Hargs)
      as (result & fs' & _ & ->).
    eexists _, _, [_]. repeat split; try reflexivity.
    + eexists. split; [reflexivity|]. intro Hnone. congruence.
    + repeat constructor.
  - rewrite (tool_call_step_unregistered toolCall w Hfind).
    eexists _, _, []. cbn [yielded currentMessages invocations]. rewrite app_nil_r.
    repeat split; try reflexivity.
    + eexists. split; reflexivity.
    + constructor.
Qed.

Lemma for_tool_calls_spec (calls : list ToolCall) :
  Forall (fun c => rejects c = false) calls ->
  forall w, exists w' msgs evs,
    for_tool_calls calls w = (Ok tt, w') /\
    currentMessages w' = currentMessages w ++ msgs /\ Forall2 answers calls msgs /\
    yielded w' = yielded w ++ evs /\ Forall (fun e => terminal e = false) evs /\
    invocations w' = invocations w.
Proof.
  induction 1 as [|toolCall rest Hok _ IH]; intro w; cbn [for_tool_calls].
  - exists w, [], []. rewrite !app_nil_r. repeat split; constructor.
  - destruct (tool_call_step_spec toolCall w Hok)
      as (w1 & m & evs1 & Hs & Hm & Ha & Hy & Ht & Hi).
    destruct (IH w1) as (w2 & msgs & evs2 & Hs2 & Hm2 & Ha2 & Hy2 & Ht2 & Hi2).
    exists w2, (m :: msgs), (evs1 ++ evs2).
    unfold bind. rewrite Hs, Hs2. repeat split.
    + rewrite Hm2, Hm, <- app_assoc. reflexivity.
    + constructor; assumption.
    + rewrite Hy2, Hy, <- app_assoc. reflexivity.
    + apply Forall_app; split; assumption.
    + congruence.
Qed.

(** A batch with a call that is rejected stops there: the calls before it
    are answered, the others are not looked at. *)
Lemma for_tool_calls_rejected (before after : list ToolCall) (c : ToolCall) :
  Forall (fun c => rejects c = false) before -> rejects c = true ->
  forall w, exists w' msgs evs,
    for_tool_calls (before ++ c :: after) w
    = (Throw (cannot_destructure "path" (tc_args c)), w') /\
    currentMessages w' = currentMessages w ++ msgs /\ Forall2 answers before msgs /\
    yielded w' = yielded w ++ evs /\ Forall (fun e => terminal e = false) evs /\
    invocations w' = invocations w /\
    for_tool_calls before w = (Ok tt, w').
Proof.
  intros Hbefore Hc. apply rejects_true in Hc as [[tool Hfind] Hargs].
  induction Hbefore as [|toolCall rest Hok _ IH]; intro w; cbn [app for_tool_calls].
  - exists w, [], []. rewrite !app_nil_r. unfold bind.
    rewrite (proj2 (tool_call_step_rejected c tool w Hfind Hargs)).
    repeat split; constructor.
  - destruct (tool_call_step_spec toolCall w Hok)
      as (w1 & m & evs1 & Hs & Hm & Ha & Hy & Ht & Hi).
    destruct (IH w1) as (w2 & msgs & evs2 & Hs2 & Hm2 & Ha2 & Hy2 & Ht2 & Hi2 & Hb2).
    exists w2, (m :: msgs), (evs1 ++ evs2).
    unfold bind. rewrite Hs. fold (@bind World unit unit). rewrite Hs2, Hb2. repeat split.
    + rewrite Hm2, Hm, <- app_assoc. reflexivity.
    + constructor; assumption.
    + rewrite Hy2, Hy, <- app_assoc. reflexivity.
    + apply Forall_app; split; assumption.
    + congruence.
Qed.

(** ** One turn step *)

Section Loop.

Variable this : Agent.

Lemma turn_throws (w : World) (e : string) :
  llm this (currentMessages w) = Throw e ->
  turn this w =
  (Ok Break, mkWorld (files w) (currentMessages w) (yielded w ++ [error e])
               (S (invocations w))).
Proof. intro H. unfold turn, try_catch, bind, invoke. rewrite H. reflexivity. Qed.

Lemma turn_answers (w : World) (response : AIMessage) :
  llm this (currentMessages w) = Ok response ->
  tool_calls response = None \/ tool_calls response = Some [] ->
  turn this w =
  (Ok Break, mkWorld (files w) (currentMessages w ++ [AssistantMessage response])
               (yielded w ++ [message (ai_content response)])
               (S (invocations w))).
Proof.
  intros H Hc. unfold turn, try_catch, bind, invoke. rewrite H. cbn.
  destruct Hc as [-> | ->]; reflexivity.
Qed.

(** The turn step up to its tool calls. *)
Lemma turn_unfold (w : World) (response : AIMessage) toolCall others :
  llm this (currentMessages w) = Ok response ->
  tool_calls response = Some (toolCall :: others) ->
  turn this w =
  match for_tool_calls (toolCall :: others)
          (mkWorld (files w) (currentMessages w ++ [AssistantMessage response])
             (yielded w ++ [tool_start (map tc_name (toolCall :: others))])
             (S (invocations w))) with
  | (Ok _, w') => (Ok Continue, w')
  | (Throw e, w') =>
      (Ok Break,
       mkWorld (files w') (currentMessages w') (yielded w' ++ [error e]) (invocations w'))
  end.
Proof.
  intros H Hc. unfold turn, try_catch, bind, invoke. rewrite H. cbn [push yield modify].
  rewrite Hc. cbn [currentMessages files yielded invocations].
  destruct (for_tool_calls _ _) as [[[]|e] w']; reflexivity.
Qed.

Lemma turn_calls_tools (w : World) (response : AIMessage) toolCall others :
  llm this (currentMessages w) = Ok response ->
  tool_calls response = Some (toolCall :: others) ->
  Forall (fun c => rejects c = false) (toolCall :: others) ->
  exists w' msgs evs,
    turn this w = (Ok Continue, w') /\
    for_tool_calls (toolCall :: others)
      (mkWorld (files w) (currentMessages w ++ [AssistantMessage response])
         (yielded w ++ [tool_start (map tc_name (toolCall :: others))])
         (S (invocations w))) = (Ok tt, w') /\
    currentMessages w' = currentMessages w ++ AssistantMessage response :: msgs /\
    Forall2 answers (toolCall :: others) msgs /\
    yielded w' = yielded w ++ tool_start (map tc_name (toolCall :: others)) :: evs /\
    Forall (fun e => terminal e = false) evs /\
    invocations w' = S (invocations w).
Proof.
  intros H Hc Hok.
  destruct (for_tool_calls_spec (toolCall :: others) Hok
              (mkWorld (files w) (currentMessages w ++ [AssistantMessage response])
                 (yielded w ++ [tool_start (map tc_name (toolCall :: others))])
                 (S (invocations w))))
    as (w' & msgs & evs & Hf & Hm & Ha & Hy & Ht & Hi).
  exists w', msgs, evs. split; [|split; [exact Hf|]].
  - rewrite (turn_unfold w response toolCall others H Hc), Hf. reflexivity.
  - cbn [currentMessages yielded invocations] in Hm, Hy, Hi.
    rewrite <- !app_assoc in Hm, Hy. repeat split; assumption.
Qed.

(** A turn step with a call that is rejected: the calls before it are
    answered, the [catch] yields the error and ends the loop. *)
Lemma turn_rejected (w : World) (response : AIMessage) before c after :
  llm this (currentMessages w) = Ok response ->
  tool_calls response = Some (before ++ c :: after) ->
  Forall (fun c => rejects c = false) before -> rejects c = true ->
  exists w' msgs evs,
    turn this w = (Ok Break, w') /\
    currentMessages w' = currentMessages w ++ AssistantMessage response :: msgs /\
    Forall2 answers before msgs /\
    yielded w' = yielded w ++ tool_start (map tc_name (before ++ c :: after)) :: evs
                   ++ [error (cannot_destructure "path" (tc_args c))] /\
    Forall (fun e => terminal e = false) evs /\
    invocations w' = S (invocations w) /\
    exists w1,
      for_tool_calls before
        (mkWorld (files w) (currentMessages w ++ [AssistantMessage response])
           (yielded w ++ [tool_start (map tc_name (before ++ c :: after))])
           (S (invocations w))) = (Ok tt, w1) /\
      files w' = files w1 /\ yielded w' = yielded w1 ++ [error (cannot_destructure "path" (tc_args c))].
Proof.
  intros H Hc Hbefore Hrej.
  assert (Hcalls : exists c0 cs, before ++ c :: after = c0 :: cs).
  { destruct before; cbn; eauto. }
  destruct Hcalls as (c0 & cs & Hcs). rewrite Hcs in Hc.
  rewrite (turn_unfold w response c0 cs H Hc). rewrite <- Hcs.
  destruct (for_tool_calls_rejected before after c Hbefore Hrej
              (mkWorld (files w) (currentMessages w ++ [AssistantMessage response])
                 (yielded w ++ [tool_start (map tc_name (before ++ c :: after))])
                 (S (invocations w))))
    as (w1 & msgs & evs & -> & Hm & Ha & Hy & Ht & Hi & Hb).
  cbn [currentMessages yielded invocations] in Hm, Hy, Hi.
  eexists _, msgs, evs. split; [reflexivity|]. cbn [currentMessages yielded invocations files].
  rewrite <- !app_assoc in Hm. rewrite Hy, Hm, Hi, <- !app_assoc. cbn [app].
  repeat split; try assumption.
  exists w1. rewrite Hy, <- !app_assoc. repeat split. exact Hb.
Qed.

(** A turn step ends the loop with one terminal event, the last it yields,
    or lets the loop continue, having yielded no terminal event. *)
Lemma turn_spec (w : World) :
  exists flow w' evs,
    turn this w = (Ok flow, w') /\
    yielded w' = yielded w ++ evs /\
    invocations w' = S (invocations w) /\
    match flow with
    | Break => ends_with_one_terminal evs
    | Continue => Forall (fun e => terminal e = false) evs
    end.
Proof.
  destruct (llm this (currentMessages w)) as [response|e] eqn:H.
  - destruct (tool_calls response) as [[|toolCall others]|] eqn:Hc.
    + rewrite (turn_answers w response H) by (right; exact Hc).
      eexists Break, _, _. repeat split. exists [], (message (ai_content response)).
      repeat split. constructor.
    + destruct (first_rejected (toolCall :: others))
        as [Hok|(before & c & after & Hcs & Hbefore & Hrej)].
      * destruct (turn_calls_tools w response toolCall others H Hc Hok)
          as (w' & msgs & evs & -> & _ & _ & _ & Hy & Ht & Hi).
        exists Continue, w', (tool_start (map tc_name (toolCall :: others)) :: evs).
        repeat split; try assumption. constructor; [reflexivity|exact Ht].
      * rewrite Hcs in Hc.
        destruct (turn_rejected w response before c after H Hc Hbefore Hrej)
          as (w' & msgs & evs & -> & _ & _ & Hy & Ht & Hi & _).
        exists Break, w',
          (tool_start (map tc_name (before ++ c :: after)) :: evs
           ++ [error (cannot_destructure "path" (tc_args c))]).
        split; [reflexivity|]. split; [exact Hy|]. split; [exact Hi|].
        exists (tool_start (map tc_name (before ++ c :: after)) :: evs),
          (error (cannot_destructure "path" (tc_args c))).
        repeat split. constructor; [reflexivity|exact Ht].
    + rewrite (turn_answers w response H) by (left; exact Hc).
      eexists Break, _, _. repeat split. exists [], (message (ai_content response)).
      repeat split. constructor.
  - rewrite (turn_throws w e H).
    eexists Break, _, _. repeat split. exists [], (error e). repeat split. constructor.
Qed.

(** ** The loop *)

Lemma while_turns_spec (remaining : nat) :
  forall w, exists w' evs,
    while_turns this remaining w = (Ok tt, w') /\
    yielded w' = yielded w ++ evs /\
    (invocations w <= invocations w' <= invocations w + remaining)%nat /\
    (ends_with_one_terminal evs \/
     (Forall (fun e => terminal e = false) evs /\
      invocations w' = (invocations w + remaining)%nat)).
Proof.
  induction remaining as [|n IH]; intro w; cbn [while_turns].
  - exists w, []. rewrite app_nil_r. repeat split; try lia.
    right. split; [constructor|lia].
  - destruct (turn_spec w) as (flow & w1 & evs1 & Ht & Hy & Hi & Hflow).
    unfold bind. rewrite Ht. destruct flow.
    + destruct (IH w1) as (w2 & evs2 & Hw & Hy2 & Hi2 & Hend).
      exists w2, (evs1 ++ evs2). rewrite Hw. repeat split; try lia.
      * rewrite Hy2, Hy, <- app_assoc. reflexivity.
      * destruct Hend as [(pre & t & -> & Hterm & Hpre)|[Hnone Hall]].
        -- left. exists (evs1 ++ pre), t. rewrite <- app_assoc.
           repeat split; try assumption. apply Forall_app; split; assumption.
        -- right. split; [apply Forall_app; split; assumption|lia].
    + exists w1, evs1. repeat split; try lia; try assumption.
      left. exact Hflow.
Qed.

Lemma runStream_unfold (query : string) (messageHistory : list Message)
    (fs : FileSystem) :
  exists w evs,
    while_turns this maxTurns
      (mkWorld fs (initial_messages (retrieveContext this query 5) messageHistory query) [] 0)
    = (Ok tt, w) /\
    runStream this query messageHistory fs = w /\
    yielded w = evs /\
    (invocations w <= maxTurns)%nat /\
    (ends_with_one_terminal evs \/
     (Forall (fun e => terminal e = false) evs /\ invocations w = maxTurns)).
Proof.
  destruct (while_turns_spec maxTurns
              (mkWorld fs (initial_messages (retrieveContext this query 5) messageHistory query) [] 0))
    as (w & evs & Hw & Hy & Hi & Hend).
  cbn [yielded invocations] in Hy, Hi, Hend.
  exists w, evs. unfold runStream. rewrite Hw. repeat split; try assumption. lia.
Qed.

Lemma while_turns_always_tools (remaining : nat) :
  (forall msgs, exists r c cs,
     llm this msgs = Ok r /\ tool_calls r = Some (c :: cs) /\
     Forall (fun c => rejects c = false) (c :: cs)) ->
  forall w, exists w' evs,
    while_turns this remaining w = (Ok tt, w') /\
    yielded w' = yielded w ++ evs /\
    Forall (fun e => terminal e = false) evs /\
    invocations w' = (invocations w + remaining)%nat.
Proof.
  intro Halways. induction remaining as [|n IH]; intro w; cbn [while_turns].
  - exists w, []. rewrite app_nil_r. repeat split; [constructor|lia].
  - destruct (Halways (currentMessages w)) as (r & c & cs & Hr & Hc & Hok).
    destruct (turn_calls_tools w r c cs Hr Hc Hok)
      as (w1 & _ & evs1 & Ht & _ & _ & _ & Hy & Hnt & Hi).
    destruct (IH w1) as (w2 & evs2 & Hw & Hy2 & Hnt2 & Hi2).
    exists w2, (tool_start (map tc_name (c :: cs)) :: evs1 ++ evs2).
    unfold bind. rewrite Ht, Hw. repeat split.
    + rewrite Hy2, Hy, <- app_assoc. reflexivity.
    + constructor; [reflexivity|]. apply Forall_app; split; assumption.
    + lia.
Qed.

End Loop.

(** C1, as the code has it: the events of a run end with one terminal event
    (a final message or an error), the only one of the stream, unless the
    turn budget runs out: a run without terminal event has invoked the model
    [maxTurns] times, and a model that answers every invocation with tool
    calls, none of which is rejected by its handler, gives such a run. *)
Theorem runStream_terminal_event (this : Agent) (query : string)
    (messageHistory : list Message) (fs : FileSystem) :
  let w := runStream this query messageHistory fs in
  (ends_with_one_terminal (yielded w) \/
   (Forall (fun e => terminal e = false) (yielded w) /\ invocations w = maxTurns)) /\
  ((forall msgs, exists r c cs,
      llm this msgs = Ok r /\ tool_calls r = Some (c :: cs) /\
      Forall (fun c => rejects c = false) (c :: cs)) ->
   Forall (fun e => terminal e = false) (yielded w) /\ invocations w = maxTurns).
Proof.
  cbv zeta. split.
  - destruct (runStream_unfold this query messageHistory fs)
      as (w & evs & _ & Hr & Hy & _ & Hend).
    rewrite Hr, Hy. exact Hend.
  - intro Halways.
    destruct (while_turns_always_tools this maxTurns Halways
                (mkWorld fs (initial_messages (retrieveContext this query 5) messageHistory query)
                   [] 0)) as (w' & evs & Hw' & Hy' & Hnt & Hi').
    unfold runStream. rewrite Hw'. cbn [snd]. cbn [yielded invocations] in Hy', Hi'.
    rewrite Hy', Hi'. split; [exact Hnt|reflexivity].
Qed.

(** C1 fails as stated: against a model that asks for a tool on every
    invocation the run is fifteen [tool_start] events, the last of which is
    not terminal. *)
Lemma exhausted_budget_has_no_terminal_event :
  yielded (runStream stubborn "where is main" [] empty_fs)
    = repeat (tool_start ["search"]) 15 /\
  ~ ends_with_one_terminal (yielded (runStream stubborn "where is main" [] empty_fs)).
Proof.
  assert (E : yielded (runStream stubborn "where is main" [] empty_fs)
              = repeat (tool_start ["search"]) 14 ++ [tool_start ["search"]])
    by (vm_compute; reflexivity).
  split; [rewrite E; reflexivity|].
  rewrite E. intros (pre & t & H & Ht & _).
  apply app_inj_tail in H as [_ <-]. discriminate Ht.
Qed.

(** C2: a run ends, and it has invoked the model at most fifteen times;
    against a model that answers every invocation with tool calls, none of
    which is rejected by its handler, it stops after exactly fifteen. *)
Theorem runStream_at_most_max_turns (this : Agent) (query : string)
    (messageHistory : list Message) (fs : FileSystem) :
  (exists w,
     while_turns this maxTurns
       (mkWorld fs (initial_messages (retrieveContext this query 5) messageHistory query) [] 0)
     = (Ok tt, w) /\
     runStream this query messageHistory fs = w) /\
  (invocations (runStream this query messageHistory fs) <= 15)%nat /\
  ((forall msgs, exists r c cs,
      llm this msgs = Ok r /\ tool_calls r = Some (c :: cs) /\
      Forall (fun c => rejects c = false) (c :: cs)) ->
   invocations (runStream this query messageHistory fs) = 15%nat).
Proof.
  destruct (runStream_unfold this query messageHistory fs) as (w & evs & Hw & Hr & _ & Hi & _).
  split; [exists w; split; assumption|]. split.
  - rewrite Hr. exact Hi.
  - intro Halways.
    destruct (while_turns_always_tools this maxTurns Halways
                (mkWorld fs (initial_messages (retrieveContext this query 5) messageHistory query)
                   [] 0)) as (w' & _ & Hw' & _ & _ & Hi').
    unfold runStream. rewrite Hw'. exact Hi'.
Qed.

Lemma runStream_at_most_max_turns_witness :
  (invocations (runStream stubborn "where is main" [] empty_fs) <= 15)%nat /\
  invocations (runStream stubborn "where is main" [] empty_fs) = 15%nat.
Proof.
  destruct (runStream_at_most_max_turns stubborn "where is main" [] empty_fs)
    as (_ & Hle & Hall).
  split; [exact Hle|]. apply Hall. intros msgs.
  exists (mkAI "" (Some [search_call])), search_call, [].
  split; [reflexivity|]. split; [reflexivity|]. repeat constructor.
Defined.

(** ** Correlation ids *)

Lemma id_or_unknown_some (id : string) : id <> EmptyString -> id_or_unknown (Some id) = id.
Proof.
  intro H. unfold id_or_unknown.
  destruct (String.eqb_spec id EmptyString); [contradiction|reflexivity].
Qed.

(** C3, as the code has it: a tool call whose name is not in the registry,
    once the loop comes to it, appends the tool-result message
    [Error: Tool not found] under the call's id, yields no event and changes
    nothing else; the calls after it are processed as usual.  The turn step
    that holds it lets the loop continue when no handler of the other calls
    rejects.  When a handler rejects, the turn step ends the run with an
    error event, and only the calls before the rejected one have been
    answered. *)
Theorem unregistered_tool_is_reported (toolCall : ToolCall) (w : World) :
  ~ In (tc_name toolCall) (map name tools) ->
  let reply := ToolMessage (id_or_unknown (tc_id toolCall)) "Error: Tool not found" in
  let w1 := mkWorld (files w) (currentMessages w ++ [reply]) (yielded w) (invocations w) in
  tool_call_step toolCall w = (Ok tt, w1) /\
  (forall id, tc_id toolCall = Some id -> id <> EmptyString ->
     reply = ToolMessage id "Error: Tool not found") /\
  (forall rest, for_tool_calls (toolCall :: rest) w = for_tool_calls rest w1) /\
  (forall this response before after remaining,
     llm this (currentMessages w) = Ok response ->
     tool_calls response = Some (before ++ toolCall :: after) ->
     Forall (fun c => rejects c = false) before ->
     Forall (fun c => rejects c = false) after ->
     exists w',
       turn this w = (Ok Continue, w') /\
       In reply (currentMessages w') /\
       while_turns this (S remaining) w = while_turns this remaining w') /\
  (forall this response before rejected after remaining,
     llm this (currentMessages w) = Ok response ->
     tool_calls response = Some (before ++ rejected :: after) ->
     Forall (fun c => rejects c = false) before -> rejects rejected = true ->
     exists w' msgs e,
       turn this w = (Ok Break, w') /\
       currentMessages w' = currentMessages w ++ AssistantMessage response :: msgs /\
       Forall2 answers before msgs /\
       last (yielded w') = Some (error e) /\
       while_turns this (S remaining) w = (Ok tt, w')).
Proof.
  intros Hname reply w1.
  pose proof (tool_call_step_unregistered toolCall w (find_tool_none _ Hname)) as Hstep.
  fold not_found in reply. split; [exact Hstep|]. split; [|split; [|split]].
  - intros id Hid Hne. unfold reply. rewrite Hid, id_or_unknown_some by exact Hne. reflexivity.
  - intro rest. cbn [for_tool_calls]. unfold bind. rewrite Hstep. reflexivity.
  - intros this response before after remaining Hr Hc Hbefore Hafter.
    assert (Hok : Forall (fun c => rejects c = false) (before ++ toolCall :: after)).
    { apply Forall_app. split; [exact Hbefore|]. constructor; [|exact Hafter].
      apply unregistered_never_rejects, find_tool_none, Hname. }
    assert (Hcalls : exists c cs, before ++ toolCall :: after = c :: cs).
    { destruct before; cbn; eauto. }
    destruct Hcalls as (c & cs & Hcs). rewrite Hcs in Hc, Hok.
    destruct (turn_calls_tools this w response c cs Hr Hc Hok)
      as (w' & msgs & evs & Ht & _ & Hm & Ha & _ & _ & _).
    exists w'. split; [exact Ht|]. split.
    + rewrite Hm. apply in_or_app. right. right.
      rewrite <- Hcs in Ha. apply Forall2_app_inv_l in Ha as (m1 & m2 & _ & Ha2 & ->).
      apply Forall2_cons_inv_l in Ha2 as (m & ms & (text & -> & Htext) & _ & ->).
      apply in_or_app. right. left. unfold reply.
      rewrite (Htext (find_tool_none _ Hname)). reflexivity.
    + cbn [while_turns]. unfold bind. rewrite Ht. reflexivity.
  - intros this response before rejected after remaining Hr Hc Hbefore Hrej.
    destruct (turn_rejected this w response before rejected after Hr Hc Hbefore Hrej)
      as (w' & msgs & evs & Ht & Hm & Ha & Hy & _).
    exists w', msgs, (cannot_destructure "path" (tc_args rejected)).
    split; [exact Ht|]. split; [exact Hm|]. split; [exact Ha|]. split.
    + rewrite Hy, app_comm_cons, !app_assoc. apply last_snoc.
    + cbn [while_turns]. unfold bind. rewrite Ht. reflexivity.
Qed.

(** C3 fails as stated where a handler rejects: [hasty] calls [read_file]
    without arguments and then the unregistered [search].  The handler of
    the first call rejects, so the second is never come to: no tool-result
    message is appended, and the run is over after this one turn step. *)
Lemma unregistered_call_is_not_reached :
  let w := runStream hasty "find it" [] project_fs in
  ~ In "search" (map name tools) /\
  map tc_name hasty_calls = ["read_file"; "search"] /\
  (exists e, yielded w = [tool_start ["read_file"; "search"]; error e]) /\
  currentMessages w =
    initial_messages "" [] "find it" ++ [AssistantMessage (mkAI "" (Some hasty_calls))] /\
  (forall m, In m (currentMessages w) -> forall id text, m <> ToolMessage id text) /\
  invocations w = 1%nat.
Proof.
  cbv zeta.
  assert (E : currentMessages (runStream hasty "find it" [] project_fs) =
              initial_messages "" [] "find it" ++ [AssistantMessage (mkAI "" (Some hasty_calls))])
    by (vm_compute; reflexivity).
  split.
  { cbn. intros [H|[H|[H|[]]]]; discriminate H. }
  split; [reflexivity|]. split; [eexists; vm_compute; reflexivity|].
  split; [exact E|]. split; [|vm_compute; reflexivity].
  rewrite E. intros m [<-|[<-|[<-|[]]]] id text; discriminate.
Qed.

Lemma unregistered_tool_is_reported_witness :
  ~ In (tc_name search_call) (map name tools) /\
  tool_call_step search_call (mkWorld empty_fs [] [] 0) =
    (Ok tt, mkWorld empty_fs [ToolMessage "call_1" "Error: Tool not found"] [] 0).
Proof.
  assert (H : ~ In (tc_name search_call) (map name tools)).
  { cbn. intros [H|[H|[H|[]]]]; discriminate H. }
  split; [exact H|].
  exact (proj1 (unregistered_tool_is_reported search_call (mkWorld empty_fs [] [] 0) H)).
Defined.

Lemma console_tool_call_step_spec (toolCall : ToolCall) (w : World) :
  rejects toolCall = false ->
  exists w' m,
    Console.tool_call_step toolCall w = (Ok tt, w') /\
    currentMessages w' = currentMessages w ++ [m] /\ answers toolCall m.
Proof.
  intro Hok. unfold Console.tool_call_step.
  destruct (find_tool (tc_name toolCall)) as [tool|] eqn:Hfind.
  - assert (Hargs : nullish (tc_args toolCall) = false).
    { apply rejects_false in Hok as [Hnone|Hargs]; [congruence|exact Hargs]. }
    destruct (find_tool_in _ _ Hfind) as [Hin _].
    destruct (func_returns tool (tc_args toolCall) (files w) Hin Hargs) as (result & fs' & Hf).
    unfold bind, await_tool. rewrite Hf. eexists _, _. repeat split.
    eexists. split; [reflexivity|]. intro Hnone. congruence.
  - eexists _, _. repeat split. eexists. split; reflexivity.
Qed.

Lemma console_for_tool_calls_spec (calls : list ToolCall) :
  Forall (fun c => rejects c = false) calls ->
  forall w, exists w' msgs,
    Console.for_tool_calls calls w = (Ok tt, w') /\
    currentMessages w' = currentMessages w ++ msgs /\ Forall2 answers calls msgs.
Proof.
  induction 1 as [|toolCall rest Hok _ IH]; intro w; cbn [Console.for_tool_calls].
  - exists w, []. rewrite app_nil_r. repeat split. constructor.
  - destruct (console_tool_call_step_spec toolCall w Hok) as (w1 & m & Hs & Hm & Ha).
    destruct (IH w1) as (w2 & msgs & Hs2 & Hm2 & Ha2).
    exists w2, (m :: msgs). unfold bind. rewrite Hs, Hs2. repeat split.
    + rewrite Hm2, Hm, <- app_assoc. reflexivity.
    + constructor; assumption.
Qed.

Lemma console_for_tool_calls_rejected (before after : list ToolCall) (c : ToolCall) :
  Forall (fun c => rejects c = false) before -> rejects c = true ->
  forall w, exists w' msgs,
    Console.for_tool_calls (before ++ c :: after) w
    = (Throw (cannot_destructure "path" (tc_args c)), w') /\
    currentMessages w' = currentMessages w ++ msgs /\ Forall2 answers before msgs.
Proof.
  intros Hbefore Hc. apply rejects_true in Hc as [[tool Hfind] Hargs].
  induction Hbefore as [|toolCall rest Hok _ IH]; intro w; cbn [app Console.for_tool_calls].
  - exists w, []. rewrite app_nil_r. unfold bind, Console.tool_call_step. rewrite Hfind.
    destruct (find_tool_in _ _ Hfind) as [Hin _].
    unfold bind, await_tool.
    rewrite (func_rejects tool (tc_args c) (files w) Hin Hargs).
    destruct w. repeat split. constructor.
  - destruct (console_tool_call_step_spec toolCall w Hok) as (w1 & m & Hs & Hm & Ha).
    destruct (IH w1) as (w2 & msgs & Hs2 & Hm2 & Ha2).
    exists w2, (m :: msgs). unfold bind. rewrite Hs. fold (@bind World unit unit).
    rewrite Hs2. repeat split.
    + rewrite Hm2, Hm, <- app_assoc. reflexivity.
    + constructor; assumption.
Qed.

(** C10, as the code has it.  The tool calls of a turn step are answered
    one by one as long as no handler rejects: the transcript grows by exactly
    one tool-result message per call, in the order of the calls, each under
    the call's id, or under [unknown] when the call has none (none at all, or
    the empty string).  Two such calls without id are thus both answered
    under [unknown].  At the first call whose handler rejects (a registered
    tool called with [undefined] or [null]) the batch stops: the calls before
    it have their message, that call and those after it have none.  The
    console loop does the same. *)
Theorem one_tool_message_per_call (calls : list ToolCall) (w : World) :
  (Forall (fun c => rejects c = false) calls ->
   (exists w' msgs,
      for_tool_calls calls w = (Ok tt, w') /\
      currentMessages w' = currentMessages w ++ msgs /\ Forall2 answers calls msgs) /\
   (exists w' msgs,
      Console.for_tool_calls calls w = (Ok tt, w') /\
      currentMessages w' = currentMessages w ++ msgs /\ Forall2 answers calls msgs)) /\
  (forall id, id <> EmptyString -> id_or_unknown (Some id) = id) /\
  id_or_unknown None = "unknown" /\
  id_or_unknown (Some EmptyString) = "unknown" /\
  (forall c1 c2, calls = [c1; c2] -> rejects c1 = false -> rejects c2 = false ->
     tc_id c1 = None -> tc_id c2 = None ->
     exists w' t1 t2,
       for_tool_calls calls w = (Ok tt, w') /\
       currentMessages w' =
         currentMessages w ++ [ToolMessage "unknown" t1; ToolMessage "unknown" t2]) /\
  (forall before c after,
     calls = before ++ c :: after ->
     Forall (fun c => rejects c = false) before -> rejects c = true ->
     (exists w' msgs e,
        for_tool_calls calls w = (Throw e, w') /\
        currentMessages w' = currentMessages w ++ msgs /\ Forall2 answers before msgs) /\
     (exists w' msgs e,
        Console.for_tool_calls calls w = (Throw e, w') /\
        currentMessages w' = currentMessages w ++ msgs /\ Forall2 answers before msgs)).
Proof.
  split; [|split; [exact id_or_unknown_some|split; [reflexivity|split; [reflexivity|split]]]].
  - intro Hok. split; [|apply console_for_tool_calls_spec; exact Hok].
    destruct (for_tool_calls_spec calls Hok w) as (w' & msgs & evs & Hf & Hm & Ha & _).
    exists w', msgs. repeat split; assumption.
  - intros c1 c2 -> Hc1 Hc2 H1 H2.
    destruct (for_tool_calls_spec [c1; c2] ltac:(repeat constructor; assumption) w)
      as (w' & msgs & evs & Hf & Hm & Ha & _).
    apply Forall2_cons_inv_l in Ha as (m1 & ms & (t1 & -> & _) & Ha & ->).
    apply Forall2_cons_inv_l in Ha as (m2 & ms' & (t2 & -> & _) & Ha & ->).
    apply Forall2_nil_inv_l in Ha as ->.
    rewrite H1, H2 in Hm. exists w', t1, t2. split; assumption.
  - intros before c after -> Hbefore Hrej. split.
    + destruct (for_tool_calls_rejected before after c Hbefore Hrej w)
        as (w' & msgs & evs & Hf & Hm & Ha & _).
      exists w', msgs, (cannot_destructure "path" (tc_args c)). repeat split; assumption.
    + destruct (console_for_tool_calls_rejected before after c Hbefore Hrej w)
        as (w' & msgs & Hf & Hm & Ha).
      exists w', msgs, (cannot_destructure "path" (tc_args c)). repeat split; assumption.
Qed.

(** C10 fails as stated: a model that calls [read_file] and [list_files]
    without arguments gets no tool-result message for either call.  The
    handler of the first rejects, the turn step yields the error, and the run
    is over with a transcript that ends with the assistant's message. *)
Lemma rejected_call_gets_no_tool_message :
  let w := runStream careless "read it" [] project_fs in
  Forall (fun c => registered (tc_name c) = true) bare_calls /\
  (exists e, yielded w = [tool_start ["read_file"; "list_files"]; error e]) /\
  currentMessages w =
    initial_messages "" [] "read it" ++ [AssistantMessage (mkAI "" (Some bare_calls))] /\
  (forall m, In m (currentMessages w) -> forall id text, m <> ToolMessage id text) /\
  (exists e, for_tool_calls bare_calls (mkWorld project_fs [] [] 0)
             = (Throw e, mkWorld project_fs [] [] 0)).
Proof.
  cbv zeta.
  assert (E : currentMessages (runStream careless "read it" [] project_fs) =
              initial_messages "" [] "read it" ++ [AssistantMessage (mkAI "" (Some bare_calls))])
    by (vm_compute; reflexivity).
  split; [repeat constructor|]. split; [eexists; vm_compute; reflexivity|].
  split; [exact E|]. split; [|eexists; vm_compute; reflexivity].
  rewrite E. intros m [<-|[<-|[<-|[]]]] id text; discriminate.
Qed.

(** C4, as the code has it: a call to a registered tool runs the handler on
    the arguments as the model sent them, the schema not being consulted.  On
    arguments that can be destructured, whether they fit the schema or not,
    the handler ends with a string, which is yielded and appended as the tool
    result; where they do fit the schema this is what a validating dispatch
    would do as well.  On [undefined] and [null], which no schema accepts, the
    handler rejects before its [try]: nothing is appended for the call, and
    the turn step that holds it ends the run with an error event, where a
    validating dispatch would have answered with the failure string. *)
Theorem registered_tool_runs_unvalidated (toolCall : ToolCall) (tool : ToolDef) (w : World) :
  find_tool (tc_name toolCall) = Some tool ->
  (nullish (tc_args toolCall) = false ->
   exists result fs',
     func tool (tc_args toolCall) (files w) = (Ok result, fs') /\
     tool_call_step toolCall w =
     (Ok tt, mkWorld fs'
               (currentMessages w ++ [ToolMessage (id_or_unknown (tc_id toolCall)) result])
               (yielded w ++ [tool_result (name tool) result])
               (invocations w)) /\
     (forall failure, schema tool (tc_args toolCall) = true ->
        validated_dispatch failure tool (tc_args toolCall) (files w) = (Ok result, fs'))) /\
  (nullish (tc_args toolCall) = true ->
   schema tool (tc_args toolCall) = false /\
   (forall failure,
      validated_dispatch failure tool (tc_args toolCall) (files w)
      = (Ok (failure (tc_args toolCall)), files w)) /\
   exists e,
     func tool (tc_args toolCall) (files w) = (Throw e, files w) /\
     tool_call_step toolCall w = (Throw e, w) /\
     forall this response before after remaining,
       llm this (currentMessages w) = Ok response ->
       tool_calls response = Some (before ++ toolCall :: after) ->
       Forall (fun c => rejects c = false) before ->
       exists w',
         turn this w = (Ok Break, w') /\
         last (yielded w') = Some (error e) /\
         while_turns this (S remaining) w = (Ok tt, w')).
Proof.
  intro Hfind. split.
  - intro Hargs.
    destruct (tool_call_step_registered toolCall tool w Hfind Hargs)
      as (result & fs' & Hf & Hstep).
    exists result, fs'. split; [exact Hf|]. split; [exact Hstep|].
    intros failure Hvalid. unfold validated_dispatch. rewrite Hvalid. exact Hf.
  - intro Hargs.
    assert (Hschema : schema tool (tc_args toolCall) = false).
    { destruct (find_tool_in _ _ Hfind) as [[<-|[<-|[<-|[]]]] _];
        destruct (tc_args toolCall); try discriminate Hargs; reflexivity. }
    split; [exact Hschema|]. split.
    { intro failure. unfold validated_dispatch. rewrite Hschema. reflexivity. }
    destruct (tool_call_step_rejected toolCall tool w Hfind Hargs) as [Hf Hstep].
    eexists. split; [exact Hf|]. split; [exact Hstep|].
    intros this response before after remaining Hr Hc Hbefore.
    assert (Hrej : rejects toolCall = true) by (apply rejects_true; eauto).
    destruct (turn_rejected this w response before toolCall after Hr Hc Hbefore Hrej)
      as (w' & msgs & evs & Ht & _ & _ & Hy & _).
    exists w'. split; [exact Ht|]. split.
    + rewrite Hy, app_comm_cons, !app_assoc. apply last_snoc.
    + cbn [while_turns]. unfold bind. rewrite Ht. reflexivity.
Qed.

(** C4 fails as stated: [write_file] called without [content] does not
    pass its schema, yet the handler runs: it creates the directory [/d]
    before the write is refused.  A dispatch that validated first would have
    left the files alone. *)
Lemma handler_runs_on_invalid_arguments :
  let args := VObj [("path", VStr "/d/f")] in
  schema write_file args = false /\
  node_at empty_fs ["d"] = None /\
  node_at (func write_file args empty_fs).2 ["d"] = Some Dir /\
  (forall failure, (validated_dispatch failure write_file args empty_fs).2 = empty_fs) /\
  (forall failure,
     func write_file args empty_fs <> validated_dispatch failure write_file args empty_fs).
Proof.
  cbv zeta. split; [reflexivity|]. split; [reflexivity|].
  assert (H : node_at (func write_file (VObj [("path", VStr "/d/f")]) empty_fs).2 ["d"] = Some Dir)
    by (vm_compute; reflexivity).
  split; [exact H|]. split; [reflexivity|].
  intros failure Heq. rewrite Heq in H. discriminate H.
Qed.

Lemma registered_tool_runs_unvalidated_witness :
  let toolCall := mkCall (Some "call_7") "write_file" (VObj [("path", VStr "/d/f")]) in
  find_tool (tc_name toolCall) = Some write_file /\
  schema write_file (tc_args toolCall) = false /\
  exists result fs',
    tool_call_step toolCall (mkWorld empty_fs [] [] 0) =
    (Ok tt, mkWorld fs' [ToolMessage "call_7" result] [tool_result "write_file" result] 0).
Proof.
  cbv zeta. split; [reflexivity|]. split; [reflexivity|].
  destruct (proj1 (registered_tool_runs_unvalidated
                     (mkCall (Some "call_7") "write_file" (VObj [("path", VStr "/d/f")]))
                     write_file (mkWorld empty_fs [] [] 0) eq_refl) eq_refl)
    as (result & fs' & _ & H & _).
  exists result, fs'. exact H.
Defined.

(** ** The file tools *)

Lemma node_at_put_eq (q : Location) (n : Node) (fs : FileSystem) :
  q <> [] -> node_at (put_node q n fs) q = Some n.
Proof.
  intro H. destruct q as [|c q]; [contradiction|].
  cbn. apply lookup_insert_eq.
Qed.

Lemma node_at_put_ne (q q' : Location) (n : Node) (fs : FileSystem) :
  q' <> q -> node_at (put_node q n fs) q' = node_at fs q'.
Proof.
  intro H. destruct q' as [|c q']; [reflexivity|].
  cbn. apply lookup_insert_ne. congruence.
Qed.

Lemma walk_put_file (fs : FileSystem) (q : Location) (data : string) (comps : list string) :
  node_at fs q <> Some Dir ->
  forall cur q', walk fs cur comps = inr q' ->
                 walk (put_node q (File data) fs) cur comps = inr q'.
Proof.
  intro Hq. induction comps as [|c rest IH]; intros cur q' H; cbn [walk] in *; [exact H|].
  destruct (node_at fs cur) as [[|]|] eqn:E; try discriminate.
  rewrite node_at_put_ne by congruence. rewrite E. apply IH. exact H.
Qed.

Lemma resolve_put_file (fs : FileSystem) (q : Location) (data p : string) (q' : Location) :
  node_at fs q <> Some Dir -> resolve fs p = inr q' ->
  resolve (put_node q (File data) fs) p = inr q'.
Proof.
  unfold resolve. intros Hq H. destruct (String.eqb p ""); [discriminate|].
  cbn [cwd put_node]. apply walk_put_file; assumption.
Qed.

Lemma writeFileSync_inv (p data : string) (fs fs' : FileSystem) :
  writeFileSync (VStr p) (VStr data) fs = (Ok tt, fs') ->
  exists q, resolve fs p = inr q /\ node_at fs q <> Some Dir /\
            fs' = put_node q (File data) fs.
Proof.
  unfold writeFileSync. destruct (resolve fs p) as [e|q]; [discriminate|].
  destruct (node_at fs q) as [[d|]|] eqn:E; intro H; try discriminate;
    injection H as <-; exists q; repeat split; congruence.
Qed.

Lemma existsSync_true (p : string) (fs : FileSystem) :
  existsSync (VStr p) fs = (Ok true, fs) ->
  exists q, resolve fs p = inr q /\ is_Some (node_at fs q).
Proof.
  unfold existsSync, gets. destruct (resolve fs p) as [e|q]; [discriminate|].
  intro H. injection H as H. apply bool_decide_eq_true in H. eauto.
Qed.

Lemma existsSync_intro (p : string) (fs : FileSystem) (q : Location) :
  resolve fs p = inr q -> is_Some (node_at fs q) ->
  existsSync (VStr p) fs = (Ok true, fs).
Proof.
  intros H1 H2. unfold existsSync, gets. rewrite H1.
  rewrite bool_decide_eq_true_2 by exact H2. reflexivity.
Qed.

Lemma extends_refl (fs : FileSystem) : extends fs fs.
Proof. split; [reflexivity|auto]. Qed.

Lemma extends_trans (fs1 fs2 fs3 : FileSystem) :
  extends fs1 fs2 -> extends fs2 fs3 -> extends fs1 fs3.
Proof. intros [H1 H2] [H3 H4]. split; [congruence|auto]. Qed.

Lemma extends_put (fs : FileSystem) (q : Location) (n : Node) :
  node_at fs q = None -> extends fs (put_node q n fs).
Proof.
  intro H. split; [reflexivity|]. intros q' n' H'.
  rewrite node_at_put_ne by congruence. exact H'.
Qed.

(** When [mkdir -p] succeeds, the path leads to a directory, and nothing
    that was there before is gone. *)
Lemma mkdirp_ok (comps : list string) :
  forall cur fs fs',
    node_at fs cur = Some Dir ->
    mkdirp cur comps fs = (None, fs') ->
    extends fs fs' /\
    exists q, walk fs' cur comps = inr q /\ node_at fs' q = Some Dir.
Proof.
  induction comps as [|c rest IH]; intros cur fs fs' Hcur H; cbn [mkdirp walk] in *.
  - injection H as <-. split; [apply extends_refl|]. eauto.
  - rewrite Hcur in H.
    destruct (node_at fs (step cur c)) as [[d|]|] eqn:E.
    + destruct rest; discriminate.
    + destruct (IH _ _ _ E H) as (Hext & q & Hw & Hq).
      split; [exact Hext|]. exists q. rewrite (proj2 Hext _ _ Hcur). split; assumption.
    + assert (Hne : step cur c <> []) by (intros Heq; rewrite Heq in E; discriminate).
      destruct (IH _ _ _ (node_at_put_eq _ Dir fs Hne) H) as (Hext & q & Hw & Hq).
      pose proof (extends_trans _ _ _ (extends_put fs _ Dir E) Hext) as Hext'.
      split; [exact Hext'|]. exists q. rewrite (proj2 Hext' _ _ Hcur). split; assumption.
Qed.

Lemma segments_nonempty (s : string) : segments s <> [].
Proof.
  destruct s as [|c s]; cbn [segments]; [discriminate|].
  destruct (is_slash c); [discriminate|]. destruct (segments s); discriminate.
Qed.

Lemma mkdirSync_recursive_ok (d : string) (fs fs' : FileSystem) :
  mkdirSync_recursive (VStr d) fs = (Ok tt, fs') ->
  extends fs fs' /\ exists q, resolve fs' d = inr q /\ node_at fs' q = Some Dir.
Proof.
  unfold mkdirSync_recursive, resolve.
  destruct (String.eqb d ""); [discriminate|].
  set (start := if starts_at_root d then [] else cwd fs).
  destruct (mkdirp start (segments d) fs) as [[e|] fs1] eqn:E; [discriminate|].
  intro H. injection H as <-.
  assert (Hstart : node_at fs start = Some Dir).
  { pose proof (segments_nonempty d) as Hne.
    destruct (segments d) as [|c rest]; [contradiction|]. cbn [mkdirp] in E.
    destruct (node_at fs start) as [[|]|]; try discriminate. reflexivity. }
  destruct (mkdirp_ok _ _ _ _ Hstart E) as (Hext & q & Hw & Hq).
  split; [exact Hext|]. exists q. rewrite (proj1 Hext). fold start. split; assumption.
Qed.

(** The handler of [write_file], step by step, on a string path and a
    string content. *)
Lemma write_file_run (args : JsObject) (p data : string) (fs : FileSystem) :
  get args "path" = VStr p -> get args "content" = VStr data ->
  func write_file (VObj args) fs =
  match existsSync (VStr (dirname_of p)) fs with
  | (Ok found, _) =>
      match (if found then (Ok tt, fs) else mkdirSync_recursive (VStr (dirname_of p)) fs) with
      | (Ok _, fs1) =>
          match writeFileSync (VStr p) (VStr data) fs1 with
          | (Ok _, fs2) => (Ok ("Successfully wrote to " +:+ p), fs2)
          | (Throw e, fs2) => (Ok ("Error writing file: " +:+ e), fs2)
          end
      | (Throw e, fs1) => (Ok ("Error writing file: " +:+ e), fs1)
      end
  | (Throw e, fs1) => (Ok ("Error writing file: " +:+ e), fs1)
  end.
Proof.
  intros Hp Hd. cbn [func write_file destructure]. rewrite Hp, Hd.
  unfold try_catch, bind, dirname, ret. cbn [to_string].
  unfold existsSync at 1 2, gets. cbn [negb].
  destruct (match resolve fs (dirname_of p) with inr q => _ | inl _ => false end); cbn [negb].
  - destruct (writeFileSync (VStr p) (VStr data) fs) as [[[]|e] fs2]; reflexivity.
  - destruct (mkdirSync_recursive (VStr (dirname_of p)) fs) as [[[]|e] fs1]; [|reflexivity].
    destruct (writeFileSync (VStr p) (VStr data) fs1) as [[[]|e] fs2]; reflexivity.
Qed.

Lemma read_file_holds (args : JsObject) (p data : string) (fs : FileSystem) :
  get args "path" = VStr p -> holds fs p data ->
  func read_file (VObj args) fs = (Ok data, fs).
Proof.
  intros Hp (q & Hq & Hn). cbn [func read_file destructure]. rewrite Hp.
  unfold try_catch, bind. cbn [ret].
  rewrite (existsSync_intro p fs q Hq) by (rewrite Hn; eauto). cbn [negb].
  unfold readFileSync. rewrite Hq, Hn. reflexivity.
Qed.

Lemma writeFileSync_holds (p data : string) (fs fs' : FileSystem) :
  writeFileSync (VStr p) (VStr data) fs = (Ok tt, fs') ->
  holds fs' p data /\
  forall d, (exists q, resolve fs d = inr q /\ is_Some (node_at fs q)) ->
            existsSync (VStr d) fs' = (Ok true, fs').
Proof.
  intro H. apply writeFileSync_inv in H as (q & Hq & Hn & ->).
  assert (Hne : q <> []) by (intros ->; apply Hn; reflexivity).
  split.
  - exists q. split; [apply resolve_put_file; assumption|apply node_at_put_eq; exact Hne].
  - intros d (qd & Hqd & Hsome). apply (existsSync_intro d _ qd).
    + apply resolve_put_file; assumption.
    + destruct (decide (qd = q)) as [->|Hdiff].
      * rewrite node_at_put_eq by exact Hne. eauto.
      * rewrite node_at_put_ne by exact Hdiff. exact Hsome.
Qed.

(** ** Paths of the form [d/base] *)

Lemma list_ascii_of_string_app (s1 s2 : string) :
  list_ascii_of_string (s1 +:+ s2) = list_ascii_of_string s1 ++ list_ascii_of_string s2.
Proof.
  induction s1 as [|c s1 IH]; [reflexivity|].
  change (String c s1 +:+ s2) with (String c (s1 +:+ s2)).
  cbn [list_ascii_of_string app]. f_equal. exact IH.
Qed.

Lemma drop_while_all {A} (p : A -> bool) (l r : list A) :
  Forall (fun x => p x = true) l -> drop_while p (l ++ r) = drop_while p r.
Proof. induction 1 as [|x l Hx _ IH]; cbn; [reflexivity|]. rewrite Hx. exact IH. Qed.

Lemma segments_slash_free (s : string) : slash_free s -> segments s = [s].
Proof.
  unfold slash_free. induction s as [|c s IH]; intro H; [reflexivity|].
  cbn [list_ascii_of_string] in H. apply Forall_cons in H as [Hc Hs].
  cbn [segments]. rewrite Hc, (IH Hs). reflexivity.
Qed.

Lemma segments_child (d base : string) :
  slash_free base -> segments (child_path d base) = segments d ++ [base].
Proof.
  intro Hb. unfold child_path. induction d as [|c d IH].
  - change (segments (String slash base) = [EmptyString] ++ [base]).
    change (segments (String slash base)) with (EmptyString :: segments base).
    rewrite (segments_slash_free base Hb). reflexivity.
  - change (String c d +:+ "/" +:+ base) with (String c (d +:+ "/" +:+ base)).
    cbn [segments]. rewrite IH. destruct (is_slash c); [reflexivity|].
    pose proof (segments_nonempty d) as Hne.
    destruct (segments d) as [|seg segs]; [contradiction|reflexivity].
Qed.

Lemma starts_at_root_child (d base : string) :
  d <> EmptyString -> starts_at_root (child_path d base) = starts_at_root d.
Proof. destruct d; [contradiction|reflexivity]. Qed.

Lemma child_path_nonempty (d base : string) : String.eqb (child_path d base) "" = false.
Proof. destruct d; reflexivity. Qed.

Lemma dirname_of_child (d base : string) :
  d <> EmptyString -> last (list_ascii_of_string d) <> Some slash ->
  slash_free base -> base <> EmptyString ->
  dirname_of (child_path d base) = d.
Proof.
  intros Hd Hlast Hb Hne. unfold dirname_of, child_path.
  rewrite list_ascii_of_string_app. cbn [list_ascii_of_string String.append].
  destruct d as [|c0 d']; [contradiction|]. cbn [list_ascii_of_string app].
  rewrite list_ascii_of_string_app. cbn [list_ascii_of_string String.append app].
  rewrite rev_app_distr. cbn [rev]. rewrite <- app_assoc. cbn [app].
  assert (Hrev : Forall (fun c => is_slash c = false) (rev (list_ascii_of_string base))).
  { apply Forall_forall. intros c Hc. unfold slash_free in Hb. rewrite Forall_forall in Hb.
    apply Hb. apply list_elem_of_In. apply in_rev. apply list_elem_of_In. exact Hc. }
  assert (Hhead : exists b bs, rev (list_ascii_of_string base) = b :: bs).
  { destruct base as [|b0 base']; [contradiction|]. cbn [list_ascii_of_string rev].
    destruct (rev (list_ascii_of_string base')); cbn; eauto. }
  destruct Hhead as (b & bs & Hbs). rewrite Hbs in *.
  apply Forall_cons in Hrev as [Hb0 Hbs'].
  cbn [app drop_while]. rewrite Hb0. cbn [negb].
  change (b :: bs ++ "/"%char :: rev (list_ascii_of_string d')) with
    ((b :: bs) ++ "/"%char :: rev (list_ascii_of_string d')).
  rewrite drop_while_all.
  2:{ constructor; [rewrite Hb0; reflexivity|].
      eapply Forall_impl; [exact Hbs'|]. intros x ->. reflexivity. }
  cbn [drop_while is_slash negb]. change (is_slash "/"%char) with true. cbn [negb].
  destruct (rev (list_ascii_of_string d')) as [|r0 r] eqn:Hr.
  - assert (Hd' : d' = EmptyString).
    { destruct d' as [|c1 d'']; [reflexivity|]. cbn [list_ascii_of_string rev] in Hr.
      destruct (rev (list_ascii_of_string d'')); discriminate Hr. }
    subst d'. cbn [list_ascii_of_string last] in Hlast.
    destruct (is_slash c0) eqn:Hc0; [|reflexivity].
    exfalso. apply Hlast. f_equal. unfold is_slash in Hc0. apply Ascii.eqb_eq in Hc0. exact Hc0.
  - rewrite <- Hr, rev_involutive. cbn [string_of_list_ascii].
    rewrite string_of_list_ascii_of_string. reflexivity.
Qed.

Lemma slash_free_rev (s : string) :
  slash_free s -> Forall (fun c => negb (is_slash c) = true) (rev (list_ascii_of_string s)).
Proof.
  unfold slash_free. rewrite !Forall_forall. intros H c Hc.
  rewrite (H c); [reflexivity|]. apply list_elem_of_In, in_rev, list_elem_of_In, Hc.
Qed.

Lemma drop_slashes_slash_free (s : string) :
  slash_free s ->
  drop_while is_slash (rev (list_ascii_of_string s)) = rev (list_ascii_of_string s).
Proof.
  intro H. apply slash_free_rev in H.
  destruct (rev (list_ascii_of_string s)) as [|c l]; [reflexivity|].
  apply Forall_cons in H as [Hc _]. cbn [drop_while].
  apply negb_true_iff in Hc. rewrite Hc. reflexivity.
Qed.

Lemma drop_name_slash_free (s : string) :
  slash_free s ->
  drop_while (fun c => negb (is_slash c)) (rev (list_ascii_of_string s)) = [].
Proof.
  intro H. apply slash_free_rev in H.
  rewrite <- (app_nil_r (rev (list_ascii_of_string s))).
  rewrite (drop_while_all _ _ [] H). reflexivity.
Qed.

Lemma dirname_of_relative (base : string) :
  slash_free base -> base <> EmptyString -> dirname_of base = ".".
Proof.
  intros Hb Hne. unfold dirname_of. destruct base as [|c0 body]; [contradiction|].
  cbn [list_ascii_of_string]. unfold slash_free in Hb. cbn [list_ascii_of_string] in Hb.
  apply Forall_cons in Hb as [Hc0 Hbody].
  rewrite (drop_slashes_slash_free body Hbody), (drop_name_slash_free body Hbody), Hc0.
  reflexivity.
Qed.

Lemma dirname_of_at_root (base : string) :
  slash_free base -> dirname_of ("/" +:+ base) = "/".
Proof.
  intro Hb. unfold dirname_of.
  change (list_ascii_of_string ("/" +:+ base)) with (slash :: list_ascii_of_string base).
  cbv beta iota zeta.
  rewrite (drop_slashes_slash_free base Hb), (drop_name_slash_free base Hb). reflexivity.
Qed.

Lemma walk_app (fs : FileSystem) (l1 l2 : list string) :
  forall cur, walk fs cur (l1 ++ l2) =
              match walk fs cur l1 with
              | inr q => walk fs q l2
              | inl e => inl e
              end.
Proof.
  induction l1 as [|c l1 IH]; intro cur; cbn [app walk]; [reflexivity|].
  destruct (node_at fs cur) as [[|]|]; try reflexivity. apply IH.
Qed.

Lemma step_plain (cur : Location) (base : string) :
  plain_name base -> step cur base = cur ++ [base].
Proof.
  intros (_ & H1 & H2 & H3). unfold step.
  destruct (String.eqb_spec base ""); [contradiction|].
  destruct (String.eqb_spec base "."); [contradiction|].
  destruct (String.eqb_spec base ".."); [contradiction|]. reflexivity.
Qed.

Lemma plain_name_relative (base : string) :
  plain_name base -> String.eqb base "" = false /\ starts_at_root base = false.
Proof.
  intros (Hs & Hne & _). split; [apply String.eqb_neq; exact Hne|].
  destruct base as [|c base']; [reflexivity|]. unfold slash_free in Hs.
  cbn [list_ascii_of_string] in Hs. apply Forall_cons in Hs as [Hc _]. exact Hc.
Qed.

Lemma resolve_dot (fs : FileSystem) :
  resolve fs "." =
  match node_at fs (cwd fs) with
  | Some Dir => inr (cwd fs)
  | Some (File _) => inl ENOTDIR
  | None => inl ENOENT
  end.
Proof. reflexivity. Qed.

Lemma resolve_root (fs : FileSystem) : resolve fs "/" = inr [].
Proof. reflexivity. Qed.

Lemma resolve_at_root (fs : FileSystem) (base : string) :
  plain_name base -> resolve fs ("/" +:+ base) = inr [base].
Proof.
  intros Hplain. pose proof Hplain as (Hs & _). unfold resolve.
  change (String.eqb ("/" +:+ base) "") with false.
  change (starts_at_root ("/" +:+ base)) with true.
  change (segments ("/" +:+ base)) with (EmptyString :: segments base).
  rewrite (segments_slash_free base Hs). cbv iota.
  change (walk fs [] [EmptyString; base]) with (walk fs (step [] EmptyString) [base]).
  change (step [] EmptyString) with (@nil string).
  change (walk fs [] [base]) with (@inr Errno Location (step [] base)).
  rewrite (step_plain _ _ Hplain). reflexivity.
Qed.

(** The entry [base] of a directory resolves to the place right below
    where the directory resolves. *)
Lemma entry_resolve (base p : string) (fs : FileSystem) (qd : Location) :
  plain_name base -> entry_of base p ->
  resolve fs (dirname_of p) = inr qd -> node_at fs qd = Some Dir ->
  resolve fs p = inr (qd ++ [base]).
Proof.
  intros Hplain Hentry. pose proof Hplain as (Hs & Hne & _).
  destruct (plain_name_relative base Hplain) as [Hnonempty Hrel].
  destruct Hentry as [| |d Hd Hlast].
  - rewrite (dirname_of_relative base Hs Hne), resolve_dot. intros Hq _.
    destruct (node_at fs (cwd fs)) as [[|]|] eqn:Hcwd; try discriminate Hq.
    injection Hq as <-. unfold resolve.
    rewrite Hnonempty, Hrel, (segments_slash_free base Hs). cbn [walk].
    rewrite Hcwd, (step_plain _ _ Hplain). reflexivity.
  - rewrite (dirname_of_at_root base Hs), resolve_root. intros Hq _.
    injection Hq as <-. apply resolve_at_root. exact Hplain.
  - rewrite (dirname_of_child d base Hd Hlast Hs Hne). unfold resolve.
    rewrite child_path_nonempty, (starts_at_root_child d base Hd), (segments_child d base Hs).
    destruct (String.eqb d ""); [discriminate|].
    intros Hq Hdir. rewrite walk_app, Hq. cbn [walk]. rewrite Hdir, (step_plain _ _ Hplain).
    reflexivity.
Qed.

(** C8, as the code has it.  [write_file] always ends with a string, the
    success string or one that starts with [Error writing file:].  When it
    reports success the file holds exactly the content given, whatever it held
    before, the directory of the path exists, and [read_file] of the same path
    returns that content.  For a path that names an entry [base] of its
    directory, success is what happens in two cases: the directory is there
    and [base] is not a directory in it (a regular file [base] is then
    overwritten); or the directory is missing, [mkdir -p] makes it with all
    its missing ancestors, and [base] is not a directory in it. *)
Theorem write_file_then_read_file (args : JsObject) (p data : string) (fs : FileSystem) :
  get args "path" = VStr p -> get args "content" = VStr data ->
  (exists result fs',
     func write_file (VObj args) fs = (Ok result, fs') /\
     ((result = "Successfully wrote to " +:+ p /\
       holds fs' p data /\
       existsSync (VStr (dirname_of p)) fs' = (Ok true, fs') /\
       forall args', get args' "path" = VStr p ->
                     func read_file (VObj args') fs' = (Ok data, fs')) \/
      exists message, result = "Error writing file: " +:+ message)) /\
  (forall base,
     plain_name base -> entry_of base p ->
     (forall qd,
        resolve fs (dirname_of p) = inr qd -> node_at fs qd = Some Dir ->
        node_at fs (qd ++ [base]) <> Some Dir ->
        func write_file (VObj args) fs =
        (Ok ("Successfully wrote to " +:+ p), put_node (qd ++ [base]) (File data) fs)) /\
     (forall fs1,
        existsSync (VStr (dirname_of p)) fs = (Ok false, fs) ->
        mkdirSync_recursive (VStr (dirname_of p)) fs = (Ok tt, fs1) ->
        extends fs fs1 /\
        exists qd,
          resolve fs1 (dirname_of p) = inr qd /\ node_at fs1 qd = Some Dir /\
          (node_at fs1 (qd ++ [base]) <> Some Dir ->
           func write_file (VObj args) fs =
           (Ok ("Successfully wrote to " +:+ p), put_node (qd ++ [base]) (File data) fs1)))).
Proof.
  intros Hp Hd. pose proof (write_file_run args p data fs Hp Hd) as Hrun.
  assert (Hwrite : forall fs1 base qd,
             plain_name base -> entry_of base p ->
             resolve fs1 (dirname_of p) = inr qd -> node_at fs1 qd = Some Dir ->
             node_at fs1 (qd ++ [base]) <> Some Dir ->
             writeFileSync (VStr p) (VStr data) fs1
             = (Ok tt, put_node (qd ++ [base]) (File data) fs1)).
  { intros fs1 base qd Hplain Hentry Hq Hdir Hfree. unfold writeFileSync.
    rewrite (entry_resolve base p fs1 qd Hplain Hentry Hq Hdir).
    destruct (node_at fs1 (qd ++ [base])) as [[|]|]; try reflexivity. contradiction. }
  split.
  - destruct (existsSync (VStr (dirname_of p)) fs) as [[found|e] fs0] eqn:Hex;
      [|unfold existsSync, gets in Hex; discriminate].
    assert (Hfs0 : fs0 = fs) by (unfold existsSync, gets in Hex; congruence). subst fs0.
    assert (Hdir : forall fs1,
               (if found then (Ok tt, fs) else mkdirSync_recursive (VStr (dirname_of p)) fs)
               = (Ok tt, fs1) ->
               exists q, resolve fs1 (dirname_of p) = inr q /\ is_Some (node_at fs1 q)).
    { intros fs1 H. destruct found.
      - injection H as <-. apply existsSync_true. exact Hex.
      - apply mkdirSync_recursive_ok in H as (_ & q & Hq & Hn). exists q. rewrite Hn. eauto. }
    destruct (if found then (Ok tt, fs) else mkdirSync_recursive (VStr (dirname_of p)) fs)
      as [[[]|e] fs1] eqn:Hmk.
    + destruct (writeFileSync (VStr p) (VStr data) fs1) as [[[]|e] fs2] eqn:Hw.
      * exists ("Successfully wrote to " +:+ p), fs2. split; [exact Hrun|]. left.
        destruct (writeFileSync_holds p data fs1 fs2 Hw) as [Hholds Hkeeps].
        split; [reflexivity|]. split; [exact Hholds|]. split.
        -- apply Hkeeps. apply Hdir. reflexivity.
        -- intros args' Hp'. apply (read_file_holds args' p data fs2 Hp' Hholds).
      * eexists _, fs2. split; [exact Hrun|]. right. eauto.
    + eexists _, fs1. split; [exact Hrun|]. right. eauto.
  - intros base Hplain Hentry. split.
    + intros qd Hq Hdir Hfree.
      rewrite (existsSync_intro _ fs qd Hq) in Hrun by (rewrite Hdir; eauto).
      rewrite (Hwrite fs base qd Hplain Hentry Hq Hdir Hfree) in Hrun. exact Hrun.
    + intros fs1 Hex Hmk. rewrite Hex, Hmk in Hrun.
      destruct (mkdirSync_recursive_ok _ _ _ Hmk) as (Hext & qd & Hq & Hdir).
      split; [exact Hext|]. exists qd. split; [exact Hq|]. split; [exact Hdir|].
      intro Hfree. rewrite (Hwrite fs1 base qd Hplain Hentry Hq Hdir Hfree) in Hrun.
      exact Hrun.
Qed.

Lemma write_file_then_read_file_witness :
  let args : JsObject := [("path", VStr "/src/new/deep/a.txt"); ("content", VStr "hello")] in
  get args "path" = VStr "/src/new/deep/a.txt" /\
  get args "content" = VStr "hello" /\
  exists result fs',
    func write_file (VObj args) project_fs = (Ok result, fs') /\
    result = "Successfully wrote to /src/new/deep/a.txt" /\
    func read_file (VObj [("path", VStr "/src/new/deep/a.txt")]) fs' = (Ok "hello", fs').
Proof.
  cbv zeta. split; [reflexivity|]. split; [reflexivity|].
  destruct (write_file_then_read_file
              [("path", VStr "/src/new/deep/a.txt"); ("content", VStr "hello")]
              "/src/new/deep/a.txt" "hello" project_fs eq_refl eq_refl)
    as ((result & fs' & Hrun & Hcases) & _).
  exists result, fs'. split; [exact Hrun|].
  assert (Hres : result = "Successfully wrote to /src/new/deep/a.txt").
  { assert (H1 : (func write_file
                    (VObj [("path", VStr "/src/new/deep/a.txt"); ("content", VStr "hello")])
                    project_fs).1 = Ok "Successfully wrote to /src/new/deep/a.txt")
      by (vm_compute; reflexivity).
    rewrite Hrun in H1. cbn [fst] in H1. injection H1 as ->. reflexivity. }
  split; [exact Hres|].
  destruct Hcases as [(_ & _ & _ & Hread)|(message & Herr)].
  - apply Hread. reflexivity.
  - rewrite Hres in Herr. discriminate Herr.
Defined.

(** C8 fails as stated: on a path that names a directory the tool returns
    an error string, and nothing is written. *)
Lemma write_file_on_a_directory :
  func write_file (VObj [("path", VStr "/src"); ("content", VStr "x")]) project_fs =
  (Ok "Error writing file: EISDIR: illegal operation on a directory, open '/src'",
   project_fs).
Proof. vm_compute. reflexivity. Qed.

(** The parent directories of the specification's example are made. *)
Example write_file_makes_directories :
  let fs' := (func write_file
                (VObj [("path", VStr "/src/new/deep/a.txt"); ("content", VStr "hello")])
                project_fs).2 in
  node_at project_fs ["src"; "new"] = None /\
  node_at fs' ["src"; "new"] = Some Dir /\
  node_at fs' ["src"; "new"; "deep"] = Some Dir /\
  node_at fs' ["src"; "new"; "deep"; "a.txt"] = Some (File "hello") /\
  node_at fs' ["src"; "utils.ts"] = Some (File "export const id = 1").
Proof. vm_compute. repeat split; reflexivity. Qed.

Lemma retrieveContext_degrades_to_empty_witness :
  index (librarian []) = [] /\ retrieveContext (librarian []) "where is id" 5 = EmptyString.
Proof.
  split; [reflexivity|].
  exact (proj1 (retrieveContext_degrades_to_empty (librarian []) "where is id" 5
                  (or_introl eq_refl))).
Defined.

Lemma retrieveContext_top_k_witness :
  exists top rest : list Scored,
    Permutation (top ++ rest) (map (score_chunk [1; 0]%float) full_index) /\
    length top = 2%nat /\
    StronglySorted at_least top /\
    retrieveContext (librarian full_index) "where is id" 5
      = join delimiter (map format_chunk top).
Proof.
  assert (Hvec : Forall (fun c => is_Some (embedding c)) (index (librarian full_index))).
  { repeat constructor; eexists; reflexivity. }
  assert (Hnum : Forall (fun c => is_nan (score (score_chunk [1; 0]%float c)) = false)
                   (index (librarian full_index))).
  { repeat constructor. }
  destruct (retrieveContext_top_k (librarian full_index) "where is id" 5 first_axis
              [1; 0]%float ltac:(discriminate) eq_refl eq_refl Hvec Hnum ltac:(lia))
    as (top & rest & Hperm & Hlen & _ & Hsorted & _ & Hret & _).
  exists top, rest. repeat split; assumption.
Defined.

Lemma first_chunk_gates_retrieval_witness :
  retrieveContext (librarian (mkChunk "b.ts" "beta" None :: full_index)) "where is id" 5
    = EmptyString /\
  exists sorted,
    Permutation sorted (map (score_chunk [1; 0]%float) mixed_index) /\
    retrieveContext (librarian mixed_index) "where is id" 5
      = join delimiter (map format_chunk (slice_to sorted 5)) /\
    (forall i j a b,
       sorted !! i = Some a -> sorted !! j = Some b ->
       (0 <=? score a)%float = true -> embedding (chunk b) = None -> (i < j)%nat).
Proof.
  split.
  - exact (proj1 (first_chunk_gates_retrieval
                    (librarian (mkChunk "b.ts" "beta" None :: full_index)) "where is id" 5)
             _ _ eq_refl eq_refl).
  - destruct (first_chunk_gates_retrieval (librarian mixed_index) "where is id" 5)
      as (_ & _ & _ & _ & H).
    apply (H first_axis [1; 0]%float _ _ _ eq_refl eq_refl eq_refl eq_refl).
    repeat constructor.
Defined.

Lemma one_tool_message_per_call_witness :
  exists w' t1 t2,
    for_tool_calls [mkCall None "search" (VObj []); mkCall None "read_file" (VObj [("path", VStr "x.py")])]
      (mkWorld project_fs [] [] 0) = (Ok tt, w') /\
    currentMessages w' = [ToolMessage "unknown" t1; ToolMessage "unknown" t2].
Proof.
  destruct (one_tool_message_per_call
              [mkCall None "search" (VObj []); mkCall None "read_file" (VObj [("path", VStr "x.py")])]
              (mkWorld project_fs [] [] 0)) as (_ & _ & _ & _ & H & _).
  exact (H _ _ eq_refl eq_refl eq_refl eq_refl eq_refl).
Defined.

(** ** The examples of the specification *)

Example plain_answer_is_one_final_message :
  yielded (runStream answerer "where is id" [] project_fs)
  = [message "The function is in utils.ts"].
Proof. vm_compute. reflexivity. Qed.

Example read_then_answer :
  yielded (runStream reader "where is id" [] project_fs)
  = [tool_start ["read_file"];
     tool_result "read_file" "File not found: x.py";
     message "Found it"].
Proof. vm_compute. reflexivity. Qed.

Example model_failure_is_one_error :
  yielded (runStream unreachable "where is id" [] project_fs) = [error "fetch failed"].
Proof. vm_compute. reflexivity. Qed.

Example mixed_index_scores :
  map score (map (score_chunk [1; 0]%float) mixed_index)
  = [0; -1; 0x1.3333333333333p-1]%float.
Proof. vm_compute. reflexivity. Qed.

Example five_of_two :
  retrieveContext (librarian full_index) "where is id" 5
  = join delimiter
      [ "File: c.ts" +:+ newline +:+ "Content:" +:+ newline +:+ "gamma" +:+ newline;
        "File: a.ts" +:+ newline +:+ "Content:" +:+ newline +:+ "alpha" +:+ newline ].
Proof. vm_compute. reflexivity. Qed.

(** ** The text splitter *)

Section SplitterFacts.

Context {char : Type} `{EqDecision char}.

Variables (line_feed space : char).

Lemma js_slice_inside (s : list char) (a b : Z) :
  0 <= a <= b -> b <= js_length s ->
  js_slice s a b = take (Z.to_nat (b - a)) (drop (Z.to_nat a) s).
Proof.
  intros Hab Hb. unfold js_slice, clamp_index.
  destruct (Z.ltb_spec a 0); [lia|]. destruct (Z.ltb_spec b 0); [lia|].
  rewrite !Z.min_l by lia. reflexivity.
Qed.

Lemma js_slice_length (s : list char) (a b : Z) :
  0 <= a <= b -> b <= js_length s -> js_length (js_slice s a b) = b - a.
Proof.
  intros Hab Hb. rewrite js_slice_inside by assumption. unfold js_length in *.
  rewrite length_take, length_drop. lia.
Qed.

Lemma js_slice_take (s : list char) (a b c : Z) :
  0 <= a <= b -> b <= c -> c <= js_length s ->
  js_slice s a b = take (Z.to_nat (b - a)) (js_slice s a c).
Proof.
  intros Hab Hbc Hc. rewrite !js_slice_inside by lia.
  rewrite take_take. f_equal. lia.
Qed.

Lemma starts_with_app (sep s : list char) :
  starts_with sep s = true -> exists t, s = sep ++ t.
Proof.
  revert s. induction sep as [|a sep IH]; intros s Hs; [exists s; reflexivity|].
  destruct s as [|b s]; [discriminate|]. cbn [starts_with] in Hs.
  apply andb_prop in Hs as [Hab Hs]. apply bool_decide_eq_true in Hab. subst b.
  destruct (IH s Hs) as [t ->]. exists t. reflexivity.
Qed.

(** Where [lastIndexOf] finds the separator, the separator is. *)
Lemma lastIndexOf_from_occurs (sep orig : list char) :
  forall s pre found,
    orig = pre ++ s ->
    (found = -1 \/ (0 <= found /\ starts_with sep (drop (Z.to_nat found) orig) = true)) ->
    let r := lastIndexOf_from sep s (js_length pre) found in
    r = -1 \/ (0 <= r /\ starts_with sep (drop (Z.to_nat r) orig) = true).
Proof.
  induction s as [|c rest IH]; intros pre found Horig Hfound; cbn [lastIndexOf_from].
  - destruct (starts_with sep []) eqn:E; [|exact Hfound].
    right. unfold js_length. split; [lia|]. rewrite Nat2Z.id, Horig, app_nil_r, drop_all.
    exact E.
  - replace (js_length pre + 1) with (js_length (pre ++ [c]))
      by (unfold js_length; rewrite length_app; cbn; lia).
    apply IH; [rewrite <- app_assoc; exact Horig|].
    destruct (starts_with sep (c :: rest)) eqn:E; [|exact Hfound].
    right. unfold js_length. split; [lia|].
    rewrite Nat2Z.id, Horig, drop_app_length. exact E.
Qed.

Lemma lastIndexOf_occurs (s sep : list char) :
  let r := lastIndexOf s sep in
  r = -1 \/ (0 <= r /\ exists t, drop (Z.to_nat r) s = sep ++ t).
Proof.
  cbv zeta. unfold lastIndexOf.
  destruct (lastIndexOf_from_occurs sep s s [] (-1) eq_refl (or_introl eq_refl)) as [Hr|[Hr Hs]].
  - left. exact Hr.
  - right. split; [exact Hr|]. apply starts_with_app. exact Hs.
Qed.

(** A split index is [-1] or cuts the slice right after a separator. *)
Lemma find_split_spec (chunkOverlap : Z) (slice : list char) (seps : list (list char)) :
  Forall (fun sep => sep <> []) seps ->
  let r := find_split chunkOverlap slice seps in
  r = -1 \/
  (1 <= r <= js_length slice /\
   exists sep front, In sep seps /\ take (Z.to_nat r) slice = front ++ sep).
Proof.
  cbv zeta. induction 1 as [|sep rest Hsep _ IH]; cbn [find_split]; [left; reflexivity|].
  destruct (negb (lastIndexOf slice sep =? -1) && (chunkOverlap <? 2 * lastIndexOf slice sep))
    eqn:E.
  - apply andb_prop in E as [E _]. apply negb_true_iff, Z.eqb_neq in E.
    destruct (lastIndexOf_occurs slice sep) as [Hr|(Hr & t & Ht)]; [contradiction|].
    set (r := lastIndexOf slice sep) in *.
    assert (Hlen : (Z.to_nat r + length sep <= length slice)%nat).
    { pose proof (f_equal length Ht) as Hl. rewrite length_drop, length_app in Hl.
      destruct (le_lt_dec (length slice) (Z.to_nat r)) as [Hge|]; [|lia].
      rewrite drop_ge in Ht by exact Hge. destruct sep; [contradiction|discriminate]. }
    assert (Hpos : (0 < length sep)%nat) by (destruct sep; [contradiction|cbn; lia]).
    right. unfold js_length. split; [lia|].
    exists sep, (take (Z.to_nat r) slice). split; [left; reflexivity|].
    replace (Z.to_nat (r + Z.of_nat (length sep))) with (Z.to_nat r + length sep)%nat by lia.
    rewrite <- (take_drop (Z.to_nat r) slice) at 1.
    rewrite take_app_add'; [|rewrite length_take; lia].
    rewrite Ht, take_app_length. reflexivity.
  - destruct IH as [IH|(Hb & sep' & front & Hin & Hf)]; [left; exact IH|].
    right. split; [exact Hb|]. exists sep', front. split; [right; exact Hin|exact Hf].
Qed.

Lemma separators_nonempty : Forall (fun sep : list char => sep <> []) (separators line_feed space).
Proof. repeat constructor; discriminate. Qed.

(** What one round of the loop does when the chunk is not the last one. *)
Lemma split_round (chunkSize chunkOverlap : Z) (text : list char) (startIndex : Z) :
  1 <= chunkSize -> 0 <= startIndex -> startIndex + chunkSize < js_length text ->
  exists endIndex,
    startIndex < endIndex <= startIndex + chunkSize /\
    (endIndex = startIndex + chunkSize \/
     exists sep front, In sep (separators line_feed space) /\
                       js_slice text startIndex endIndex = front ++ sep) /\
    forall fuel,
      split_loop line_feed space chunkSize chunkOverlap text (S fuel) startIndex =
      js_slice text startIndex endIndex ::
      split_loop line_feed space chunkSize chunkOverlap text fuel
        (Z.max (startIndex + 1) (endIndex - chunkOverlap)).
Proof.
  intros Hsize Hstart Hend.
  set (slice := js_slice text startIndex (startIndex + chunkSize)).
  assert (Hlen : js_length slice = chunkSize).
  { unfold slice. rewrite js_slice_length by lia. lia. }
  pose proof (find_split_spec chunkOverlap slice _ separators_nonempty) as Hsplit.
  cbv zeta in Hsplit.
  set (splitIndex := find_split chunkOverlap slice (separators line_feed space)) in *.
  exists (if splitIndex =? -1 then startIndex + chunkSize else startIndex + splitIndex).
  assert (Hloop : forall fuel e,
             e = (if splitIndex =? -1 then startIndex + chunkSize else startIndex + splitIndex) ->
             startIndex < e ->
             split_loop line_feed space chunkSize chunkOverlap text (S fuel) startIndex =
             js_slice text startIndex e ::
             split_loop line_feed space chunkSize chunkOverlap text fuel
               (Z.max (startIndex + 1) (e - chunkOverlap))).
  { intros fuel e He Hlt. cbn [split_loop].
    destruct (Z.ltb_spec startIndex (js_length text)); [|lia].
    destruct (Z.leb_spec (js_length text) (startIndex + chunkSize)); [lia|].
    fold slice. fold splitIndex. cbv zeta. rewrite <- He.
    destruct (Z.ltb_spec (Z.max (startIndex + 1) (e - chunkOverlap)) 0); [lia|].
    reflexivity. }
  destruct Hsplit as [Hnone|(Hb & sep & front & Hin & Hfront)].
  - destruct (Z.eqb_spec splitIndex (-1)); [|contradiction].
    split; [lia|]. split; [left; reflexivity|].
    intro fuel. apply Hloop; [|lia]. destruct (Z.eqb_spec splitIndex (-1)); [reflexivity|lia].
  - destruct (Z.eqb_spec splitIndex (-1)); [lia|]. split; [lia|]. split.
    + right. exists sep, front. split; [exact Hin|].
      rewrite (js_slice_take text startIndex (startIndex + splitIndex)
                 (startIndex + chunkSize)) by lia.
      fold slice. replace (startIndex + splitIndex - startIndex) with splitIndex by lia.
      exact Hfront.
    + intro fuel. apply Hloop; [|lia]. destruct (Z.eqb_spec splitIndex (-1)); [lia|reflexivity].
Qed.

(** With one round of fuel per code unit left, the loop tiles the text from
    [startIndex] to its end. *)
Lemma split_loop_tiles (chunkSize chunkOverlap : Z) (text : list char) :
  1 <= chunkSize -> 0 <= chunkOverlap ->
  forall fuel startIndex,
    0 <= startIndex < js_length text -> js_length text - startIndex <= Z.of_nat fuel ->
    exists spans,
      tiles chunkSize chunkOverlap (js_length text) startIndex spans /\
      split_loop line_feed space chunkSize chunkOverlap text fuel startIndex =
      map (fun '(s, e) => js_slice text s e) spans.
Proof.
  intros Hsize Hov. induction fuel as [|fuel IH]; intros startIndex Hstart Hfuel; [lia|].
  destruct (Z.le_gt_cases (js_length text) (startIndex + chunkSize)) as [Hlast|Hmore].
  - exists [(startIndex, js_length text)]. split; [constructor; lia|].
    cbn [split_loop map]. destruct (Z.ltb_spec startIndex (js_length text)); [|lia].
    destruct (Z.leb_spec (js_length text) (startIndex + chunkSize)); [|lia]. reflexivity.
  - destruct (split_round chunkSize chunkOverlap text startIndex Hsize ltac:(lia) Hmore)
      as (endIndex & He & _ & Hround).
    destruct (IH (Z.max (startIndex + 1) (endIndex - chunkOverlap)) ltac:(lia) ltac:(lia))
      as (spans & Htiles & Hloop).
    exists ((startIndex, endIndex) :: spans). split.
    + apply (tiles_cons _ _ _ _ _ (Z.max (startIndex + 1) (endIndex - chunkOverlap)));
        try lia; exact Htiles.
    + rewrite Hround, Hloop. reflexivity.
Qed.

Lemma tiles_covers (size overlap len : Z) (spans : list (Z * Z)) :
  forall from, tiles size overlap len from spans ->
  forall i, from <= i < len -> exists s e, In (s, e) spans /\ s <= i < e.
Proof.
  induction 1 as [s Hs Hw|s e s' rest Hs Hw He Hs' Hov _ IH]; intros i Hi.
  - exists s, len. split; [left; reflexivity|lia].
  - destruct (Z.lt_ge_cases i e) as [Hlt|Hge].
    + exists s, e. split; [left; reflexivity|lia].
    + destruct (IH i ltac:(lia)) as (s0 & e0 & Hin & Hb).
      exists s0, e0. split; [right; exact Hin|exact Hb].
Qed.

Lemma tiles_bounds (size overlap len : Z) (spans : list (Z * Z)) :
  forall from, tiles size overlap len from spans ->
  Forall (fun '(s, e) => 0 <= s < e /\ e <= len /\ e - s <= size) spans /\
  Z.of_nat (length spans) <= len - from.
Proof.
  induction 1 as [s Hs Hw|s e s' rest Hs Hw He Hs' Hov _ [IH1 IH2]].
  - split; [repeat constructor; lia|cbn; lia].
  - split; [constructor; [lia|exact IH1]|cbn [length]; lia].
Qed.

Lemma split_loop_cut_well (chunkSize chunkOverlap : Z) (text : list char) :
  1 <= chunkSize -> 0 <= chunkOverlap ->
  forall fuel startIndex,
    0 <= startIndex < js_length text -> js_length text - startIndex <= Z.of_nat fuel ->
    exists init s,
      split_loop line_feed space chunkSize chunkOverlap text fuel startIndex
      = init ++ [js_slice_from text s] /\
      startIndex <= s < js_length text /\
      Forall (cut_well line_feed space chunkSize) init.
Proof.
  intros Hsize Hov. induction fuel as [|fuel IH]; intros startIndex Hstart Hfuel; [lia|].
  destruct (Z.le_gt_cases (js_length text) (startIndex + chunkSize)) as [Hlast|Hmore].
  - exists [], startIndex. split; [|split; [lia|constructor]].
    cbn [split_loop app]. destruct (Z.ltb_spec startIndex (js_length text)); [|lia].
    destruct (Z.leb_spec (js_length text) (startIndex + chunkSize)); [|lia]. reflexivity.
  - destruct (split_round chunkSize chunkOverlap text startIndex Hsize ltac:(lia) Hmore)
      as (endIndex & He & Hcut & Hround).
    destruct (IH (Z.max (startIndex + 1) (endIndex - chunkOverlap)) ltac:(lia) ltac:(lia))
      as (init & s & Hloop & Hs & Hinit).
    exists (js_slice text startIndex endIndex :: init), s.
    split; [rewrite Hround, Hloop; reflexivity|]. split; [lia|].
    constructor; [|exact Hinit]. destruct Hcut as [->|Hsep].
    + left. rewrite js_slice_length by lia. lia.
    + right. exact Hsep.
Qed.

End SplitterFacts.

Lemma splitText_spans {char : Type} `{EqDecision char} (line_feed space : char)
    (chunkSize chunkOverlap : Z) (text : list char) :
  1 <= chunkSize -> 0 <= chunkOverlap -> text <> [] ->
  exists spans,
    splitText line_feed space chunkSize chunkOverlap text =
      map (fun '(s, e) => js_slice text s e) spans /\
    tiles chunkSize chunkOverlap (js_length text) 0 spans.
Proof.
  intros Hsize Hov Htext.
  assert (Hlen : 0 < js_length text) by (destruct text; [contradiction|unfold js_length; cbn; lia]).
  destruct (split_loop_tiles line_feed space chunkSize chunkOverlap text Hsize Hov
              (length text) 0 ltac:(lia) ltac:(unfold js_length; lia))
    as (spans & Htiles & Hloop).
  exists spans. split; [|exact Htiles].
  destruct text; [contradiction|exact Hloop].
Qed.

(** X1: the chunks of a text are slices that tile it.  The first starts
    at the first code unit, the last ends with the text, each other one
    starts after the start of the one before it, inside it or right at its
    end, and at most [chunkOverlap] code units before that end.  So every code
    unit of the text is in a chunk. *)
Theorem splitText_tiles {char : Type} `{EqDecision char} (line_feed space : char)
    (chunkSize chunkOverlap : Z) (text : list char) :
  1 <= chunkSize -> 0 <= chunkOverlap -> text <> [] ->
  exists spans,
    splitText line_feed space chunkSize chunkOverlap text =
      map (fun '(s, e) => js_slice text s e) spans /\
    tiles chunkSize chunkOverlap (js_length text) 0 spans /\
    forall i, 0 <= i < js_length text -> exists s e, In (s, e) spans /\ s <= i < e.
Proof.
  intros Hsize Hov Htext.
  destruct (splitText_spans line_feed space chunkSize chunkOverlap text Hsize Hov Htext)
    as (spans & Hsplit & Htiles).
  exists spans. split; [exact Hsplit|]. split; [exact Htiles|].
  intros i Hi. apply (tiles_covers _ _ _ _ _ Htiles). exact Hi.
Qed.

Lemma splitText_tiles_witness :
  1 <= 10 /\ 0 <= 2 /\ sample_text <> [] /\
  exists spans,
    splitText lf " "%char 10 2 sample_text = map (fun '(s, e) => js_slice sample_text s e) spans /\
    tiles 10 2 (js_length sample_text) 0 spans.
Proof.
  split; [lia|]. split; [lia|]. split; [discriminate|].
  destruct (splitText_tiles lf " "%char 10 2 sample_text ltac:(lia) ltac:(lia) ltac:(discriminate))
    as (spans & Hsplit & Htiles & _).
  exists spans. split; assumption.
Defined.

(** X2: no chunk is empty, no chunk is longer than [chunkSize], and there
    are at most as many chunks as the text has code units. *)
Theorem splitText_chunk_sizes {char : Type} `{EqDecision char} (line_feed space : char)
    (chunkSize chunkOverlap : Z) (text : list char) :
  1 <= chunkSize -> 0 <= chunkOverlap ->
  Forall (fun c => 1 <= js_length c <= chunkSize)
    (splitText line_feed space chunkSize chunkOverlap text) /\
  (length (splitText line_feed space chunkSize chunkOverlap text) <= length text)%nat.
Proof.
  intros Hsize Hov. destruct text as [|c0 text0] eqn:Etext; [split; [constructor|cbn; lia]|].
  rewrite <- Etext.
  destruct (splitText_spans line_feed space chunkSize chunkOverlap text Hsize Hov
              ltac:(rewrite Etext; discriminate)) as (spans & -> & Htiles).
  destruct (tiles_bounds _ _ _ _ _ Htiles) as [Hb Hn]. split.
  - apply Forall_forall. intros c Hc. apply list_elem_of_In, in_map_iff in Hc as ([s e] & <- & Hin).
    rewrite Forall_forall in Hb. specialize (Hb (s, e) ltac:(apply list_elem_of_In; exact Hin)).
    cbn in Hb. rewrite js_slice_length by lia. lia.
  - rewrite length_map. unfold js_length in Hn. lia.
Qed.

Lemma splitText_chunk_sizes_witness :
  1 <= 10 /\ 0 <= 2 /\
  Forall (fun c => 1 <= js_length c <= 10) (splitText lf " "%char 10 2 sample_text).
Proof.
  split; [lia|]. split; [lia|].
  exact (proj1 (splitText_chunk_sizes lf " "%char 10 2 sample_text ltac:(lia) ltac:(lia))).
Defined.

(** X3: every chunk but the last is cut right after a separator (two line
    feeds, a line feed or a space), unless it is [chunkSize] long; the last
    chunk is the rest of the text. *)
Theorem splitText_cuts_after_separator {char : Type} `{EqDecision char}
    (line_feed space : char) (chunkSize chunkOverlap : Z) (text : list char) :
  1 <= chunkSize -> 0 <= chunkOverlap -> text <> [] ->
  exists init s,
    splitText line_feed space chunkSize chunkOverlap text = init ++ [js_slice_from text s] /\
    0 <= s < js_length text /\
    Forall (cut_well line_feed space chunkSize) init.
Proof.
  intros Hsize Hov Htext.
  assert (Hlen : 0 < js_length text) by (destruct text; [contradiction|unfold js_length; cbn; lia]).
  destruct (split_loop_cut_well line_feed space chunkSize chunkOverlap text Hsize Hov
              (length text) 0 ltac:(lia) ltac:(unfold js_length; lia))
    as (init & s & Hloop & Hs & Hinit).
  exists init, s. split; [|split; assumption].
  destruct text; [contradiction|exact Hloop].
Qed.

Lemma splitText_cuts_after_separator_witness :
  exists init s,
    splitText lf " "%char 10 2 sample_text = init ++ [js_slice_from sample_text s] /\
    Forall (cut_well lf " "%char 10) init.
Proof.
  destruct (splitText_cuts_after_separator lf " "%char 10 2 sample_text
              ltac:(lia) ltac:(lia) ltac:(discriminate)) as (init & s & H1 & _ & H2).
  exists init, s. split; assumption.
Defined.

(** X4: a text that is not empty and not longer than [chunkSize] comes
    back whole, as the only chunk, whatever the overlap and the separators in
    it. *)
Theorem splitText_short_text {char : Type} `{EqDecision char} (line_feed space : char)
    (chunkSize chunkOverlap : Z) (text : list char) :
  text <> [] -> js_length text <= chunkSize ->
  splitText line_feed space chunkSize chunkOverlap text = [text].
Proof.
  intros Htext Hfit.
  assert (Hlen : 0 < js_length text) by (destruct text; [contradiction|unfold js_length; cbn; lia]).
  assert (Hloop : forall fuel,
            split_loop line_feed space chunkSize chunkOverlap text (S fuel) 0 = [text]).
  { intros fuel. cbn [split_loop].
    destruct (Z.ltb_spec 0 (js_length text)); [|lia].
    destruct (Z.leb_spec (js_length text) (0 + chunkSize)); [|lia].
    unfold js_slice_from. rewrite js_slice_inside by lia.
    cbn [Z.to_nat drop]. rewrite Z.sub_0_r. unfold js_length. rewrite Nat2Z.id, firstn_all.
    reflexivity. }
  destruct text as [|c0 text0]; [contradiction|]. apply Hloop.
Qed.

Lemma splitText_short_text_witness :
  sample_text <> [] /\ js_length sample_text <= 1000 /\
  splitText lf " "%char 1000 200 sample_text = [sample_text].
Proof.
  split; [discriminate|]. split; [vm_compute; discriminate|].
  apply splitText_short_text; [discriminate|vm_compute; discriminate].
Defined.

(** ** Vectors of different lengths *)

Lemma nan_add_r (x : float) : (x + nan = nan)%float.
Proof.
  apply Prim2SF_inj. rewrite FloatAxioms.add_spec.
  change (Prim2SF nan) with S754_nan. destruct (Prim2SF x); reflexivity.
Qed.

Lemma nan_add_l (x : float) : (nan + x = nan)%float.
Proof.
  apply Prim2SF_inj. rewrite FloatAxioms.add_spec.
  change (Prim2SF nan) with S754_nan. reflexivity.
Qed.

Lemma nan_mul_r (x : float) : (x * nan = nan)%float.
Proof.
  apply Prim2SF_inj. rewrite FloatAxioms.mul_spec.
  change (Prim2SF nan) with S754_nan. destruct (Prim2SF x); reflexivity.
Qed.

Lemma nan_div_l (x : float) : (nan / x = nan)%float.
Proof.
  apply Prim2SF_inj. rewrite FloatAxioms.div_spec.
  change (Prim2SF nan) with S754_nan. reflexivity.
Qed.

Lemma nan_sub_l (x : float) : (nan - x = nan)%float.
Proof.
  apply Prim2SF_inj. rewrite FloatAxioms.sub_spec.
  change (Prim2SF nan) with S754_nan. reflexivity.
Qed.

Lemma nan_sub_r (x : float) : (x - nan = nan)%float.
Proof.
  apply Prim2SF_inj. rewrite FloatAxioms.sub_spec.
  change (Prim2SF nan) with S754_nan. destruct (Prim2SF x); reflexivity.
Qed.

(** The second component of the accumulator depends on [vecA] alone. *)
Lemma accumulate_normA (vecA : list float) :
  forall vecB d na nb,
    (accumulate vecA vecB (d, na, nb)).1.2 = fold_left (fun n a => (n + a * a)%float) vecA na.
Proof.
  induction vecA as [|a restA IH]; intros vecB d na nb; [reflexivity|].
  cbn [accumulate fold_left]. apply IH.
Qed.

(** Once [vecB] is used up, the dot product and its norm are [NaN]. *)
Lemma accumulate_past_end (vecA : list float) :
  forall na, accumulate vecA [] (nan, na, nan) =
             (nan, fold_left (fun n a => (n + a * a)%float) vecA na, nan).
Proof.
  induction vecA as [|a restA IH]; intro na; [reflexivity|].
  cbn [accumulate hd tl fold_left]. rewrite !nan_add_l. apply IH.
Qed.

Lemma accumulate_short (vecA : list float) :
  forall vecB d na nb, (length vecB < length vecA)%nat ->
    accumulate vecA vecB (d, na, nb) =
    (nan, fold_left (fun n a => (n + a * a)%float) vecA na, nan).
Proof.
  induction vecA as [|a restA IH]; intros vecB d na nb Hlen; [cbn in Hlen; lia|].
  destruct vecB as [|b restB].
  - cbn [accumulate hd tl fold_left]. rewrite nan_mul_r, !nan_add_r.
    apply accumulate_past_end.
  - cbn [accumulate hd tl fold_left]. apply IH. cbn in Hlen. lia.
Qed.

Lemma accumulate_take (vecA : list float) :
  forall vecB acc, accumulate vecA vecB acc = accumulate vecA (take (length vecA) vecB) acc.
Proof.
  induction vecA as [|a restA IH]; intros vecB [[d na] nb]; [reflexivity|].
  destruct vecB as [|b restB]; [reflexivity|].
  cbn [accumulate hd tl length take]. apply IH.
Qed.

Lemma insert_pivot_nan (pivot : Scored) (sorted : list Scored) :
  is_nan (score pivot) = true ->
  insert_pivot by_score_desc pivot sorted = sorted ++ [pivot].
Proof.
  intro Hnan. apply is_nan_true in Hnan.
  induction sorted as [|e rest IH]; [reflexivity|].
  cbn [insert_pivot app]. unfold by_score_desc at 1. rewrite Hnan, nan_sub_r.
  change (nan <? 0)%float with false. cbv iota. rewrite IH. reflexivity.
Qed.

Lemma fold_insert_nan (l : list Scored) :
  Forall (fun s => is_nan (score s) = true) l ->
  forall sorted,
    fold_left (fun sorted pivot => insert_pivot by_score_desc pivot sorted) l sorted
    = sorted ++ l.
Proof.
  induction 1 as [|s l Hs _ IH]; intro sorted; cbn [fold_left].
  - rewrite app_nil_r. reflexivity.
  - rewrite (insert_pivot_nan s sorted Hs), IH, <- app_assoc. reflexivity.
Qed.

(** X5: the components of the second vector beyond the length of the
    first play no part in the similarity. *)
Theorem cosineSimilarity_ignores_the_rest (vecA vecB : list float) :
  cosineSimilarity vecA vecB = cosineSimilarity vecA (take (length vecA) vecB).
Proof. unfold cosineSimilarity. rewrite accumulate_take. reflexivity. Qed.

Lemma cosineSimilarity_short (vecA vecB : list float) :
  (length vecB < length vecA)%nat ->
  (squared_norm vecA =? 0)%float = false ->
  cosineSimilarity vecA vecB = nan.
Proof.
  intros Hlen Hnorm. unfold cosineSimilarity.
  rewrite (accumulate_short vecA vecB 0 0 0 Hlen).
  change (fold_left _ vecA 0%float) with (squared_norm vecA). cbv zeta beta iota.
  rewrite Hnorm. change (nan =? 0)%float with false. cbv iota. cbn [orb].
  apply nan_div_l.
Qed.

(** X6: the similarity with a second vector that is shorter than the first
    is [NaN], unless the squared norm of the first compares equal to [0]. *)
Theorem cosineSimilarity_of_a_short_vector (vecA vecB : list float) :
  (length vecB < length vecA)%nat ->
  (squared_norm vecA =? 0)%float = false ->
  cosineSimilarity vecA vecB = nan /\ is_nan (cosineSimilarity vecA vecB) = true.
Proof.
  intros Hlen Hnorm. rewrite (cosineSimilarity_short vecA vecB Hlen Hnorm).
  split; reflexivity.
Qed.

Lemma cosineSimilarity_of_a_short_vector_witness :
  (length [3; 4]%float < length [1; 0; 0]%float)%nat /\
  (squared_norm [1; 0; 0]%float =? 0)%float = false /\
  cosineSimilarity [1; 0; 0]%float [3; 4]%float = nan.
Proof.
  split; [cbn; lia|]. split; [reflexivity|].
  apply (cosineSimilarity_of_a_short_vector [1; 0; 0]%float [3; 4]%float); [cbn; lia|reflexivity].
Defined.

(** X7: when every vector of the index is shorter than the embedding of
    the query, the query has no say: the context is made of the first [k]
    chunks of the index, in the order of the index. *)
Theorem retrieveContext_of_short_vectors (this : Agent) (query : string) (k : Z)
    embedQuery (q : list float) :
  embeddings this = Some embedQuery -> embedQuery query = Ok q ->
  (squared_norm q =? 0)%float = false ->
  Forall (fun c => exists v, embedding c = Some v /\ (length v < length q)%nat) (index this) ->
  retrieveContext this query k =
  join delimiter (map format_chunk (slice_to (map (score_chunk q) (index this)) k)).
Proof.
  intros He Hq Hnorm Hshort.
  destruct (index this) as [|first rest] eqn:Hi.
  - unfold retrieveContext. rewrite Hi. unfold slice_to. cbn [map length].
    destruct (k <? 0); rewrite take_nil; reflexivity.
  - pose proof Hshort as Hfirst. apply Forall_cons in Hfirst as [(v & Hv & _) _].
    rewrite (retrieveContext_scored this query k embedQuery q first rest v He Hq Hi Hv).
    rewrite Hi.
    assert (Hnan : Forall (fun s => is_nan (score s) = true)
                     (map (score_chunk q) (first :: rest))).
    { apply Forall_map. eapply Forall_impl; [exact Hshort|].
      intros c (w & Hw & Hlen). unfold score_chunk. cbn [score]. rewrite Hw.
      rewrite (cosineSimilarity_short q w Hlen Hnorm). reflexivity. }
    rewrite (js_sort_consistent _ _ (nan_consistent _ Hnan)).
    unfold stable_sort. rewrite (fold_insert_nan _ Hnan). reflexivity.
Qed.

Lemma retrieveContext_of_short_vectors_witness :
  embeddings outdated = Some three_axes /\
  three_axes "where is gamma" = Ok [1; 0; 0]%float /\
  retrieveContext outdated "where is gamma" 1 =
  join delimiter
    (map format_chunk (slice_to (map (score_chunk [1; 0; 0]%float) (index outdated)) 1)).
Proof.
  split; [reflexivity|]. split; [reflexivity|].
  apply (retrieveContext_of_short_vectors outdated "where is gamma" 1 three_axes [1; 0; 0]%float);
    [reflexivity|reflexivity|reflexivity|].
  repeat constructor; eexists; (split; [reflexivity|cbn; lia]).
Defined.

(** ** The embedding loop of the indexer *)

Section Embedding.

Context {S : Type}.
Variable embedDocuments : list string -> M S (list (list float)).

Lemma assign_vectors_path (vectors : list (list float)) (batch : list DocumentChunk) :
  map path (assign_vectors vectors batch) = map path batch.
Proof.
  unfold assign_vectors. change (map path) with (fmap (M:=list) path).
  rewrite fmap_imap. apply imap_const.
Qed.

Lemma assign_vectors_content (vectors : list (list float)) (batch : list DocumentChunk) :
  map content (assign_vectors vectors batch) = map content batch.
Proof.
  unfold assign_vectors. change (map content) with (fmap (M:=list) content).
  rewrite fmap_imap. apply imap_const.
Qed.

Lemma assign_vectors_length (vectors : list (list float)) (batch : list DocumentChunk) :
  length (assign_vectors vectors batch) = length batch.
Proof. apply length_imap. Qed.

Lemma assign_vectors_all (vectors : list (list float)) (batch : list DocumentChunk) :
  length vectors = length batch -> Forall has_vector (assign_vectors vectors batch).
Proof.
  intro Hlen. apply Forall_lookup. intros idx c Hc.
  unfold assign_vectors in Hc. rewrite list_lookup_imap in Hc.
  destruct (batch !! idx) as [c0|] eqn:E; [|discriminate]. cbn in Hc.
  injection Hc as <-. unfold has_vector. cbn [embedding].
  apply lookup_lt_is_Some. rewrite Hlen. eapply lookup_lt_Some. exact E.
Qed.

(** A batch put back in its place. *)
Lemma batch_in_place (i : nat) (chunks batch' : list DocumentChunk) (f : DocumentChunk -> string) :
  map f batch' = map f (take batchSize (drop i chunks)) ->
  map f (take i chunks ++ batch' ++ drop (i + batchSize) chunks) = map f chunks.
Proof.
  intro H. rewrite !map_app, H, <- !map_app. f_equal.
  rewrite <- drop_drop, take_drop, take_drop. reflexivity.
Qed.

(** One round: what the [try] block leaves. *)
Lemma embed_round (i : nat) (chunks : list DocumentChunk) (s : S) :
  exists chunks' s',
    try_catch
      (vectors <- embedDocuments (map content (take batchSize (drop i chunks))) ;;
       ret (take i chunks ++ assign_vectors vectors (take batchSize (drop i chunks)) ++
            drop (i + batchSize) chunks))%js
      (fun _ => ret chunks) s = (Ok chunks', s') /\
    map path chunks' = map path chunks /\ map content chunks' = map content chunks /\
    take i chunks' = take i chunks /\
    match embedDocuments (map content (take batchSize (drop i chunks))) s with
    | (Ok vectors, _) =>
        chunks' = take i chunks ++ assign_vectors vectors (take batchSize (drop i chunks)) ++
                  drop (i + batchSize) chunks
    | (Throw _, _) => chunks' = chunks
    end.
Proof.
  unfold try_catch, bind, ret.
  destruct (embedDocuments _ s) as [[vectors|e] s'].
  - eexists _, _. split; [reflexivity|].
    split; [apply batch_in_place, assign_vectors_path|].
    split; [apply batch_in_place, assign_vectors_content|].
    split; [|reflexivity].
    destruct (Nat.le_gt_cases (length chunks) i) as [Hi|Hi].
    + rewrite (take_ge chunks i) by exact Hi.
      rewrite (drop_ge chunks i) by exact Hi. rewrite take_nil.
      rewrite (drop_ge chunks (i + batchSize)) by lia. cbn. rewrite app_nil_r.
      apply take_ge. exact Hi.
    + rewrite take_app_length'; [reflexivity|]. rewrite length_take. lia.
  - eexists _, _. repeat split; reflexivity.
Qed.

Lemma embed_loop_keeps (fuel : nat) :
  forall i chunks s, exists chunks' s',
    embed_loop embedDocuments fuel i chunks s = (Ok chunks', s') /\
    map path chunks' = map path chunks /\ map content chunks' = map content chunks /\
    take i chunks' = take i chunks.
Proof.
  induction fuel as [|fuel IH]; intros i chunks s; cbn [embed_loop].
  - exists chunks, s. repeat split; reflexivity.
  - destruct (i <? length chunks)%nat; [|exists chunks, s; repeat split; reflexivity].
    destruct (embed_round i chunks s) as (chunks1 & s1 & Hround & Hp & Hc & Ht & _).
    unfold bind at 1. rewrite Hround.
    destruct (IH (i + batchSize)%nat chunks1 s1) as (chunks2 & s2 & Hloop & Hp2 & Hc2 & Ht2).
    exists chunks2, s2. split; [exact Hloop|]. split; [congruence|]. split; [congruence|].
    rewrite <- Ht.
    assert (Hmin : forall l : list DocumentChunk, take i l = take i (take (i + batchSize) l)).
    { intro l. rewrite take_take. f_equal. lia. }
    rewrite (Hmin chunks2), (Hmin chunks1), Ht2. reflexivity.
Qed.

Lemma embed_loop_complete (fuel : nat) :
  (forall texts s, (0 < length texts <= batchSize)%nat ->
     exists vectors s', embedDocuments texts s = (Ok vectors, s') /\
                        length vectors = length texts) ->
  forall i chunks s,
    (length chunks <= i + fuel * batchSize)%nat ->
    Forall has_vector (take i chunks) ->
    exists chunks' s',
      embed_loop embedDocuments fuel i chunks s = (Ok chunks', s') /\
      Forall has_vector chunks'.
Proof.
  intro Hgood. induction fuel as [|fuel IH]; intros i chunks s Hfuel Hdone; cbn [embed_loop].
  - exists chunks, s. split; [reflexivity|].
    rewrite take_ge in Hdone by lia. exact Hdone.
  - destruct (Nat.ltb_spec i (length chunks)) as [Hi|Hi].
    2:{ exists chunks, s. split; [reflexivity|]. rewrite take_ge in Hdone by lia. exact Hdone. }
    destruct (embed_round i chunks s) as (chunks1 & s1 & Hround & Hp & _ & _ & Hcase).
    unfold bind at 1. rewrite Hround.
    assert (Hbatch : (0 < length (map content (take batchSize (drop i chunks))) <= batchSize)%nat).
    { rewrite length_map, length_take, length_drop. unfold batchSize. lia. }
    destruct (Hgood _ s Hbatch) as (vectors & s' & Hok & Hlen).
    rewrite Hok in Hcase. rewrite length_map in Hlen.
    assert (Hlen1 : length chunks1 = length chunks).
    { rewrite <- (length_map path chunks1), Hp, length_map. reflexivity. }
    apply IH.
    + rewrite Hlen1. unfold batchSize in *. lia.
    + rewrite Hcase, app_assoc.
      assert (Hdone' : Forall has_vector
                (take i chunks ++ assign_vectors vectors (take batchSize (drop i chunks)))).
      { apply Forall_app. split; [exact Hdone|]. apply assign_vectors_all. exact Hlen. }
      destruct (Nat.le_gt_cases (i + batchSize) (length chunks)) as [Hfull|Hshort].
      * rewrite take_app_le.
        2:{ rewrite length_app, length_take, assign_vectors_length, length_take, length_drop.
            unfold batchSize in *. lia. }
        apply Forall_take. exact Hdone'.
      * rewrite (drop_ge chunks (i + batchSize)) by lia. rewrite app_nil_r.
        apply Forall_take. exact Hdone'.
Qed.

End Embedding.

(** X8: the embedding loop ends without an error, whatever the embedder
    does, and changes neither the number nor the order of the chunks, nor
    the path or the content of any of them. *)
Theorem embed_chunks_keeps_the_text {S : Type}
    (embedDocuments : list string -> M S (list (list float)))
    (chunks : list DocumentChunk) (s : S) :
  exists chunks' s',
    embed_chunks embedDocuments chunks s = (Ok chunks', s') /\
    map path chunks' = map path chunks /\ map content chunks' = map content chunks.
Proof.
  destruct (embed_loop_keeps embedDocuments (length chunks) 0 chunks s)
    as (chunks' & s' & Hloop & Hp & Hc & _).
  exists chunks', s'. repeat split; assumption.
Qed.

(** X9: with an embedder that answers every batch of one to fifty texts
    with as many vectors, every chunk has a vector in the end. *)
Theorem embed_chunks_complete {S : Type}
    (embedDocuments : list string -> M S (list (list float)))
    (chunks : list DocumentChunk) (s : S) :
  (forall texts s, (0 < length texts <= batchSize)%nat ->
     exists vectors s', embedDocuments texts s = (Ok vectors, s') /\
                        length vectors = length texts) ->
  exists chunks' s',
    embed_chunks embedDocuments chunks s = (Ok chunks', s') /\
    Forall has_vector chunks'.
Proof.
  intro Hgood. apply embed_loop_complete; [exact Hgood| |constructor].
  unfold batchSize. lia.
Qed.

Lemma embed_chunks_complete_witness :
  exists chunks' s',
    embed_chunks steady sixty_chunks 0%nat = (Ok chunks', s') /\
    Forall has_vector chunks'.
Proof.
  apply (embed_chunks_complete steady sixty_chunks 0%nat).
  intros texts s _. eexists _, _. split; [reflexivity|]. apply length_map.
Defined.

(** X10: when the call for the first batch fails, the first chunk is left
    without a vector, whatever happens to the later batches; an agent whose
    index is the list the loop has left then retrieves no context for any
    query. *)
Theorem first_batch_failure_disables_retrieval {S : Type}
    (embedDocuments : list string -> M S (list (list float)))
    (chunks : list DocumentChunk) (s s1 : S) (e : string) (this : Agent)
    (query : string) (k : Z) :
  Forall (fun c => embedding c = None) chunks ->
  embedDocuments (map content (take batchSize chunks)) s = (Throw e, s1) ->
  (embed_chunks embedDocuments chunks s).1 = Ok (index this) ->
  retrieveContext this query k = "".
Proof.
  intros Hfresh Hfail Hindex. unfold embed_chunks in Hindex.
  destruct chunks as [|first rest].
  - cbn in Hindex. injection Hindex as Hindex. unfold retrieveContext.
    rewrite <- Hindex. reflexivity.
  - cbn [length embed_loop] in Hindex.
    change (0 <? Datatypes.S (length rest))%nat with true in Hindex. cbv iota in Hindex.
    destruct (embed_round embedDocuments 0 (first :: rest) s)
      as (chunks1 & s' & Hround & _ & _ & _ & Hcase).
    unfold bind at 1 in Hindex. rewrite Hround in Hindex.
    rewrite drop_0, Hfail in Hcase. subst chunks1.
    destruct (embed_loop_keeps embedDocuments (length rest) (0 + batchSize) (first :: rest) s')
      as (chunks2 & s2 & Hloop & _ & _ & Htake).
    rewrite Hloop in Hindex. cbn [fst] in Hindex. injection Hindex as ->.
    destruct (index this) as [|first' rest'] eqn:Hi; [discriminate Htake|].
    injection Htake as -> _.
    unfold retrieveContext. rewrite Hi.
    apply Forall_cons in Hfresh as [-> _].
    destruct (embeddings this); reflexivity.
Qed.

Lemma first_batch_failure_disables_retrieval_witness :
  exists chunks',
    (embed_chunks cold_start sixty_chunks 0%nat).1 = Ok chunks' /\
    retrieveContext (librarian chunks') "where is it" 5 = "".
Proof.
  eexists. split; [reflexivity|].
  apply (first_batch_failure_disables_retrieval cold_start sixty_chunks 0%nat 1%nat
           "429 Too Many Requests").
  - apply Forall_forall. intros c Hc. apply list_elem_of_In, in_map_iff in Hc as (n & <- & _).
    reflexivity.
  - reflexivity.
  - reflexivity.
Defined.

(** ** What the tools do to the files *)

Section Frames.

Context {S : Type}.
Variable R : S -> S -> Prop.
Hypothesis R_refl : forall s, R s s.
Hypothesis R_trans : forall s1 s2 s3, R s1 s2 -> R s2 s3 -> R s1 s3.

Lemma respects_ret {A} (a : A) : respects R (ret a).
Proof. intro s. apply R_refl. Qed.

Lemma respects_throw {A} (e : string) : respects R (throw (A:=A) e).
Proof. intro s. apply R_refl. Qed.

Lemma respects_gets {A} (f : S -> A) : respects R (gets f).
Proof. intro s. apply R_refl. Qed.

Lemma respects_destructure (v : JsVal) (key : string) : respects R (destructure v key).
Proof. intro s. destruct v; apply R_refl. Qed.

Lemma respects_bind {A B} (m : M S A) (k : A -> M S B) :
  respects R m -> (forall a, respects R (k a)) -> respects R (bind m k).
Proof.
  intros Hm Hk s. unfold bind. specialize (Hm s).
  destruct (m s) as [[a|e] s1]; cbn [snd] in *; [|exact Hm].
  eapply R_trans; [exact Hm|apply Hk].
Qed.

Lemma respects_try_catch {A} (m : M S A) (handler : string -> M S A) :
  respects R m -> (forall e, respects R (handler e)) -> respects R (try_catch m handler).
Proof.
  intros Hm Hh s. unfold try_catch. specialize (Hm s).
  destruct (m s) as [[a|e] s1]; cbn [snd] in *; [exact Hm|].
  eapply R_trans; [exact Hm|apply Hh].
Qed.

End Frames.

Lemma keeps_refl (fs : FileSystem) : keeps fs fs.
Proof.
  split; [reflexivity|]. intros q n H. exists n. split; [exact H|]. destruct n; exact I.
Qed.

Lemma keeps_trans (fs1 fs2 fs3 : FileSystem) : keeps fs1 fs2 -> keeps fs2 fs3 -> keeps fs1 fs3.
Proof.
  intros [Hc1 H1] [Hc2 H2]. split; [congruence|]. intros q n Hn.
  destruct (H1 q n Hn) as (n' & Hn' & Hk). destruct (H2 q n' Hn') as (n'' & Hn'' & Hk').
  exists n''. split; [exact Hn''|]. destruct n, n', n''; cbn in *; tauto.
Qed.

Lemma extends_keeps (fs fs' : FileSystem) : extends fs fs' -> keeps fs fs'.
Proof.
  intros [Hc H]. split; [exact Hc|]. intros q n Hn. exists n.
  split; [apply H; exact Hn|]. destruct n; exact I.
Qed.

(** [mkdir -p] removes nothing, also when it fails half way. *)
Lemma mkdirp_extends (comps : list string) :
  forall cur fs, extends fs (mkdirp cur comps fs).2.
Proof.
  induction comps as [|c rest IH]; intros cur fs; cbn [mkdirp]; [apply extends_refl|].
  destruct (node_at fs cur) as [[d|]|]; try apply extends_refl.
  destruct (node_at fs (step cur c)) as [[d|]|] eqn:E.
  - apply extends_refl.
  - apply IH.
  - eapply extends_trans; [apply (extends_put fs _ Dir E)|apply IH].
Qed.

Lemma mkdirSync_recursive_keeps (p : JsVal) : respects keeps (mkdirSync_recursive p).
Proof.
  intro fs. unfold mkdirSync_recursive. destruct p; try apply keeps_refl.
  destruct (String.eqb s ""); [apply keeps_refl|].
  pose proof (mkdirp_extends (segments s) (if starts_at_root s then [] else cwd fs) fs) as H.
  destruct (mkdirp _ _ fs) as [[e|] fs']; apply extends_keeps; exact H.
Qed.

Lemma writeFileSync_keeps (p data : JsVal) : respects keeps (writeFileSync p data).
Proof.
  intro fs. unfold writeFileSync. destruct data; try apply keeps_refl.
  destruct p; try apply keeps_refl.
  destruct (resolve fs s0) as [e|q]; [apply keeps_refl|].
  destruct (node_at fs q) as [[d|]|] eqn:E; try apply keeps_refl.
  - split; [reflexivity|]. intros q' n Hn. destruct (decide (q' = q)) as [->|Hne].
    + assert (Hq : q <> []) by (intros ->; discriminate E).
      cbn [snd]. rewrite node_at_put_eq by exact Hq. eexists. split; [reflexivity|].
      rewrite E in Hn. injection Hn as <-. exact I.
    + cbn [snd]. rewrite node_at_put_ne by exact Hne. exists n. split; [exact Hn|].
      destruct n; exact I.
  - apply extends_keeps, extends_put. exact E.
Qed.

Lemma write_file_keeps (args : JsVal) : respects keeps (func write_file args).
Proof.
  cbn [func write_file].
  apply respects_bind; [apply keeps_trans|apply respects_destructure, keeps_refl|intro filePath].
  apply respects_bind; [apply keeps_trans|apply respects_destructure, keeps_refl|intro content].
  apply respects_try_catch; [apply keeps_trans| |intro; apply respects_ret, keeps_refl].
  apply respects_bind; [apply keeps_trans| |intro dir].
  { unfold dirname. destruct filePath;
      first [apply respects_ret|apply respects_throw]; apply keeps_refl. }
  apply respects_bind; [apply keeps_trans|apply respects_gets, keeps_refl|intro found].
  apply respects_bind; [apply keeps_trans| |intros _].
  { destruct found; [apply respects_ret, keeps_refl|apply mkdirSync_recursive_keeps]. }
  apply respects_bind; [apply keeps_trans|apply writeFileSync_keeps|intros _].
  apply respects_ret, keeps_refl.
Qed.

Lemma readFileSync_reads (p : JsVal) : respects eq (readFileSync p).
Proof.
  intro fs. unfold readFileSync. destruct p; try reflexivity.
  destruct (resolve fs s) as [e|q]; [reflexivity|].
  destruct (node_at fs q) as [[d|]|]; reflexivity.
Qed.

Lemma readdirSync_reads (p : JsVal) : respects eq (readdirSync p).
Proof.
  intro fs. unfold readdirSync. destruct p; try reflexivity.
  destruct (resolve fs s) as [e|q]; [reflexivity|].
  destruct (node_at fs q) as [[d|]|]; reflexivity.
Qed.

Lemma read_file_reads (args : JsVal) : respects eq (func read_file args).
Proof.
  cbn [func read_file].
  apply respects_bind; [apply eq_trans|apply respects_destructure; reflexivity|intro path].
  apply respects_try_catch; [apply eq_trans| |intro; apply respects_ret; reflexivity].
  apply respects_bind; [apply eq_trans|apply respects_gets; reflexivity|intro found].
  destruct found; [apply readFileSync_reads|apply respects_ret; reflexivity].
Qed.

Lemma list_files_reads (args : JsVal) : respects eq (func list_files args).
Proof.
  cbn [func list_files].
  apply respects_bind; [apply eq_trans|apply respects_destructure; reflexivity|intro dirPath].
  apply respects_try_catch; [apply eq_trans| |intro; apply respects_ret; reflexivity].
  apply respects_bind; [apply eq_trans|apply respects_gets; reflexivity|intro found].
  destruct found; [|apply respects_ret; reflexivity].
  apply respects_bind; [apply eq_trans|apply readdirSync_reads|intro files].
  apply respects_ret; reflexivity.
Qed.

Lemma tools_keep (tool : ToolDef) (args : JsVal) :
  In tool tools -> respects keeps (func tool args).
Proof.
  intros [<-|[<-|[<-|[]]]].
  - intro fs. rewrite <- (read_file_reads args fs). apply keeps_refl.
  - apply write_file_keeps.
  - intro fs. rewrite <- (list_files_reads args fs). apply keeps_refl.
Qed.

Lemma tools_read (tool : ToolDef) (args : JsVal) :
  In tool tools -> name tool <> "write_file" -> respects eq (func tool args).
Proof.
  intros [<-|[<-|[<-|[]]]] Hname.
  - apply read_file_reads.
  - contradiction Hname. reflexivity.
  - apply list_files_reads.
Qed.

(** ** What a run does to the files *)

Section RunFrames.

Variable R : FileSystem -> FileSystem -> Prop.
Hypothesis R_refl : forall fs, R fs fs.
Hypothesis R_trans : forall fs1 fs2 fs3, R fs1 fs2 -> R fs2 fs3 -> R fs1 fs3.

(** The tool calls the model is trusted to make. *)
Variable allowed : ToolCall -> Prop.
Hypothesis allowed_respects :
  forall toolCall tool, allowed toolCall -> find_tool (tc_name toolCall) = Some tool ->
                        respects R (func tool (tc_args toolCall)).

Let RW (w w' : World) : Prop := R (files w) (files w').

Lemma RW_refl (w : World) : RW w w.
Proof. apply R_refl. Qed.

Lemma RW_trans (w1 w2 w3 : World) : RW w1 w2 -> RW w2 w3 -> RW w1 w3.
Proof. apply R_trans. Qed.

Lemma tool_call_step_respects (toolCall : ToolCall) :
  allowed toolCall -> respects RW (tool_call_step toolCall).
Proof.
  intro Hok. unfold tool_call_step.
  destruct (find_tool (tc_name toolCall)) as [tool|] eqn:Hfind; [|intro w; apply R_refl].
  apply respects_bind; [apply RW_trans| |intro result].
  - intro w. unfold await_tool. pose proof (allowed_respects toolCall tool Hok Hfind (files w)) as H.
    destruct (func tool (tc_args toolCall) (files w)) as [r fs']. exact H.
  - apply respects_bind; [apply RW_trans| |intros _]; intro w; apply R_refl.
Qed.

Lemma for_tool_calls_respects (calls : list ToolCall) :
  Forall allowed calls -> respects RW (for_tool_calls calls).
Proof.
  induction 1 as [|toolCall rest Hok _ IH]; cbn [for_tool_calls].
  - apply respects_ret, RW_refl.
  - apply respects_bind; [apply RW_trans| |intros _; exact IH].
    apply tool_call_step_respects. exact Hok.
Qed.

Variable this : Agent.
Hypothesis model_allowed :
  forall transcript response calls,
    llm this transcript = Ok response -> tool_calls response = Some calls ->
    Forall allowed calls.

Lemma turn_respects : respects RW (turn this).
Proof.
  intro w. unfold turn, try_catch, bind, invoke.
  destruct (llm this (currentMessages w)) as [response|e] eqn:Hllm; [|apply R_refl].
  cbn [push yield modify].
  destruct (tool_calls response) as [[|toolCall others]|] eqn:Hcalls; try apply R_refl.
  cbn [currentMessages files yielded invocations].
  pose proof (for_tool_calls_respects (toolCall :: others)
                (model_allowed _ _ _ Hllm Hcalls)) as H.
  match goal with |- context [for_tool_calls _ ?w0] => specialize (H w0);
    destruct (for_tool_calls (toolCall :: others) w0) as [[[]|e] w1] end; exact H.
Qed.

Lemma while_turns_respects (remaining : nat) : respects RW (while_turns this remaining).
Proof.
  induction remaining as [|n IH]; cbn [while_turns]; [apply respects_ret, RW_refl|].
  apply respects_bind; [apply RW_trans|apply turn_respects|intros [|]].
  - exact IH.
  - apply respects_ret, RW_refl.
Qed.

Lemma runStream_respects (query : string) (messageHistory : list Message) (fs : FileSystem) :
  R fs (files (runStream this query messageHistory fs)).
Proof.
  unfold runStream.
  exact (while_turns_respects maxTurns
           (mkWorld fs (initial_messages (retrieveContext this query 5) messageHistory query) [] 0)).
Qed.

End RunFrames.

(** X11: a run never removes a file or a directory, and never turns one
    into the other, whatever the model asks for: all it can do to what is
    there is to give a file another content. *)
Theorem runStream_removes_nothing (this : Agent) (query : string)
    (messageHistory : list Message) (fs : FileSystem) :
  keeps fs (files (runStream this query messageHistory fs)).
Proof.
  apply (runStream_respects keeps keeps_refl keeps_trans (fun _ => True)).
  - intros toolCall tool _ Hfind. apply tools_keep. apply (find_tool_in _ _ Hfind).
  - intros transcript response calls _ _. apply Forall_forall. intros; exact I.
Qed.

(** X12: a run in which the model never asks for [write_file] leaves the
    files as they were. *)
Theorem runStream_without_write_file (this : Agent) (query : string)
    (messageHistory : list Message) (fs : FileSystem) :
  (forall transcript response calls,
     llm this transcript = Ok response -> tool_calls response = Some calls ->
     Forall (fun toolCall => tc_name toolCall <> "write_file") calls) ->
  files (runStream this query messageHistory fs) = fs.
Proof.
  intro Hmodel. symmetry.
  apply (runStream_respects eq (@eq_refl _) (@eq_trans _)
           (fun toolCall => tc_name toolCall <> "write_file")).
  - intros toolCall tool Hname Hfind. destruct (find_tool_in _ _ Hfind) as [Hin Heq].
    apply tools_read; [exact Hin|congruence].
  - exact Hmodel.
Qed.

Lemma runStream_without_write_file_witness :
  files (runStream browser "what is in src" [] project_fs) = project_fs.
Proof.
  apply (runStream_without_write_file browser "what is in src" [] project_fs).
  intros transcript response calls Hllm Hcalls. cbn [llm browser] in Hllm.
  destruct (last transcript) as [[| | |]|]; injection Hllm as <-; cbn in Hcalls;
    first [discriminate Hcalls|injection Hcalls as <-; repeat constructor; discriminate].
Defined.

(** ** The console loop and the streaming loop *)

Lemma console_tool_call_step_silent (toolCall : ToolCall) (w : World) :
  Console.tool_call_step toolCall (silent w) =
  (let '(r, w') := tool_call_step toolCall w in (r, silent w')).
Proof.
  unfold Console.tool_call_step, tool_call_step.
  destruct (find_tool (tc_name toolCall)) as [tool|]; [|reflexivity].
  unfold bind, await_tool. cbn [files silent].
  destruct (func tool (tc_args toolCall) (files w)) as [[result|e] fs']; reflexivity.
Qed.

Lemma console_for_tool_calls_silent (calls : list ToolCall) :
  forall w, Console.for_tool_calls calls (silent w) =
            (let '(r, w') := for_tool_calls calls w in (r, silent w')).
Proof.
  induction calls as [|toolCall rest IH]; intro w; [reflexivity|].
  cbn [Console.for_tool_calls for_tool_calls]. unfold bind.
  rewrite console_tool_call_step_silent.
  destruct (tool_call_step toolCall w) as [[[]|e] w1]; [apply IH|reflexivity].
Qed.

Lemma console_turn_silent (this : Agent) (w : World) :
  Console.turn this (silent w) = (let '(r, w') := turn this w in (r, silent w')).
Proof.
  unfold Console.turn, turn, try_catch, bind, invoke. cbn [currentMessages silent].
  destruct (llm this (currentMessages w)) as [response|e]; [|reflexivity].
  cbn [push yield modify files currentMessages yielded invocations].
  destruct (tool_calls response) as [[|toolCall others]|]; try reflexivity.
  unfold silent at 1 2 3. cbn [files currentMessages yielded invocations].
  match goal with |- context [for_tool_calls _ ?w0] =>
    pose proof (console_for_tool_calls_silent (toolCall :: others) w0) as H;
    unfold silent at 1 in H; cbn [files currentMessages yielded invocations] in H;
    rewrite H; destruct (for_tool_calls (toolCall :: others) w0) as [[[]|e] w1]
  end; reflexivity.
Qed.

Lemma console_while_turns_silent (this : Agent) (remaining : nat) :
  forall w, Console.while_turns this remaining (silent w) =
            (let '(r, w') := while_turns this remaining w in (r, silent w')).
Proof.
  induction remaining as [|n IH]; intro w; [reflexivity|].
  cbn [Console.while_turns while_turns]. unfold bind. rewrite console_turn_silent.
  destruct (turn this w) as [[[|]|e] w1]; [apply IH|reflexivity|reflexivity].
Qed.

(** X13: the console loop [run] of the agent before streaming and
    [runStream] without a history do the same: they leave the same files
    and the same transcript, after as many calls of the model. *)
Theorem runStream_agrees_with_the_console_loop (this : Agent) (query : string)
    (fs : FileSystem) :
  files (Console.run this query fs) = files (runStream this query [] fs) /\
  currentMessages (Console.run this query fs) = currentMessages (runStream this query [] fs) /\
  invocations (Console.run this query fs) = invocations (runStream this query [] fs).
Proof.
  unfold Console.run, runStream.
  pose proof (console_while_turns_silent this maxTurns
    (mkWorld fs (initial_messages (retrieveContext this query 5) [] query) [] 0)) as H.
  unfold silent at 1 in H. cbn [files currentMessages yielded invocations] in H.
  rewrite H. destruct (while_turns this maxTurns _) as [r w]. repeat split; reflexivity.
Qed.

(** ** The transcript of a run *)

Lemma answers_appended (calls : list ToolCall) (msgs : list Message) :
  Forall2 answers calls msgs -> Forall appended msgs.
Proof.
  induction 1 as [|c m calls msgs (text & -> & _) _ IH]; constructor; [exact I|exact IH].
Qed.

Lemma turn_appends (this : Agent) (w : World) :
  exists flow w' added,
    turn this w = (Ok flow, w') /\
    currentMessages w' = currentMessages w ++ added /\ Forall appended added.
Proof.
  destruct (llm this (currentMessages w)) as [response|e] eqn:H.
  - destruct (tool_calls response) as [[|toolCall others]|] eqn:Hc.
    + rewrite (turn_answers this w response H) by (right; exact Hc).
      eexists _, _, [_]. repeat split. repeat constructor.
    + destruct (first_rejected (toolCall :: others))
        as [Hok|(before & c & after & Hcs & Hbefore & Hrej)].
      * destruct (turn_calls_tools this w response toolCall others H Hc Hok)
          as (w' & msgs & evs & -> & _ & Hm & Ha & _).
        eexists _, _, (_ :: msgs). split; [reflexivity|]. split; [exact Hm|].
        constructor; [exact I|]. eapply answers_appended. exact Ha.
      * rewrite Hcs in Hc.
        destruct (turn_rejected this w response before c after H Hc Hbefore Hrej)
          as (w' & msgs & evs & -> & Hm & Ha & _).
        eexists _, _, (_ :: msgs). split; [reflexivity|]. split; [exact Hm|].
        constructor; [exact I|]. eapply answers_appended. exact Ha.
    + rewrite (turn_answers this w response H) by (left; exact Hc).
      eexists _, _, [_]. repeat split. repeat constructor.
  - rewrite (turn_throws this w e H). eexists _, _, []. cbn [currentMessages].
    rewrite app_nil_r. repeat split. constructor.
Qed.

Lemma while_turns_appends (this : Agent) (remaining : nat) :
  forall w, exists w' added,
    while_turns this remaining w = (Ok tt, w') /\
    currentMessages w' = currentMessages w ++ added /\ Forall appended added.
Proof.
  induction remaining as [|n IH]; intro w; cbn [while_turns].
  - exists w, []. rewrite app_nil_r. repeat split. constructor.
  - destruct (turn_appends this w) as (flow & w1 & added1 & Ht & Hm & Ha).
    unfold bind. rewrite Ht. destruct flow.
    + destruct (IH w1) as (w2 & added2 & Hw & Hm2 & Ha2).
      exists w2, (added1 ++ added2). rewrite Hw. split; [reflexivity|]. split.
      * rewrite Hm2, Hm, <- app_assoc. reflexivity.
      * apply Forall_app. split; assumption.
    + exists w1, added1. repeat split; assumption.
Qed.

(** X14: a run rewrites nothing of its transcript: the system prompt,
    the history and the query stay its first messages, and what comes after
    them are messages of the assistant and of the tools. *)
Theorem runStream_appends_to_the_transcript (this : Agent) (query : string)
    (messageHistory : list Message) (fs : FileSystem) :
  exists added,
    currentMessages (runStream this query messageHistory fs) =
      initial_messages (retrieveContext this query 5) messageHistory query ++ added /\
    Forall appended added.
Proof.
  unfold runStream.
  destruct (while_turns_appends this maxTurns
              (mkWorld fs (initial_messages (retrieveContext this query 5) messageHistory query) [] 0))
    as (w & added & -> & Hm & Ha).
  exists added. split; assumption.
Qed.

(** ** The command-line wrapper *)

Lemma run_line_progress (evs : list Event) :
  Forall (fun e => terminal e = false) evs ->
  Forall progress_line (omap run_line evs) /\
  match last evs with Some (message _) => False | _ => True end.
Proof.
  induction 1 as [|e evs He _ [IH1 IH2]]; [split; [constructor|exact I]|].
  split.
  - destruct e; try discriminate He; cbn [omap list_omap run_line]; constructor;
      try exact IH1; [left|right]; eexists; reflexivity.
  - destruct evs as [|e' evs']; [destruct e; try discriminate He; exact I|].
    rewrite last_cons_cons. exact IH2.
Qed.

Lemma run_line_logs (evs : list Event) :
  Forall2 logs (List.filter (fun e => negb (is_error e)) evs) (omap run_line evs).
Proof.
  induction evs as [|e evs IH]; [constructor|].
  destruct e; cbn [List.filter is_error negb omap list_omap run_line];
    first [exact IH|constructor; [constructor|exact IH]].
Qed.

(** X15: [run] logs one line for every event of the stream that is not an
    error, in the order of the stream: the content of a message,
    [Using tools: ] and the names of the tools with a comma and a space
    between two of them for a [tool_start], [Tool <name> finished.] for a
    [tool_result].  So it logs the lines that report on the tools and then,
    when the stream ends with the final message, the answer as the last
    line; for an error, and when the turns have run out, it logs no line
    more. *)
Theorem run_logs_the_answer_last (this : Agent) (query : string) (fs : FileSystem) :
  Forall2 logs
    (List.filter (fun e => negb (is_error e)) (yielded (runStream this query [] fs)))
    (run this query fs) /\
  (exists progress,
     Forall progress_line progress /\
     match last (yielded (runStream this query [] fs)) with
     | Some (message content) => run this query fs = progress ++ [content]
     | _ => run this query fs = progress
     end) /\
  (forall sep, join sep [] = EmptyString) /\
  (forall sep x, join sep [x] = x) /\
  (forall sep x y l, join sep (x :: y :: l) = x +:+ sep +:+ join sep (y :: l)).
Proof.
  split; [apply run_line_logs|].
  split; [|split; [reflexivity|split; [reflexivity|exact join_cons]]].
  unfold run.
  destruct (runStream_unfold this query [] fs) as (w & evs & _ & -> & Hy & _ & Hend).
  rewrite Hy. clear Hy.
  destruct Hend as [(pre & t & -> & Hterm & Hpre)|[Hnone _]].
  - destruct (run_line_progress pre Hpre) as [Hprog _].
    exists (omap run_line pre). split; [exact Hprog|].
    rewrite last_snoc, omap_app.
    destruct t; try discriminate Hterm; cbn [omap list_omap run_line];
      [reflexivity|apply app_nil_r].
  - destruct (run_line_progress evs Hnone) as [Hprog Hlast].
    exists (omap run_line evs). split; [exact Hprog|].
    destruct (last evs) as [[| | |]|]; try reflexivity. contradiction.
Qed.

(** ** Writing a file, then listing its directory *)

(** A write that reports success went through [writeFileSync], on files in
    which the directory of the path exists. *)
Lemma write_file_success_inv (args : JsObject) (p data : string) (fs fs' : FileSystem) :
  get args "path" = VStr p -> get args "content" = VStr data ->
  func write_file (VObj args) fs = (Ok ("Successfully wrote to " +:+ p), fs') ->
  exists fs1 qd,
    resolve fs1 (dirname_of p) = inr qd /\ is_Some (node_at fs1 qd) /\
    writeFileSync (VStr p) (VStr data) fs1 = (Ok tt, fs').
Proof.
  intros Hp Hd. rewrite (write_file_run args p data fs Hp Hd).
  destruct (existsSync (VStr (dirname_of p)) fs) as [[found|e] fs0] eqn:Hex;
    [|unfold existsSync, gets in Hex; discriminate].
  assert (Hfs0 : fs0 = fs) by (unfold existsSync, gets in Hex; congruence). subst fs0.
  destruct found.
  - destruct (writeFileSync (VStr p) (VStr data) fs) as [[[]|e] fs2] eqn:Hw;
      intro H; [|discriminate H].
    injection H as <-. destruct (existsSync_true _ _ Hex) as (qd & Hq & Hn).
    exists fs, qd. repeat split; assumption.
  - destruct (mkdirSync_recursive (VStr (dirname_of p)) fs) as [[[]|e] fs1] eqn:Hmk;
      [|intro H; discriminate H].
    destruct (writeFileSync (VStr p) (VStr data) fs1) as [[[]|e] fs2] eqn:Hw;
      intro H; [|discriminate H].
    injection H as <-. destruct (mkdirSync_recursive_ok _ _ _ Hmk) as (_ & qd & Hq & Hn).
    exists fs1, qd. rewrite Hn. repeat split; eauto.
Qed.

(** Where a path that resolves names the entry [base] of its directory, the
    directory is one, and the path leads right below it. *)
Lemma entry_resolve_inv (base p : string) (fs : FileSystem) (qd q : Location) :
  plain_name base -> entry_of base p ->
  resolve fs (dirname_of p) = inr qd -> resolve fs p = inr q ->
  node_at fs qd = Some Dir /\ q = qd ++ [base].
Proof.
  intros Hplain Hentry Hqd Hq.
  assert (Hdir : node_at fs qd = Some Dir).
  { pose proof Hplain as (Hs & Hne & _).
    destruct Hentry as [| |d Hd Hlast].
    - rewrite (dirname_of_relative base Hs Hne), resolve_dot in Hqd.
      destruct (node_at fs (cwd fs)) as [[|]|] eqn:Hcwd; try discriminate Hqd.
      injection Hqd as <-. exact Hcwd.
    - rewrite (dirname_of_at_root base Hs), resolve_root in Hqd.
      injection Hqd as <-. reflexivity.
    - rewrite (dirname_of_child d base Hd Hlast Hs Hne) in Hqd. unfold resolve in Hqd, Hq.
      rewrite child_path_nonempty, (starts_at_root_child d base Hd),
        (segments_child d base Hs), walk_app in Hq.
      destruct (String.eqb d ""); [discriminate|]. rewrite Hqd in Hq. cbn [walk] in Hq.
      destruct (node_at fs qd) as [[|]|]; try discriminate Hq. reflexivity. }
  split; [exact Hdir|].
  rewrite (entry_resolve base p fs qd Hplain Hentry Hqd Hdir) in Hq. congruence.
Qed.

Lemma children_put (fs : FileSystem) (qd : Location) (base : string) (n : Node) :
  In base (children (put_node (qd ++ [base]) n fs) qd).
Proof.
  apply list_elem_of_In. unfold children. rewrite merge_sort_Permutation.
  apply list_elem_of_omap.
  exists (qd ++ [base], n). split.
  - apply elem_of_map_to_list. cbn [nodes put_node]. apply lookup_insert_eq.
  - rewrite last_snoc, removelast_last.
    rewrite bool_decide_eq_true_2 by reflexivity. reflexivity.
Qed.

(** X16: once [write_file] has reported success for a path that names
    the entry [base] of its directory, [list_files] of that directory ends
    with a listing, and [base] is one of the names listed. *)
Theorem write_file_then_list_files (args args' : JsObject) (p data base : string)
    (fs fs' : FileSystem) :
  get args "path" = VStr p -> get args "content" = VStr data ->
  plain_name base -> entry_of base p ->
  func write_file (VObj args) fs = (Ok ("Successfully wrote to " +:+ p), fs') ->
  get args' "path" = VStr (dirname_of p) ->
  exists names,
    func list_files (VObj args') fs' = (Ok (join newline names), fs') /\ In base names.
Proof.
  intros Hp Hd Hplain Hentry Hwrite Hp'.
  destruct (write_file_success_inv args p data fs fs' Hp Hd Hwrite)
    as (fs1 & qd & Hqd & _ & Hw).
  apply writeFileSync_inv in Hw as (q & Hq & Hfree & ->).
  destruct (entry_resolve_inv base p fs1 qd q Hplain Hentry Hqd Hq) as [Hdir ->].
  assert (Hqd' : resolve (put_node (qd ++ [base]) (File data) fs1) (dirname_of p) = inr qd)
    by (apply resolve_put_file; assumption).
  assert (Hdir' : node_at (put_node (qd ++ [base]) (File data) fs1) qd = Some Dir).
  { rewrite node_at_put_ne; [exact Hdir|]. intro Heq.
    apply (f_equal (@length string)) in Heq. rewrite length_app in Heq. cbn in Heq. lia. }
  exists (children (put_node (qd ++ [base]) (File data) fs1) qd).
  split; [|apply children_put].
  cbn [func list_files destructure]. rewrite Hp'. unfold try_catch, bind. cbn [ret].
  rewrite (existsSync_intro _ _ qd Hqd') by (rewrite Hdir'; eauto). cbn [negb].
  unfold readdirSync. rewrite Hqd', Hdir'. reflexivity.
Qed.

Lemma write_file_then_list_files_witness :
  exists names,
    func list_files (VObj [("path", VStr "/src/new")])
      (func write_file (VObj [("path", VStr "/src/new/a.txt"); ("content", VStr "hello")]) project_fs).2
    = (Ok (join newline names),
       (func write_file (VObj [("path", VStr "/src/new/a.txt"); ("content", VStr "hello")]) project_fs).2)
    /\ In "a.txt" names.
Proof.
  apply (write_file_then_list_files
           [("path", VStr "/src/new/a.txt"); ("content", VStr "hello")]
           [("path", VStr "/src/new")] "/src/new/a.txt" "hello" "a.txt" project_fs).
  - reflexivity.
  - reflexivity.
  - split; [repeat constructor|]. repeat split; discriminate.
  - apply (entry_in "a.txt" "/src/new"); [discriminate|vm_compute; discriminate].
  - vm_compute. reflexivity.
  - reflexivity.
Defined.

(** ** The shape of the stream *)

Lemma for_tool_calls_results (calls : list ToolCall) :
  Forall (fun c => rejects c = false) calls ->
  forall w w',
    for_tool_calls calls w = (Ok tt, w') ->
    exists results,
      yielded w' = yielded w ++ map result_event results /\
      map fst results = List.filter registered (map tc_name calls).
Proof.
  induction 1 as [|toolCall rest Hok _ IH]; intros w w'; cbn [for_tool_calls].
  - intro H. injection H as <-. exists []. cbn. rewrite app_nil_r. split; reflexivity.
  - unfold bind. cbn [map List.filter]. unfold registered at 1.
    destruct (find_tool (tc_name toolCall)) as [tool|] eqn:Hfind.
    + assert (Hargs : nullish (tc_args toolCall) = false).
      { apply rejects_false in Hok as [Hnone|Hargs]; [congruence|exact Hargs]. }
      destruct (tool_call_step_registered toolCall tool w Hfind Hargs)
        as (result & fs' & _ & ->).
      destruct (find_tool_in _ _ Hfind) as [_ Hname].
      intro Hrest. destruct (IH _ _ Hrest) as (results & Hy & Hr).
      exists ((tc_name toolCall, result) :: results). split.
      * rewrite Hy. cbn [yielded map]. unfold result_event at 2. cbn [fst snd].
        rewrite Hname, <- app_assoc. reflexivity.
      * cbn [map fst]. rewrite Hr. reflexivity.
    + rewrite (tool_call_step_unregistered toolCall w Hfind).
      intro Hrest. destruct (IH _ _ Hrest) as (results & Hy & Hr).
      exists results. split; assumption.
Qed.

Lemma turn_shape (this : Agent) (w : World) :
  exists flow w' evs,
    turn this w = (Ok flow, w') /\
    yielded w' = yielded w ++ evs /\
    match flow with
    | Break => (exists t, evs = [t] /\ terminal t = true) \/ rejected_turn evs
    | Continue => tool_turn evs
    end.
Proof.
  destruct (llm this (currentMessages w)) as [response|e] eqn:H.
  - destruct (tool_calls response) as [[|toolCall others]|] eqn:Hc.
    + rewrite (turn_answers this w response H) by (right; exact Hc).
      eexists Break, _, _. repeat split. left. eexists. split; reflexivity.
    + destruct (first_rejected (toolCall :: others))
        as [Hok|(before & c & after & Hcs & Hbefore & Hrej)].
      * destruct (turn_calls_tools this w response toolCall others H Hc Hok)
          as (w' & _ & _ & -> & Hfor & _).
        destruct (for_tool_calls_results (toolCall :: others) Hok _ _ Hfor)
          as (results & Hy & Hr).
        exists Continue, w',
          (tool_start (map tc_name (toolCall :: others)) :: map result_event results).
        split; [reflexivity|]. split.
        -- rewrite Hy. cbn [yielded]. rewrite <- app_assoc. reflexivity.
        -- exists (map tc_name (toolCall :: others)), results.
           split; [discriminate|]. split; [reflexivity|exact Hr].
      * rewrite Hcs in Hc.
        destruct (turn_rejected this w response before c after H Hc Hbefore Hrej)
          as (w' & _ & _ & -> & _ & _ & _ & _ & _ & w1 & Hfor & _ & Hy).
        destruct (for_tool_calls_results before Hbefore _ _ Hfor) as (results & Hy1 & Hr).
        exists Break, w',
          (tool_start (map tc_name (before ++ c :: after)) :: map result_event results
           ++ [error (cannot_destructure "path" (tc_args c))]).
        split; [reflexivity|]. split.
        -- rewrite Hy, Hy1. cbn [yielded]. rewrite <- !app_assoc. reflexivity.
        -- right. exists before, c, after, results, (cannot_destructure "path" (tc_args c)).
           split; [exact Hrej|]. split; [exact Hbefore|]. split; [reflexivity|exact Hr].
    + rewrite (turn_answers this w response H) by (left; exact Hc).
      eexists Break, _, _. repeat split. left. eexists. split; reflexivity.
  - rewrite (turn_throws this w e H).
    eexists Break, _, _. repeat split. left. eexists. split; reflexivity.
Qed.

Lemma while_turns_shape (this : Agent) (remaining : nat) :
  forall w, exists w' turns ending,
    while_turns this remaining w = (Ok tt, w') /\
    yielded w' = yielded w ++ concat turns ++ ending /\
    Forall tool_turn turns /\
    ((ending = [] /\ length turns = remaining) \/
     ((length turns < remaining)%nat /\
      ((exists t, ending = [t] /\ terminal t = true) \/ rejected_turn ending))).
Proof.
  induction remaining as [|n IH]; intro w; cbn [while_turns].
  - exists w, [], []. cbn. rewrite app_nil_r. repeat split; [constructor|]. left. split; reflexivity.
  - destruct (turn_shape this w) as (flow & w1 & evs1 & Ht & Hy & Hflow).
    unfold bind. rewrite Ht. destruct flow.
    + destruct (IH w1) as (w2 & turns & ending & Hw & Hy2 & Hall & Hend).
      exists w2, (evs1 :: turns), ending. rewrite Hw. split; [reflexivity|]. split.
      * rewrite Hy2, Hy. cbn [concat]. rewrite <- !app_assoc. reflexivity.
      * split; [constructor; assumption|].
        destruct Hend as [[-> Hlen]|[Hlen Hend]].
        -- left. split; [reflexivity|cbn; lia].
        -- right. split; [cbn; lia|exact Hend].
    + exists w1, [], evs1. split; [reflexivity|]. split; [exact Hy|].
      split; [constructor|]. right. split; [cbn; lia|exact Hflow].
Qed.

(** X17: the stream of a run is made of the turns in which the model
    called tools, fifteen at most, each of them the names of the tools called
    followed by the results of those that are registered, in the order of the
    calls.  After fifteen such turns it ends with nothing more.  After fewer
    it ends with one final message, with one error of the model, or with a
    turn that a rejecting handler cut short: the names of the tools called,
    the results for the calls before the rejected one, and the error. *)
Theorem runStream_stream_shape (this : Agent) (query : string)
    (messageHistory : list Message) (fs : FileSystem) :
  exists turns ending,
    yielded (runStream this query messageHistory fs) = concat turns ++ ending /\
    Forall tool_turn turns /\
    ((ending = [] /\ length turns = maxTurns) \/
     ((length turns < maxTurns)%nat /\
      ((exists t, ending = [t] /\ terminal t = true) \/ rejected_turn ending))).
Proof.
  unfold runStream.
  destruct (while_turns_shape this maxTurns
              (mkWorld fs (initial_messages (retrieveContext this query 5) messageHistory query) [] 0))
    as (w & turns & ending & -> & Hy & Hall & Hend).
  exists turns, ending. split; [exact Hy|]. split; assumption.
Qed.

(** ** Splitting without overlap *)

Lemma tiles_without_overlap {char : Type} (size len : Z) (text : list char)
    (spans : list (Z * Z)) (from : Z) :
  js_length text = len ->
  tiles size 0 len from spans ->
  concat (map (fun '(s, e) => js_slice text s e) spans) = drop (Z.to_nat from) text.
Proof.
  intros Hlen. induction 1 as [s Hs Hfit|s e s' rest Hse Hfit He Hss' Hov _ IH]; cbn [map concat].
  - rewrite app_nil_r, js_slice_inside by lia.
    apply take_ge. rewrite length_drop. unfold js_length in Hlen. lia.
  - rewrite IH, js_slice_inside by lia.
    assert (s' = e) by lia. subst s'.
    replace (Z.to_nat e) with (Z.to_nat s + Z.to_nat (e - s))%nat by lia.
    rewrite <- drop_drop. apply take_drop.
Qed.

(** X18: with an overlap of [0] the chunks are a partition of the text:
    put one after the other they give the text back. *)
Theorem splitText_without_overlap {char : Type} `{EqDecision char} (line_feed space : char)
    (chunkSize : Z) (text : list char) :
  1 <= chunkSize ->
  concat (splitText line_feed space chunkSize 0 text) = text.
Proof.
  intro Hsize. destruct text as [|c0 text0] eqn:Etext; [reflexivity|]. rewrite <- Etext.
  destruct (splitText_spans line_feed space chunkSize 0 text Hsize ltac:(lia)
              ltac:(rewrite Etext; discriminate)) as (spans & -> & Htiles).
  rewrite (tiles_without_overlap chunkSize (js_length text) text spans 0 eq_refl Htiles).
  reflexivity.
Qed.

Lemma splitText_without_overlap_witness :
  1 <= 10 /\ concat (splitText lf " "%char 10 0 sample_text) = sample_text.
Proof.
  split; [lia|]. apply (splitText_without_overlap lf " "%char 10 sample_text). lia.
Defined.
